(** * react-confetti-hook: the confetti burst and its lifecycle gate

    A shallow embedding of [src/utils/confetti.ts] (class [ConfettiBurst])
    and [src/hooks/useConfetti.ts] (hook [useConfetti] and
    [updateScalingFactors]).

    Conventions of the embedding.
    - A JavaScript [number] is read as a rational of [Q]. In
      [updateScalingFactors] and [applyFadeOut], where the rounding of
      double precision changes what the program returns, every operation
      is its exact result rounded to the nearest double ([double]), and
      a literal is the double nearest to its decimal. The physics of a
      frame ([update]) is read in exact arithmetic.
    - [Math.random], [Math.sin], [Math.PI], [Date.now] and the viewport
      size belong to the host, a record the environment supplies.
    - The DOM, the pending timeouts, the pending animation frames, the
      heap of [ConfettiBurst] objects and the refs of the hook form one
      world that every method takes and returns.
    - Closures are defunctionalised: a pending callback is a constructor
      naming the arrow function of the source that it stands for. *)

From Stdlib Require Import QArith Qround Qabs Qminmax Qpower Qreduction.
From Stdlib Require Import ZArith Lia Lqa Bool List String.
From stdpp Require Import gmap list.

Local Open Scope Q_scope.

(** ** Numbers *)

(** [a < b] of JavaScript, on rationals. *)
Definition Qltb (a b : Q) : bool :=
  match a ?= b with Lt => true | _ => false end.

(** [a <= b] of JavaScript. *)
Definition Qleb (a b : Q) : bool := Qle_bool a b.

(** [Math.round]: the nearest integer, a tie going up. *)
Definition Math_round (v : Q) : Q := inject_Z (Qfloor (v + 0.5)).

(** [Math.floor], to an index; [Math.min]; [Math.abs]. *)
Definition Math_floor (v : Q) : nat := Z.to_nat (Qfloor v).
Definition Math_min (a b : Q) : Q := Qmin a b.
Definition Math_abs (v : Q) : Q := Qabs v.

(** *** Double precision

    A JavaScript [number] is a binary64 value. Where the rounding of an
    operation can change what the program does, the operation is its
    exact result rounded to the nearest double, a tie going to the even
    significand ([double]); this is the arithmetic of IEEE 754 for every
    result within the range of binary64. Beyond that range the code has
    [Infinity], which a rational cannot hold: there [double] keeps
    rounding to 53 bits. *)

(** [2^e], for any integer [e]. *)
Definition pow2 (e : Z) : Q := 2 ^ e.

(** The nearest integer, a tie going to the even one. *)
Definition rne (q : Q) : Z :=
  let f := Qfloor q in
  match Qcompare (q - inject_Z f) (1 # 2) with
  | Lt => f
  | Gt => (f + 1)%Z
  | Eq => if Z.even f then f else (f + 1)%Z
  end.

(** [floor (log2 q)] for [q > 0]. *)
Definition ilog2 (q : Q) : Z :=
  let e := (Z.log2 (Qnum q) - Z.log2 (Zpos (Qden q)))%Z in
  if Qle_bool (pow2 e) q then e else (e - 1)%Z.

(** The nearest multiple of [2^c]. *)
Definition round_at (c : Z) (q : Q) : Q := inject_Z (rne (q / pow2 c)) * pow2 c.

(** The exponent of the last place of a double near [q > 0]: 53
    significant bits, and no place below [2^-1074]. *)
Definition cexp (q : Q) : Z := Z.max (ilog2 q - 52) (-1074).

Definition double_pos (q : Q) : Q := round_at (cexp q) q.

(** The double nearest to [q], as a fraction in lowest terms. *)
Definition double (q : Q) : Q :=
  let q := Qred q in
  match Qnum q with
  | Z0 => 0
  | Zpos _ => Qred (double_pos q)
  | Zneg _ => Qred (- double_pos (- q))
  end.

Arguments double : simpl never.

(** ** Callbacks

    The arrow functions that can sit in [onStop]. *)
Inductive Callback : Type :=
| CbNoop                 (* [() => {}], the constructor's default *)
| CbUser (tag : nat)     (* a function of the caller; a call is logged *)
| CbGateOnStop.          (* the hook's [onStop] of [fireConfetti] *)

(** ** [ConfettiOptions] and [ConfettiConfig = Required<ConfettiOptions>] *)

Module opts.
Record t : Type := mk {
    bounceCount : option Q;
    duration : option Q;
    particleCount : option Q;
    randomizeStart : option bool;
    size : option Q;
    spread : option Q;
    startVelocity : option Q;
    onStop : option Callback;
  }.
(** The object with no key, [{}]. *)
Definition empty : t := mk None None None None None None None None.
End opts.

Module cfg.
Record t : Type := mk {
    bounceCount : Q;
    duration : Q;
    onStop : Callback;
    particleCount : Q;
    randomizeStart : bool;
    size : Q;
    spread : Q;
    startVelocity : Q;
  }.
End cfg.

(** [{ ...defaults, ...options }]: a key of [options] overrides. *)
Definition override {A} (dflt : A) (o : option A) : A :=
  match o with Some v => v | None => dflt end.

(** The body of [constructor(options?: ConfettiOptions)]. *)
Definition mkConfig (options : option opts.t) : cfg.t :=
  let o := override opts.empty options in
  {| cfg.bounceCount := override 2 (opts.bounceCount o);
     cfg.duration := override 2000 (opts.duration o);
     cfg.onStop := override CbNoop (opts.onStop o);
     cfg.particleCount := override 150 (opts.particleCount o);
     cfg.randomizeStart := override false (opts.randomizeStart o);
     cfg.size := override 12 (opts.size o);
     cfg.spread := override 70 (opts.spread o);
     cfg.startVelocity := override 25 (opts.startVelocity o) |}.

(** ** Responsive scaling ([updateScalingFactors]) *)

Module scaling.
Record t : Type := mk {
    duration : Q;
    particleCount : Q;
    size : Q;
    spread : Q;
    startVelocity : Q;
  }.
End scaling.

(** [avgScale] of a viewport: two divisions, a sum and a division, each
    rounded. *)
Definition avgScale (innerWidth innerHeight : Q) : Q :=
  let widthScale := double (innerWidth / 1200) in
  let heightScale := double (innerHeight / 800) in
  double (double (widthScale + heightScale) / 2).

(** The destructuring with defaults at the head of [updateScalingFactors].
    Each value is a JavaScript number: the double that the rational of
    the options denotes. *)
Definition scalingDefaults (options : option opts.t) : scaling.t :=
  let o := override opts.empty options in
  {| scaling.duration := double (override 2000 (opts.duration o));
     scaling.particleCount := double (override 150 (opts.particleCount o));
     scaling.size := double (override 15 (opts.size o));
     scaling.spread := double (override 70 (opts.spread o));
     scaling.startVelocity := double (override 25 (opts.startVelocity o)) |}.

(** Each product is rounded to a double before [Math.round] sees it. *)
Definition updateScalingFactors (options : option opts.t)
    (innerWidth innerHeight : Q) : scaling.t :=
  let d := scalingDefaults options in
  let avg := avgScale innerWidth innerHeight in
  {| scaling.size :=
       Math_min (Math_round (double (scaling.size d * avg))) (scaling.size d);
     scaling.particleCount :=
       Math_min (Math_round (double (scaling.particleCount d * avg)))
                (scaling.particleCount d);
     scaling.spread :=
       Math_min (Math_round (double (scaling.spread d * avg)))
                (scaling.spread d);
     scaling.startVelocity :=
       Math_min (Math_round (double (scaling.startVelocity d * avg)))
                (scaling.startVelocity d);
     scaling.duration :=
       Math_min (Math_round (double (scaling.duration d * avg)))
                (scaling.duration d) |}.

(** The five numeric fields, in the order of the interface. *)
Definition scalingFields (s : scaling.t) : list Q :=
  [ scaling.duration s; scaling.particleCount s; scaling.size s;
    scaling.spread s; scaling.startVelocity s ].

(** ** Fade-out

    [1 - timeLeft / duration] and [1 - (progress - 0.7) / 0.3] as
    [applyFadeOut] computes them: in double precision, [0.7] and [0.3]
    being the doubles nearest to these decimals. *)
Definition fadeProgress (timeLeft duration : Q) : Q :=
  double (1 - double (timeLeft / duration)).

Definition fadeValue (progress : Q) : Q :=
  double (1 - double (double (progress - double 0.7) / double 0.3)).

(** The opacity as a function of the progress in the words of the
    design, in exact arithmetic: 1 up to 0.7, then a line down to 0. *)
Definition opacityOfProgress (progress : Q) : Q :=
  if Qleb progress 0.7 then 1 else 1 - (progress - 0.7) / 0.3.

(** ** Boundary collisions *)

Module vert.
(** [{ y, vy, bounces, isSettling }] *)
Record t : Type := mk { y : Q; vy : Q; bounces : Q; isSettling : bool }.
End vert.

Module horiz.
(** [{ x, vx }] *)
Record t : Type := mk { x : Q; vx : Q }.
End horiz.

Definition handleTopBounce (y vy bounces bounceCount bounceDamping : Q) : vert.t :=
  if Qleb y 0 && Qltb vy 0 then
    let newBounces := bounces + 1 in
    let newVy := - vy * bounceDamping in
    let isSettling := Qleb bounceCount newBounces in
    {| vert.y := 0;
       vert.vy := if isSettling then Math_abs (newVy * 0.5) else newVy;
       vert.bounces := newBounces;
       vert.isSettling := isSettling |}
  else
    {| vert.y := y; vert.vy := vy; vert.bounces := bounces;
       vert.isSettling := Qleb bounceCount bounces |}.

Definition handleBottomBounce (innerHeight : Q)
    (y vy bounces bounceCount bounceDamping : Q) (isSettling : bool) : vert.t :=
  let viewportBottom := innerHeight - 20 in
  if Qleb viewportBottom y && Qltb 0 vy && negb isSettling then
    let newBounces := bounces + 1 in
    let newVy := - vy * bounceDamping in
    let newIsSettling := Qleb bounceCount newBounces in
    {| vert.y := viewportBottom; vert.vy := newVy;
       vert.bounces := newBounces; vert.isSettling := newIsSettling |}
  else
    {| vert.y := y; vert.vy := vy; vert.bounces := bounces;
       vert.isSettling := isSettling |}.

Definition handleSideBounce (innerWidth : Q) (x vx : Q) : horiz.t :=
  let viewportLeft := 0 in
  let viewportRight := innerWidth in
  if Qleb x viewportLeft && Qltb vx 0 then
    {| horiz.x := viewportLeft; horiz.vx := - vx * 0.8 |}
  else if Qleb viewportRight x && Qltb 0 vx then
    {| horiz.x := viewportRight; horiz.vx := - vx * 0.8 |}
  else
    {| horiz.x := x; horiz.vx := vx |}.

(** ** The variables an [update] closure of [animateParticle] captures *)

Module anim.
Record t : Type := mk {
    owner : nat;            (* [this], a reference into the heap of bursts *)
    duration : Q;           (* [config.duration] *)
    bounceCount : Q;        (* [config.bounceCount] *)
    rotationSpeed : Q;
    wind : Q;
    endTime : Q;
    rotation : Q;
    x : Q;
    y : Q;
    vy : Q;
    vx : Q;
    bounces : Q;
    isSettling : bool;
  }.
End anim.

Definition gravity : Q := 0.8.
Definition bounceDamping : Q := 0.7.

(** The state of the closure after "Apply physics" and the three moves. *)
Definition applyPhysics (a : anim.t) : anim.t :=
  let vy := if negb (anim.isSettling a) then anim.vy a + gravity
            else anim.vy a + gravity * 0.3 in
  let vx := if negb (anim.isSettling a) then anim.vx a + anim.wind a * 0.05
            else anim.vx a * 0.98 in
  anim.mk (anim.owner a) (anim.duration a) (anim.bounceCount a)
    (anim.rotationSpeed a) (anim.wind a) (anim.endTime a)
    (anim.rotation a + anim.rotationSpeed a)
    (anim.x a + vx) (anim.y a + vy) vy vx
    (anim.bounces a) (anim.isSettling a).

(** "Start handle collisions": the top handler, then its four assignments. *)
Definition collideTop (a : anim.t) : anim.t :=
  let r := handleTopBounce (anim.y a) (anim.vy a) (anim.bounces a)
             (anim.bounceCount a) bounceDamping in
  anim.mk (anim.owner a) (anim.duration a) (anim.bounceCount a)
    (anim.rotationSpeed a) (anim.wind a) (anim.endTime a) (anim.rotation a)
    (anim.x a) (vert.y r) (vert.vy r) (anim.vx a)
    (vert.bounces r) (vert.isSettling r).

Definition collideBottom (innerHeight : Q) (a : anim.t) : anim.t :=
  let r := handleBottomBounce innerHeight (anim.y a) (anim.vy a)
             (anim.bounces a) (anim.bounceCount a) bounceDamping
             (anim.isSettling a) in
  anim.mk (anim.owner a) (anim.duration a) (anim.bounceCount a)
    (anim.rotationSpeed a) (anim.wind a) (anim.endTime a) (anim.rotation a)
    (anim.x a) (vert.y r) (vert.vy r) (anim.vx a)
    (vert.bounces r) (vert.isSettling r).

Definition collideSide (innerWidth : Q) (a : anim.t) : anim.t :=
  let r := handleSideBounce innerWidth (anim.x a) (anim.vx a) in
  anim.mk (anim.owner a) (anim.duration a) (anim.bounceCount a)
    (anim.rotationSpeed a) (anim.wind a) (anim.endTime a) (anim.rotation a)
    (horiz.x r) (anim.y a) (anim.vy a) (horiz.vx r)
    (anim.bounces a) (anim.isSettling a).

(** One frame of [update] on the captured variables, for a frame that is
    not the last ([timeLeft > 0]). *)
Definition advance (innerWidth innerHeight : Q) (a : anim.t) : anim.t :=
  collideSide innerWidth (collideBottom innerHeight (collideTop (applyPhysics a))).

(** A run of frames; each frame reads the viewport anew. *)
Fixpoint runFrames (viewports : list (Q * Q)) (a : anim.t) : anim.t :=
  match viewports with
  | [] => a
  | (innerWidth, innerHeight) :: rest =>
      runFrames rest (advance innerWidth innerHeight a)
  end.


(** ** The host: clock, viewport, [Math.random], [Math.sin], [Math.PI] *)

Module host.
Record t : Type := mk {
  now : Q;                 (* [Date.now()] *)
  innerWidth : Q;          (* [window.innerWidth] *)
  innerHeight : Q;         (* [window.innerHeight] *)
  random : nat -> Q;       (* the successive results of [Math.random()] *)
  sin : Q -> Q;            (* [Math.sin] *)
  PI : Q;                  (* [Math.PI] *)
}.
End host.

(** ** The display tree *)

(** The two [cssText] templates of the source, with their holes. *)
Inductive Css : Type :=
| CssContainer
| CssParticle (width height : Q) (hue alpha : Q) (borderRadius : option string).

Module style.
Record t : Type := mk {
  cssText : option Css;
  left : option Q;         (* [`${x}px`] *)
  top : option Q;          (* [`${y}px`] *)
  transform : option Q;    (* [`rotate(${rotation}deg)`] *)
  opacity : option Q;
}.
Definition empty : t := mk None None None None None.
Definition set_cssText (c : Css) (s : t) : t :=
  mk (Some c) (left s) (top s) (transform s) (opacity s).
Definition set_left (v : Q) (s : t) : t :=
  mk (cssText s) (Some v) (top s) (transform s) (opacity s).
Definition set_top (v : Q) (s : t) : t :=
  mk (cssText s) (left s) (Some v) (transform s) (opacity s).
Definition set_transform (v : Q) (s : t) : t :=
  mk (cssText s) (left s) (top s) (Some v) (opacity s).
Definition set_opacity (v : Q) (s : t) : t :=
  mk (cssText s) (left s) (top s) (transform s) (Some v).
End style.

Module node.
Record t : Type := mk { style : style.t; childNodes : list nat }.
End node.

Module document.
Record t : Type := mk {
  next : nat;                    (* the next element to be created *)
  body : list nat;               (* the children of [document.body] *)
  nodes : gmap nat node.t;       (* every [div] created so far *)
}.
End document.

(** ** Pending timeouts and animation frames *)

Inductive TimerCallback : Type :=
| CleanupCb (this : nat)                 (* [() => { this.cleanup(); }] *)
| DebounceCb (options : option opts.t).  (* the arrow of [fireConfetti] *)

Module timers.
Record t : Type := mk {
  next : positive;
  pending : gmap positive (Q * TimerCallback);   (* id -> (due time, callback) *)
}.
End timers.

Module raf.
Record t : Type := mk {
  next : positive;
  pending : gmap positive nat;   (* frame id -> the particle whose [update] runs *)
}.
End raf.

(** ** The fields of a [ConfettiBurst] *)

Module burst.
Record t : Type := mk {
  animationIds : gmap nat positive;
  cleanupTimeoutId : option positive;
  config : cfg.t;
  container : option nat;
  particles : list nat;
}.
Definition set_animationIds (f : gmap nat positive -> gmap nat positive) (b : t) : t :=
  mk (f (animationIds b)) (cleanupTimeoutId b) (config b) (container b) (particles b).
Definition set_cleanupTimeoutId (v : option positive) (b : t) : t :=
  mk (animationIds b) v (config b) (container b) (particles b).
Definition set_container (v : option nat) (b : t) : t :=
  mk (animationIds b) (cleanupTimeoutId b) (config b) v (particles b).
Definition set_particles (f : list nat -> list nat) (b : t) : t :=
  mk (animationIds b) (cleanupTimeoutId b) (config b) (container b) (f (particles b)).
End burst.

(** ** The refs and the state of [useConfetti] *)

Module hook.
Record t : Type := mk {
  activeInstancesRef : option nat;
  debounceTimerRef : option positive;
  isActive : bool;
}.
Definition set_activeInstancesRef (v : option nat) (h : t) : t :=
  mk v (debounceTimerRef h) (isActive h).
Definition set_debounceTimerRef (v : option positive) (h : t) : t :=
  mk (activeInstancesRef h) v (isActive h).
Definition set_isActive (v : bool) (h : t) : t :=
  mk (activeInstancesRef h) (debounceTimerRef h) v.
End hook.

(** ** The world *)

Module world.
Record t : Type := mk {
  host : host.t;
  drawn : nat;                   (* how many [Math.random()] were taken *)
  document : document.t;
  timers : timers.t;
  raf : raf.t;
  bursts : list burst.t;         (* the heap: [new ConfettiBurst] appends *)
  anims : gmap nat anim.t;       (* particle -> variables of its [update] *)
  hook : hook.t;
  calls : list nat;              (* the calls of the caller's callbacks *)
}.
Definition set_host (v : host.t) (w : t) : t :=
  mk v (drawn w) (document w) (timers w) (raf w) (bursts w) (anims w) (hook w) (calls w).
Definition set_drawn (v : nat) (w : t) : t :=
  mk (host w) v (document w) (timers w) (raf w) (bursts w) (anims w) (hook w) (calls w).
Definition set_document (v : document.t) (w : t) : t :=
  mk (host w) (drawn w) v (timers w) (raf w) (bursts w) (anims w) (hook w) (calls w).
Definition set_timers (v : timers.t) (w : t) : t :=
  mk (host w) (drawn w) (document w) v (raf w) (bursts w) (anims w) (hook w) (calls w).
Definition set_raf (v : raf.t) (w : t) : t :=
  mk (host w) (drawn w) (document w) (timers w) v (bursts w) (anims w) (hook w) (calls w).
Definition set_bursts (v : list burst.t) (w : t) : t :=
  mk (host w) (drawn w) (document w) (timers w) (raf w) v (anims w) (hook w) (calls w).
Definition set_anims (v : gmap nat anim.t) (w : t) : t :=
  mk (host w) (drawn w) (document w) (timers w) (raf w) (bursts w) v (hook w) (calls w).
Definition set_hook (v : hook.t) (w : t) : t :=
  mk (host w) (drawn w) (document w) (timers w) (raf w) (bursts w) (anims w) v (calls w).
Definition set_calls (v : list nat) (w : t) : t :=
  mk (host w) (drawn w) (document w) (timers w) (raf w) (bursts w) (anims w) (hook w) v.
End world.

(** ** Host primitives *)

(** [Math.random()]: the next value of the host's sequence. *)
Definition Math_random (w : world.t) : Q * world.t :=
  (host.random (world.host w) (world.drawn w),
   world.set_drawn (S (world.drawn w)) w).

(** [document.createElement('div')] *)
Definition createElement (w : world.t) : nat * world.t :=
  let d := world.document w in
  let e := document.next d in
  (e, world.set_document
        (document.mk (S e) (document.body d)
           (<[e := node.mk style.empty []]> (document.nodes d))) w).

(** An assignment to a property of [e.style]. *)
Definition setStyle (e : nat) (f : style.t -> style.t) (w : world.t) : world.t :=
  let d := world.document w in
  world.set_document
    (document.mk (document.next d) (document.body d)
       (alter (fun n => node.mk (f (node.style n)) (node.childNodes n)) e
          (document.nodes d))) w.

(** [parent.appendChild(fragment)]: the children of the fragment, in order. *)
Definition appendChildren (parent : nat) (kids : list nat) (w : world.t) : world.t :=
  let d := world.document w in
  world.set_document
    (document.mk (document.next d) (document.body d)
       (alter (fun n => node.mk (node.style n) (node.childNodes n ++ kids)) parent
          (document.nodes d))) w.

(** [document.body.appendChild(e)], [document.body.contains(e)] for an
    element that is only ever put directly under the body, and
    [document.body.removeChild(e)]. *)
Definition body_appendChild (e : nat) (w : world.t) : world.t :=
  let d := world.document w in
  world.set_document
    (document.mk (document.next d) (document.body d ++ [e]) (document.nodes d)) w.

Definition body_contains (e : nat) (w : world.t) : bool :=
  bool_decide (e ∈ document.body (world.document w)).

Definition body_removeChild (e : nat) (w : world.t) : world.t :=
  let d := world.document w in
  world.set_document
    (document.mk (document.next d)
       (filter (fun k => k ≠ e) (document.body d)) (document.nodes d)) w.

(** [setTimeout(cb, delay)] and [clearTimeout(id)] *)
Definition setTimeout (cb : TimerCallback) (delay : Q) (w : world.t)
    : positive * world.t :=
  let t := world.timers w in
  let id := timers.next t in
  (id, world.set_timers
         (timers.mk (Pos.succ id)
            (<[id := (host.now (world.host w) + delay, cb)]> (timers.pending t))) w).

Definition clearTimeout (id : positive) (w : world.t) : world.t :=
  let t := world.timers w in
  world.set_timers (timers.mk (timers.next t) (delete id (timers.pending t))) w.

(** [requestAnimationFrame(update)] for the [update] of [particle], and
    [cancelAnimationFrame(id)] *)
Definition requestAnimationFrame (particle : nat) (w : world.t)
    : positive * world.t :=
  let r := world.raf w in
  let id := raf.next r in
  (id, world.set_raf (raf.mk (Pos.succ id) (<[id := particle]> (raf.pending r))) w).

Definition cancelAnimationFrame (id : positive) (w : world.t) : world.t :=
  let r := world.raf w in
  world.set_raf (raf.mk (raf.next r) (delete id (raf.pending r))) w.

(** A write to a field of the burst [this]. *)
Definition with_burst (this : nat) (f : burst.t -> burst.t) (w : world.t) : world.t :=
  world.set_bursts (alter f this (world.bursts w)) w.

(** A call of a completion callback. The caller's functions are opaque:
    the call is recorded, and they are taken not to call back into the
    burst. *)
Definition invoke (cb : Callback) (w : world.t) : world.t :=
  match cb with
  | CbNoop => w
  | CbUser tag => world.set_calls (world.calls w ++ [tag]) w
  | CbGateOnStop =>
      world.set_hook
        (hook.set_isActive false
           (hook.set_activeInstancesRef None (world.hook w))) w
  end.

(** ** [class ConfettiBurst] *)

(** [new ConfettiBurst(options)]: the reference to the new object. *)
Definition newConfettiBurst (options : option opts.t) (w : world.t)
    : nat * world.t :=
  (length (world.bursts w),
   world.set_bursts
     (world.bursts w ++ [burst.mk ∅ None (mkConfig options) None []]) w).

Definition createContainer (this : nat) (w : world.t) : world.t :=
  let '(container, w) := createElement w in
  let w := with_burst this (burst.set_container (Some container)) w in
  let w := setStyle container (style.set_cssText CssContainer) w in
  body_appendChild container w.

Definition getRandomColor (w : world.t) : (Q * Q) * world.t :=
  let '(r1, w) := Math_random w in
  let '(r2, w) := Math_random w in
  ((r1 * 360, 0.7 + r2 * 0.3), w).

Definition shapes : list string :=
  [ "0%"; "50%"; "50% 50% 0% 0%"; "0% 0% 50% 50%";
    "30% 70% 70% 30% / 30% 30% 70% 70%";
    "20% 80% 60% 40% / 50% 60% 40% 50%";
    "40% 60% 60% 40% / 40% 60% 60% 40%";
    "60% 40% 40% 60% / 60% 40% 40% 60%";
    "70% 30% 30% 70% / 70% 70% 30% 30%";
    "50% 20% 50% 20% / 20% 50% 20% 50%";
    "80% 20% 80% 20% / 20% 80% 20% 80%";
    "25% 75% 75% 25% / 75% 25% 25% 75%" ]%string.

Definition getRandomShape (w : world.t) : option string * world.t :=
  let '(r, w) := Math_random w in
  (shapes !! Math_floor (r * inject_Z (Z.of_nat (length shapes))), w).

Definition createParticle (c : cfg.t) (w : world.t) : nat * world.t :=
  let size := cfg.size c in
  let '(particle, w) := createElement w in
  let '(r, w) := Math_random w in
  let width := (r - 0.25) * size * 2 in
  let '(r, w) := Math_random w in
  let height := (r - 0.25) * size * 2 in
  let '((hue, alpha), w) := getRandomColor w in
  let '(shape, w) := getRandomShape w in
  (particle,
   setStyle particle (style.set_cssText (CssParticle width height hue alpha shape)) w).

Definition animateParticle (this : nat) (c : cfg.t) (particle : nat)
    (startX startY angle : Q) (w : world.t) : world.t :=
  let '(r, w) := Math_random w in
  let velocity := cfg.startVelocity c * (0.8 + r * 0.4) in
  let angleRad := (angle * host.PI (world.host w)) / 180 in
  let horizontalVelocity := host.sin (world.host w) angleRad * velocity * 0.5 in
  let initialVerticalVelocity := - Math_abs velocity in
  let '(r, w) := Math_random w in
  let rotationSpeed := (r - 0.5) * velocity in
  let '(r, w) := Math_random w in
  let wind := (r - 0.5) * 0.1 in
  let startTime := host.now (world.host w) in
  let endTime := startTime + cfg.duration c in
  let closure :=
    {| anim.owner := this; anim.duration := cfg.duration c;
       anim.bounceCount := cfg.bounceCount c;
       anim.rotationSpeed := rotationSpeed; anim.wind := wind;
       anim.endTime := endTime; anim.rotation := 0;
       anim.x := startX; anim.y := startY;
       anim.vy := initialVerticalVelocity; anim.vx := horizontalVelocity;
       anim.bounces := 0; anim.isSettling := false |} in
  let w := world.set_anims (<[particle := closure]> (world.anims w)) w in
  let '(frameId, w) := requestAnimationFrame particle w in
  with_burst this (burst.set_animationIds (insert particle frameId)) w.

(** One turn of the loop of [createParticles]: its body. *)
Definition createParticlesTurn (this : nat) (c : cfg.t)
    (centerX startY : Q) (fragment : list nat) (w : world.t)
    : list nat * world.t :=
  let '(particle, w) := createParticle c w in
  let '(r, w) := Math_random w in
  let angle := (r - 0.5) * cfg.spread c in
  let '(r, w) := Math_random w in
  let spreadOffset := (r - 0.5) * (host.innerWidth (world.host w) * 0.3) in
  let startX := centerX + spreadOffset in
  let w := setStyle particle (style.set_left startX) w in
  let w := setStyle particle (style.set_top startY) w in
  let fragment := fragment ++ [particle] in
  let w := with_burst this (burst.set_particles (fun l => l ++ [particle])) w in
  let w := animateParticle this c particle startX startY angle w in
  (fragment, w).

(** The [for (let i = 1; i < particleCount; i++)] of [createParticles];
    [fuel] bounds the number of turns. *)
Fixpoint createParticlesLoop (fuel : nat) (this : nat) (c : cfg.t)
    (centerX startY : Q) (i : Q) (fragment : list nat) (w : world.t)
    : list nat * world.t :=
  match fuel with
  | O => (fragment, w)
  | S fuel' =>
      if Qltb i (cfg.particleCount c) then
        let '(fragment, w) := createParticlesTurn this c centerX startY fragment w in
        createParticlesLoop fuel' this c centerX startY (i + 1) fragment w
      else (fragment, w)
  end.

(** Turns that always suffice: the loop leaves once [i >= particleCount]. *)
Definition loopFuel (c : cfg.t) : nat := Z.to_nat (Qceiling (cfg.particleCount c)).

Definition createParticles (this : nat) (w : world.t) : world.t :=
  match world.bursts w !! this with
  | None => w
  | Some b =>
      match burst.container b with
      | None => w
      | Some container =>
          let c := burst.config b in
          let '(centerX, w) :=
            if cfg.randomizeStart c then
              let '(r, w) := Math_random w in
              (r * host.innerWidth (world.host w), w)
            else (host.innerWidth (world.host w) / 2, w) in
          let startY := host.innerHeight (world.host w) + cfg.spread c in
          let '(fragment, w) :=
            createParticlesLoop (loopFuel c) this c centerX startY 1 [] w in
          appendChildren container fragment w
      end
  end.

Definition scheduleCleanup (this : nat) (w : world.t) : world.t :=
  match world.bursts w !! this with
  | None => w
  | Some b =>
      let w :=
        match burst.cleanupTimeoutId b with
        | Some id =>
            with_burst this (burst.set_cleanupTimeoutId None) (clearTimeout id w)
        | None => w
        end in
      let '(id, w) := setTimeout (CleanupCb this) (cfg.duration (burst.config b)) w in
      with_burst this (burst.set_cleanupTimeoutId (Some id)) w
  end.

(** [this.animationIds.forEach((id) => cancelAnimationFrame(id))] *)
Definition cancelAll (ids : gmap nat positive) (w : world.t) : world.t :=
  map_fold (fun _ id w => cancelAnimationFrame id w) w ids.

(** [cleanup] up to, and without, the call of [onStop]: the burst [b]
    read at [this] releases its timer, container, particles and frames. *)
Definition teardown (this : nat) (b : burst.t) (w : world.t) : world.t :=
  let w :=
    match burst.cleanupTimeoutId b with
    | Some id =>
        with_burst this (burst.set_cleanupTimeoutId None) (clearTimeout id w)
    | None => w
    end in
  let w :=
    match burst.container b with
    | Some container =>
        if body_contains container w then body_removeChild container w else w
    | None => w
    end in
  let w := with_burst this (burst.set_container None) w in
  let w := with_burst this (burst.set_particles (fun _ => [])) w in
  let w := cancelAll (burst.animationIds b) w in
  with_burst this (burst.set_animationIds (fun _ => ∅)) w.

Definition cleanup (this : nat) (w : world.t) : world.t :=
  match world.bursts w !! this with
  | None => w
  | Some b => invoke (cfg.onStop (burst.config b)) (teardown this b w)
  end.

Definition fire (this : nat) (w : world.t) : world.t :=
  scheduleCleanup this (createParticles this (createContainer this w)).

Definition stop (this : nat) (w : world.t) : world.t := cleanup this w.

(** [applyFadeOut]: the opacity it returns, and the world in which the
    style of the particle has been written, if it has. *)
Definition applyFadeOut (particle : nat) (timeLeft duration : Q) (w : world.t)
    : Q * world.t :=
  let progress := fadeProgress timeLeft duration in
  if Qltb (double 0.7) progress then
    let opacity := fadeValue progress in
    (opacity, setStyle particle (style.set_opacity opacity) w)
  else (1, w).

(** The arrow [update] of [animateParticle], for the closure of [particle]. *)
Definition update (particle : nat) (w : world.t) : world.t :=
  match world.anims w !! particle with
  | None => w
  | Some a =>
      let now := host.now (world.host w) in
      let timeLeft := anim.endTime a - now in
      if Qleb timeLeft 0 then
        with_burst (anim.owner a) (burst.set_animationIds (delete particle)) w
      else
        let a := advance (host.innerWidth (world.host w))
                   (host.innerHeight (world.host w)) a in
        let w := world.set_anims (<[particle := a]> (world.anims w)) w in
        let w := setStyle particle (style.set_left (anim.x a)) w in
        let w := setStyle particle (style.set_top (anim.y a)) w in
        let w := setStyle particle (style.set_transform (anim.rotation a)) w in
        let '(_, w) := applyFadeOut particle timeLeft (anim.duration a) w in
        let '(frameId, w) := requestAnimationFrame particle w in
        with_burst (anim.owner a) (burst.set_animationIds (insert particle frameId)) w
  end.

(** ** [useConfetti] *)

Definition stopConfetti (w : world.t) : world.t :=
  match hook.activeInstancesRef (world.hook w) with
  | None => w
  | Some this => stop this w
  end.

(** [{ ...options, duration, onStop, particleCount, size, spread,
    startVelocity }] *)
Definition baseOptions (options : option opts.t) (s : scaling.t) : opts.t :=
  let o := override opts.empty options in
  {| opts.bounceCount := opts.bounceCount o;
     opts.duration := Some (scaling.duration s);
     opts.particleCount := Some (scaling.particleCount s);
     opts.randomizeStart := opts.randomizeStart o;
     opts.size := Some (scaling.size s);
     opts.spread := Some (scaling.spread s);
     opts.startVelocity := Some (scaling.startVelocity s);
     opts.onStop := Some CbGateOnStop |}.

(** "Stop any existing confetti before starting a new one" *)
Definition stopExisting (w : world.t) : world.t :=
  match hook.activeInstancesRef (world.hook w) with
  | Some this =>
      let w := stop this w in
      world.set_hook (hook.set_activeInstancesRef None (world.hook w)) w
  | None => w
  end.

(** The arrow that [fireConfetti] hands to [setTimeout]. *)
Definition debounced (options : option opts.t) (w : world.t) : world.t :=
  let w := stopExisting w in
  let w := world.set_hook (hook.set_isActive true (world.hook w)) w in
  let s := updateScalingFactors options (host.innerWidth (world.host w))
             (host.innerHeight (world.host w)) in
  let '(this, w) := newConfettiBurst (Some (baseOptions options s)) w in
  let w := world.set_hook (hook.set_activeInstancesRef (Some this) (world.hook w)) w in
  fire this w.

Definition fireConfetti (options : option opts.t) (w : world.t) : world.t :=
  let w :=
    match hook.debounceTimerRef (world.hook w) with
    | Some id => clearTimeout id w
    | None => w
    end in
  let '(id, w) := setTimeout (DebounceCb options) 200 w in
  world.set_hook (hook.set_debounceTimerRef (Some id) (world.hook w)) w.

(** ** The event loop

    What the environment can do to a world: call the two functions of the
    hook, run a timeout that is due, run a requested frame, or let the
    host change (time passes, the viewport is resized). *)

Definition runCallback (cb : TimerCallback) (w : world.t) : world.t :=
  match cb with
  | CleanupCb this => cleanup this w
  | DebounceCb options => debounced options w
  end.

Definition runTimeout (id : positive) (w : world.t) : world.t :=
  match timers.pending (world.timers w) !! id with
  | Some (due, cb) =>
      if Qleb due (host.now (world.host w)) then
        runCallback cb (clearTimeout id w)
      else w
  | None => w
  end.

Definition runFrame (id : positive) (w : world.t) : world.t :=
  match raf.pending (world.raf w) !! id with
  | Some particle => update particle (cancelAnimationFrame id w)
  | None => w
  end.

(** The clock of the host never goes back. *)
Definition hostMoves (h : host.t) (w : world.t) : world.t :=
  if Qleb (host.now (world.host w)) (host.now h) then world.set_host h w else w.

Inductive Event : Type :=
| EvFireConfetti (options : option opts.t)
| EvStopConfetti
| EvTimeout (id : positive)
| EvFrame (id : positive)
| EvHost (h : host.t).

Definition exec (e : Event) (w : world.t) : world.t :=
  match e with
  | EvFireConfetti options => fireConfetti options w
  | EvStopConfetti => stopConfetti w
  | EvTimeout id => runTimeout id w
  | EvFrame id => runFrame id w
  | EvHost h => hostMoves h w
  end.

Definition run (events : list Event) (w : world.t) : world.t :=
  foldl (fun w e => exec e w) w events.

(** A world in which nothing has happened yet. *)
Definition initialWorld (h : host.t) : world.t :=
  {| world.host := h; world.drawn := 0%nat;
     world.document := document.mk 0 [] ∅;
     world.timers := timers.mk 1 ∅;
     world.raf := raf.mk 1 ∅;
     world.bursts := [];
     world.anims := ∅;
     world.hook := hook.mk None None false;
     world.calls := [] |}.

(** An options object whose only key is [size]. *)
Definition onlySize (v : Q) : opts.t :=
  opts.mk None None None None (Some v) None None None.

(** The closure of a particle launched at [(600, 870)] with velocity 25,
    straight up, for a burst whose [bounceCount] is [bc]. *)
Definition launched (bc : Q) : anim.t :=
  {| anim.owner := 0%nat; anim.duration := 2000; anim.bounceCount := bc;
     anim.rotationSpeed := 0; anim.wind := 0; anim.endTime := 2000;
     anim.rotation := 0; anim.x := 600; anim.y := 870;
     anim.vy := - (25); anim.vx := 0; anim.bounces := 0;
     anim.isSettling := false |}.

(** A closure about to cross the left edge. *)
Definition atLeftEdge : anim.t :=
  {| anim.owner := 0%nat; anim.duration := 2000; anim.bounceCount := 2;
     anim.rotationSpeed := 0; anim.wind := 0; anim.endTime := 2000;
     anim.rotation := 0; anim.x := 1; anim.y := 400;
     anim.vy := 0; anim.vx := - (5); anim.bounces := 0;
     anim.isSettling := false |}.

(** ** What the statements below speak about *)

(** The fields of a burst that creating and animating particles never
    write. *)
Definition burstCore (b : burst.t) : option positive * cfg.t * option nat :=
  (burst.cleanupTimeoutId b, burst.config b, burst.container b).

(** The part of a world that creating and animating particles never
    write: host, timeouts, hook, log of calls, children of the body, and
    the core of every burst. *)
Module view.
Record t : Type := mk {
  host : host.t;
  timers : timers.t;
  hook : hook.t;
  calls : list nat;
  body : list nat;
  cores : list (option positive * cfg.t * option nat);
}.
End view.

Definition kept (w : world.t) : view.t :=
  {| view.host := world.host w; view.timers := world.timers w;
     view.hook := world.hook w; view.calls := world.calls w;
     view.body := document.body (world.document w);
     view.cores := burstCore <$> world.bursts w |}.

(** An options object whose only key is [particleCount]. *)
Definition onlyParticleCount (v : Q) : opts.t :=
  opts.mk None None (Some v) None None None None None.

(** A host at time [t], on the baseline viewport, whose [Math.random()]
    is always one half; [Math.sin] is only ever asked for [sin 0]. *)
Definition steadyHost (t : Q) : host.t :=
  {| host.now := t; host.innerWidth := 1200; host.innerHeight := 800;
     host.random := fun _ => 0.5; host.sin := fun _ => 0;
     host.PI := 3.141592653589793 |}.

(** Three particles asked for, and a callback of the caller. *)
Definition taggedOptions : opts.t :=
  opts.mk None None (Some 3) None None None None (Some (CbUser 7)).

(** ** The discipline of timeouts

    What every reachable world satisfies, on the timeouts [t], the
    [debounceTimerRef] of the hook and the [cleanupTimeoutId] of every
    burst: a pending debounce timeout is the one the ref names; the ref
    and the bursts only name ids already handed out; and no burst names a
    debounce timeout. *)
Record WellTimed (t : timers.t) (ref : option positive)
    (ids : list (option positive)) : Prop := {
  wt_debounce : forall id due o,
    timers.pending t !! id = Some (due, DebounceCb o) -> ref = Some id;
  wt_ref : forall id, ref = Some id -> (id < timers.next t)%positive;
  wt_burst : forall j id,
    ids !! j = Some (Some id) ->
    (id < timers.next t)%positive
    /\ forall due o, timers.pending t !! id <> Some (due, DebounceCb o);
}.

Definition wellTimed (w : world.t) : Prop :=
  WellTimed (world.timers w) (hook.debounceTimerRef (world.hook w))
    (burst.cleanupTimeoutId <$> world.bursts w).

(** The call that decides the pending debounce: the time and the options
    of the last [fireConfetti] of a run of events, the clock being [now]
    at its start and [last] the call before it. *)
Fixpoint lastCall (events : list Event) (now : Q) (last : Q * option opts.t)
    : Q * option opts.t :=
  match events with
  | [] => last
  | EvFireConfetti options :: rest => lastCall rest now (now, options)
  | EvHost h :: rest =>
      lastCall rest (if Qleb now (host.now h) then host.now h else now) last
  | _ :: rest => lastCall rest now last
  end.

(** The events at which the host moves. *)
Definition hostsOf (events : list Event) : list host.t :=
  omap (fun e => match e with EvHost h => Some h | _ => None end) events.

(** The debounce of the hook is armed: the ref names a pending timeout
    that will run the arrow of [fireConfetti] for [options] at [due]. *)
Definition armed (w : world.t) (id : positive) (due : Q)
    (options : option opts.t) : Prop :=
  hook.debounceTimerRef (world.hook w) = Some id
  /\ timers.pending (world.timers w) !! id = Some (due, DebounceCb options).

(** The configuration of the burst that the hook builds for [options] on
    the viewport of [h]. *)
Definition gateConfig (options : option opts.t) (h : host.t) : cfg.t :=
  mkConfig
    (Some (baseOptions options
             (updateScalingFactors options (host.innerWidth h) (host.innerHeight h)))).

(** A burst of one particle (two asked for) that is allowed no bounce. *)
Definition noBounceOptions : opts.t :=
  opts.mk (Some 0) None (Some 2) None None None None None.

(** For [k = 1 .. n]: 16 ms pass, then the frame requested [k]-th runs. *)
Definition everyFrame (n : nat) : list Event :=
  flat_map
    (fun k => [EvHost (steadyHost (16 * inject_Z (Z.of_nat k)));
               EvFrame (Pos.of_nat k)])
    (seq 1 n).

(** The closure [before] a frame is Settling at [bounceCount = 0] with no
    bounce counted, above the top edge and moving up; [after] the frame
    it sits on the top edge moving down, one bounce counted. *)
Definition settledThenBounced (before after : option anim.t) : bool :=
  match before, after with
  | Some a, Some b =>
      Qeq_bool (anim.bounceCount a) 0 && anim.isSettling a
      && Qeq_bool (anim.bounces a) 0
      && Qltb 0 (anim.y a) && Qltb (anim.vy a) 0
      && anim.isSettling b && Qeq_bool (anim.bounces b) 1
      && Qeq_bool (anim.y b) 0 && Qltb 0 (anim.vy b)
      && Qltb (anim.bounceCount b) (anim.bounces b)
  | _, _ => false
  end.

(** ** Further notions

    The bounce counter is an integer [n] that is at most [z], or it is
    [z + 1] and the closure is settled and not moving up. *)
Definition countedWithin (z : Z) (a : anim.t) : Prop :=
  exists n : Z,
    anim.bounces a == inject_Z n
    /\ ((n <= z)%Z
        \/ (n = z + 1)%Z /\ anim.isSettling a = true /\ 0 <= anim.vy a).

(** The bookkeeping of the hook, on the timeouts, the hook, the log of
    calls, the children of the body and the cores of the bursts: no
    function of a caller has been called; every burst carries the hook's
    own [onStop]; [isActive] tells whether a burst is referenced; the
    burst referenced holds the one container under the body; without a
    reference nothing is under the body; only the referenced burst holds
    a container; and a pending teardown timeout is the one the
    referenced burst recorded. *)
Record Gated (t : timers.t) (hk : hook.t) (calls body : list nat)
    (cores : list (option positive * cfg.t * option nat)) : Prop := {
  g_calls : calls = [];
  g_onStop : forall j core,
    cores !! j = Some core -> cfg.onStop core.1.2 = CbGateOnStop;
  g_active :
    hook.isActive hk
    = match hook.activeInstancesRef hk with Some _ => true | None => false end;
  g_ref : forall this,
    hook.activeInstancesRef hk = Some this ->
    exists tid c container,
      cores !! this = Some (tid, c, Some container) /\ body = [container];
  g_idle : hook.activeInstancesRef hk = None -> body = [];
  g_container : forall j core,
    cores !! j = Some core -> core.2 <> None ->
    hook.activeInstancesRef hk = Some j;
  g_timer : forall id due j,
    timers.pending t !! id = Some (due, CleanupCb j) ->
    hook.activeInstancesRef hk = Some j
    /\ exists c container, cores !! j = Some (Some id, c, container);
}.

Definition gated (w : world.t) : Prop :=
  Gated (view.timers (kept w)) (view.hook (kept w)) (view.calls (kept w))
    (view.body (kept w)) (view.cores (kept w)).

(** A call with three particles asked for, its debounce elapsed, and the
    clock brought to the end of the burst's duration. *)
Definition oneBurstElapsed : list Event :=
  [ EvFireConfetti (Some (onlyParticleCount 3)); EvHost (steadyHost 200);
    EvTimeout 1; EvHost (steadyHost 2200) ].

(** A burst running, and a second call 300 ms after the first. *)
Definition secondCallPending : list Event :=
  [ EvFireConfetti (Some (onlyParticleCount 3)); EvHost (steadyHost 200);
    EvTimeout 1; EvHost (steadyHost 300); EvFireConfetti None ].

(** The closure [a] as [animateParticle] leaves it, for a particle of
    the burst [this] configured by [c], launched on the host [h] from
    [(startX, startY)]: the vertical velocity and the wind each come
    from one draw of [Math.random()]. *)
Definition launchedAt (this : nat) (c : cfg.t) (h : host.t)
    (startX startY : Q) (a : anim.t) : Prop :=
  anim.owner a = this
  /\ anim.duration a = cfg.duration c
  /\ anim.bounceCount a = cfg.bounceCount c
  /\ anim.endTime a = host.now h + cfg.duration c
  /\ anim.rotation a = 0
  /\ anim.y a = startY
  /\ anim.vy a <= 0
  /\ anim.bounces a = 0
  /\ anim.isSettling a = false
  /\ anim.x a = startX
  /\ (exists n,
        anim.vy a
        = - Math_abs (cfg.startVelocity c * (0.8 + host.random h n * 0.4)))
  /\ (exists n, anim.wind a = (host.random h n - 0.5) * 0.1).

(** The same for a particle of the loop of [createParticles]: its
    [startX] is [centerX] plus an offset that comes from one draw. *)
Definition launchedNear (this : nat) (c : cfg.t) (h : host.t)
    (centerX startY : Q) (a : anim.t) : Prop :=
  exists n,
    launchedAt this c h
      (centerX + (host.random h n - 0.5) * (host.innerWidth h * 0.3)) startY a.

(** The particle [p] of the burst [b] has its driver: the frame id the
    burst records for it is pending, and will run the [update] of [p]. *)
Definition driven (w : world.t) (b : burst.t) (p : nat) : Prop :=
  exists id, burst.animationIds b !! p = Some id
             /\ raf.pending (world.raf w) !! id = Some p.


(** What a run of the loop of [createParticles] leaves: from the world
    [w], where the burst [this] was [b], to the world [w'], where it is
    [b'], with the new particles [news]. Whatever was there before is
    untouched, and each new particle is recorded, driven and launched. *)
Record built (this : nat) (c : cfg.t) (centerX startY : Q)
    (w : world.t) (b : burst.t) (news : list nat)
    (w' : world.t) (b' : burst.t) : Prop := mkBuilt {
  built_particles : burst.particles b' = burst.particles b ++ news;
  built_container : burst.container b' = burst.container b;
  built_host : world.host w' = world.host w;
  built_next :
    (document.next (world.document w) <= document.next (world.document w'))%nat;
  built_body :
    document.body (world.document w') = document.body (world.document w);
  built_raf_next : (raf.next (world.raf w) <= raf.next (world.raf w'))%positive;
  built_nodes : forall e, (e < document.next (world.document w))%nat ->
    document.nodes (world.document w') !! e
    = document.nodes (world.document w) !! e;
  built_anims : forall e, (e < document.next (world.document w))%nat ->
    world.anims w' !! e = world.anims w !! e;
  built_ids : forall e, (e < document.next (world.document w))%nat ->
    burst.animationIds b' !! e = burst.animationIds b !! e;
  built_pending : forall id, (id < raf.next (world.raf w))%positive ->
    raf.pending (world.raf w') !! id = raf.pending (world.raf w) !! id;
  built_only : forall p id, burst.animationIds b' !! p = Some id ->
    p ∈ news \/ burst.animationIds b !! p = Some id;
  built_fresh : Forall (fun p => (document.next (world.document w) <= p)%nat) news;
  built_nodup : NoDup news;
  built_each : Forall (fun p =>
    driven w' b' p
    /\ exists a, world.anims w' !! p = Some a
         /\ launchedNear this c (world.host w) centerX startY a) news
}.


(** The bookkeeping of frames, on the requests for frames, the next
    element of the document, the closures, the frame ids each burst
    records and the burst the hook references: every pending request is
    for a particle whose closure belongs to a burst that records this
    very id for it; and only the referenced burst records any id. *)
Record Framed (r : raf.t) (next : nat) (anims : gmap nat anim.t)
    (idss : list (gmap nat positive)) (ref : option nat) : Prop := mkFramed {
  f_owned : forall id p,
    raf.pending r !! id = Some p ->
    (id < raf.next r)%positive /\ (p < next)%nat
    /\ exists a m, anims !! p = Some a
         /\ idss !! anim.owner a = Some m /\ m !! p = Some id;
  f_quiet : forall j m, idss !! j = Some m -> m <> ∅ -> ref = Some j
}.

Definition framed (w : world.t) : Prop :=
  Framed (world.raf w) (document.next (world.document w)) (world.anims w)
    (burst.animationIds <$> world.bursts w)
    (hook.activeInstancesRef (world.hook w)).


(** [createConfettiBurst(options)]: the burst is fired and the reference
    to it is dropped. *)
Definition createConfettiBurst (options : option opts.t) (w : world.t) : world.t :=
  let '(confetti, w) := newConfettiBurst options w in
  fire confetti w.

(** The events in which nobody calls the hook and no timeout runs: a
    frame runs, or the host changes. *)
Definition passive (e : Event) : bool :=
  match e with
  | EvFrame _ | EvHost _ => true
  | _ => false
  end.

(** A frame of the first particle after 16 ms, and then the clock at the
    end of the default duration. *)
Definition oneFrameThenDue : list Event :=
  [ EvHost (steadyHost 16); EvFrame 1; EvHost (steadyHost 2000) ].

(** The burst [this] of [w] has been started with the configuration [c]
    at the time [now]: the hook references it and is active; it holds
    the one container under the body, whose children are its particles,
    [ceil(particleCount) - 1] of them, each with its frame requested; and
    its teardown timeout is pending, due [duration] later. *)
Definition started (w : world.t) (this : nat) (c : cfg.t) (now : Q) : Prop :=
  exists b container tid nd,
    world.bursts w !! this = Some b
    /\ burst.config b = c
    /\ hook.activeInstancesRef (world.hook w) = Some this
    /\ hook.isActive (world.hook w) = true
    /\ burst.container b = Some container
    /\ document.body (world.document w) = [container]
    /\ document.nodes (world.document w) !! container = Some nd
    /\ node.childNodes nd = burst.particles b
    /\ length (burst.particles b)
       = Z.to_nat (Qceiling (cfg.particleCount c) - 1)
    /\ (forall p, p ∈ burst.particles b -> driven w b p)
    /\ burst.cleanupTimeoutId b = Some tid
    /\ timers.pending (world.timers w) !! tid
       = Some (now + cfg.duration c, CleanupCb this).



(** * Properties *)

(** ** Comparisons *)

Lemma Qltb_lt (a b : Q) : Qltb a b = true <-> a < b.
Proof.
  unfold Qltb. rewrite Qlt_alt.
  destruct (a ?= b); split; congruence.
Qed.

Lemma Qltb_ge (a b : Q) : Qltb a b = false <-> b <= a.
Proof.
  rewrite <- not_true_iff_false, Qltb_lt. split.
  - apply Qnot_lt_le.
  - apply Qle_not_lt.
Qed.

Lemma Qleb_le (a b : Q) : Qleb a b = true <-> a <= b.
Proof. apply Qle_bool_iff. Qed.

Lemma Qleb_gt (a b : Q) : Qleb a b = false <-> b < a.
Proof.
  rewrite <- not_true_iff_false, Qleb_le. split.
  - apply Qnot_le_lt.
  - apply Qlt_not_le.
Qed.


(** ** Double precision *)

Lemma pow2_pos (e : Z) : 0 < pow2 e.
Proof. apply Qpower_0_lt. reflexivity. Qed.

Lemma pow2_add (a b : Z) : pow2 (a + b) == pow2 a * pow2 b.
Proof. apply Qpower_plus. discriminate. Qed.

Lemma pow2_le (a b : Z) : (a <= b)%Z -> pow2 a <= pow2 b.
Proof. intros H. apply Qpower_le_compat_l; [exact H | discriminate]. Qed.

Lemma pow2_lt_inv (a b : Z) : pow2 a < pow2 b -> (a < b)%Z.
Proof. intros H. eapply Qpower_lt_compat_l_inv; [exact H | reflexivity]. Qed.

Lemma pow2_nat (k : Z) : (0 <= k)%Z -> pow2 k == inject_Z (2 ^ k).
Proof. intros H. symmetry. apply (Zpower_Qpower 2 k H). Qed.

Lemma pow2_sub (a b : Z) : pow2 a / pow2 b == pow2 (a - b).
Proof.
  pose proof (pow2_pos b) as Hb.
  assert (E : pow2 a == pow2 (a - b) * pow2 b).
  { rewrite <- pow2_add. replace (a - b + b)%Z with a by lia. reflexivity. }
  rewrite E. field. lra.
Qed.

Lemma rne_floor (q : Q) : (Qfloor q <= rne q <= Qfloor q + 1)%Z.
Proof.
  unfold rne. destruct (_ ?= _); [destruct (Z.even _)| |]; lia.
Qed.

Lemma rne_mono (a b : Q) : a <= b -> (rne a <= rne b)%Z.
Proof.
  intros H. pose proof (Qfloor_resp_le _ _ H) as Hf.
  destruct (Z.eq_dec (Qfloor a) (Qfloor b)) as [E|N].
  - unfold rne. rewrite E.
    destruct (Qcompare_spec (a - inject_Z (Qfloor b)) (1 # 2)) as [Ha|Ha|Ha];
      destruct (Qcompare_spec (b - inject_Z (Qfloor b)) (1 # 2)) as [Hb|Hb|Hb];
      try destruct (Z.even (Qfloor b)); try lia; exfalso; lra.
  - pose proof (rne_floor a). pose proof (rne_floor b). lia.
Qed.

Lemma rne_proper (a b : Q) : a == b -> rne a = rne b.
Proof.
  intros H. apply Z.le_antisymm; apply rne_mono; rewrite H; apply Qle_refl.
Qed.

Lemma rne_Z (z : Z) : rne (inject_Z z) = z.
Proof.
  unfold rne. rewrite Qfloor_Z.
  destruct (Qcompare_spec (inject_Z z - inject_Z z) (1 # 2)) as [H|H|H];
    [exfalso; lra | reflexivity | exfalso; lra].
Qed.

Lemma round_at_mono (c : Z) (a b : Q) : a <= b -> round_at c a <= round_at c b.
Proof.
  intros H. unfold round_at. pose proof (pow2_pos c) as Hc.
  apply Qmult_le_r; [exact Hc|]. rewrite <- Zle_Qle. apply rne_mono.
  unfold Qdiv. apply Qmult_le_r; [apply Qinv_lt_0_compat, Hc | exact H].
Qed.

(** A multiple of [2^c] is a multiple of every finer [2^c']. *)
Lemma round_at_grid (c' c : Z) (m : Z) :
  (c' <= c)%Z -> round_at c' (inject_Z m * pow2 c) == inject_Z m * pow2 c.
Proof.
  intros H. unfold round_at. pose proof (pow2_pos c') as Hc.
  assert (E : inject_Z m * pow2 c / pow2 c' == inject_Z (m * 2 ^ (c - c'))).
  { rewrite inject_Z_mult, <- pow2_nat by lia. rewrite <- pow2_sub.
    field. lra. }
  rewrite (rne_proper _ _ E), rne_Z, inject_Z_mult, <- pow2_nat by lia.
  rewrite <- pow2_sub. field. lra.
Qed.

Lemma round_at_pow (c k : Z) : (c <= k)%Z -> round_at c (pow2 k) == pow2 k.
Proof.
  intros H. pose proof (round_at_grid c k 1 H) as E.
  assert (E1 : inject_Z 1 * pow2 k == pow2 k) by ring.
  unfold round_at in *. rewrite <- E1 at 2. rewrite <- E.
  rewrite (rne_proper (pow2 k / pow2 c) (inject_Z 1 * pow2 k / pow2 c)).
  - reflexivity.
  - rewrite E1. reflexivity.
Qed.

Lemma round_at_le_pow (c k : Z) (x : Q) :
  (c <= k)%Z -> x <= pow2 k -> round_at c x <= pow2 k.
Proof.
  intros H Hx. rewrite <- (round_at_pow c k H). apply round_at_mono, Hx.
Qed.

Lemma round_at_ge_pow (c k : Z) (x : Q) :
  (c <= k)%Z -> pow2 k <= x -> pow2 k <= round_at c x.
Proof.
  intros H Hx. rewrite <- (round_at_pow c k H). apply round_at_mono, Hx.
Qed.

Lemma round_at_0 (c : Z) : round_at c 0 == 0.
Proof.
  pose proof (round_at_grid c c 0 (Z.le_refl c)) as E.
  unfold round_at in *.
  rewrite (rne_proper (0 / pow2 c) (inject_Z 0 * pow2 c / pow2 c)).
  - rewrite E. ring.
  - pose proof (pow2_pos c). field. lra.
Qed.

Lemma round_at_nonneg (c : Z) (x : Q) : 0 <= x -> 0 <= round_at c x.
Proof.
  intros H. rewrite <- (round_at_0 c). apply round_at_mono, H.
Qed.

Lemma round_at_proper (c : Z) (a b : Q) : a == b -> round_at c a == round_at c b.
Proof.
  intros H. unfold round_at.
  rewrite (rne_proper (a / pow2 c) (b / pow2 c)); [reflexivity|].
  rewrite H. reflexivity.
Qed.

(** [ilog2] is the binary logarithm, rounded down. *)
Lemma ilog2_spec (q : Q) :
  0 < q -> pow2 (ilog2 q) <= q /\ q < pow2 (ilog2 q + 1).
Proof.
  intros Hq. destruct q as [n d].
  assert (Hn : (0 < n)%Z).
  { unfold Qlt in Hq. cbn in Hq. lia. }
  destruct (Z.log2_spec n Hn) as [Hn1 Hn2].
  destruct (Z.log2_spec (Zpos d) (Pos2Z.is_pos d)) as [Hd1 Hd2].
  pose proof (Z.log2_nonneg n) as Ha. pose proof (Z.log2_nonneg (Zpos d)) as Hb.
  set (a := Z.log2 n) in *. set (b := Z.log2 (Zpos d)) in *.
  assert (Hqd : n # d == inject_Z n / inject_Z (Zpos d)) by apply Qmake_Qdiv.
  assert (HD : 0 < inject_Z (Zpos d)) by (rewrite <- (Zlt_Qlt 0); lia).
  assert (Hn1' : pow2 a <= inject_Z n) by (rewrite pow2_nat, <- Zle_Qle; lia).
  assert (Hn2' : inject_Z n < pow2 (a + 1)) by (rewrite pow2_nat, <- Zlt_Qlt; lia).
  assert (Hd1' : pow2 b <= inject_Z (Zpos d)) by (rewrite pow2_nat, <- Zle_Qle; lia).
  assert (Hd2' : inject_Z (Zpos d) < pow2 (b + 1))
    by (rewrite pow2_nat, <- Zlt_Qlt; lia).
  pose proof (pow2_pos b) as Pb. pose proof (pow2_pos (a - b - 1)) as Pl.
  pose proof (pow2_pos (a - b + 1)) as Pu.
  assert (Hlow : pow2 (a - b - 1) < n # d).
  { rewrite Hqd. apply Qlt_shift_div_l; [exact HD|].
    eapply Qlt_le_trans; [|exact Hn1'].
    replace a with ((a - b - 1) + (b + 1))%Z at 2 by lia. rewrite pow2_add.
    apply Qmult_lt_l; assumption. }
  assert (Hupp : n # d < pow2 (a - b + 1)).
  { rewrite Hqd. apply Qlt_shift_div_r; [exact HD|].
    eapply Qlt_le_trans; [exact Hn2'|].
    replace (a + 1)%Z with ((a - b + 1) + b)%Z by lia. rewrite pow2_add.
    apply Qmult_le_l; assumption. }
  unfold ilog2. cbn [Qnum Qden]. fold a b.
  destruct (Qle_bool (pow2 (a - b)) (n # d)) eqn:E.
  - apply Qle_bool_iff in E. split; assumption.
  - assert (E' : n # d < pow2 (a - b)).
    { apply Qnot_le_lt. intros H. apply Qle_bool_iff in H. congruence. }
    replace (a - b - 1 + 1)%Z with (a - b)%Z by lia.
    split; [apply Qlt_le_weak, Hlow | exact E'].
Qed.

Lemma ilog2_unique (e : Z) (q : Q) :
  pow2 e <= q -> q < pow2 (e + 1) -> ilog2 q = e.
Proof.
  intros H1 H2.
  assert (Hq : 0 < q) by (eapply Qlt_le_trans; [apply pow2_pos | exact H1]).
  destruct (ilog2_spec q Hq) as [S1 S2].
  assert (ilog2 q < e + 1)%Z
    by (apply pow2_lt_inv; eapply Qle_lt_trans; eassumption).
  assert (e < ilog2 q + 1)%Z
    by (apply pow2_lt_inv; eapply Qle_lt_trans; eassumption).
  lia.
Qed.

Lemma ilog2_mono (a b : Q) : 0 < a -> a <= b -> (ilog2 a <= ilog2 b)%Z.
Proof.
  intros Ha Hab. assert (Hb : 0 < b) by lra.
  destruct (ilog2_spec a Ha) as [A1 _]. destruct (ilog2_spec b Hb) as [_ B2].
  assert (ilog2 a < ilog2 b + 1)%Z by (apply pow2_lt_inv; lra).
  lia.
Qed.

Lemma ilog2_proper (a b : Q) : 0 < a -> a == b -> ilog2 a = ilog2 b.
Proof.
  intros Ha H. assert (Hb : 0 < b) by (rewrite <- H; exact Ha).
  apply Z.le_antisymm; apply ilog2_mono; try assumption; rewrite H; apply Qle_refl.
Qed.

Lemma double_pos_proper (a b : Q) : 0 < a -> a == b -> double_pos a == double_pos b.
Proof.
  intros Ha H. unfold double_pos, cexp. rewrite (ilog2_proper a b Ha H).
  apply round_at_proper, H.
Qed.

Lemma double_pos_nonneg (a : Q) : 0 <= a -> 0 <= double_pos a.
Proof. apply round_at_nonneg. Qed.

Lemma double_pos_mono (a b : Q) : 0 < a -> a <= b -> double_pos a <= double_pos b.
Proof.
  intros Ha Hab. assert (Hb : 0 < b) by lra.
  pose proof (ilog2_mono a b Ha Hab) as He.
  destruct (ilog2_spec a Ha) as [_ A2]. destruct (ilog2_spec b Hb) as [B1 _].
  unfold double_pos, cexp.
  destruct (Z.eq_dec (Z.max (ilog2 a - 52) (-1074)) (Z.max (ilog2 b - 52) (-1074)))
    as [E|N].
  - rewrite E. apply round_at_mono, Hab.
  - apply Qle_trans with (pow2 (ilog2 b)).
    + apply round_at_le_pow; [lia|].
      apply Qle_trans with (pow2 (ilog2 a + 1)); [lra|]. apply pow2_le. lia.
    + apply round_at_ge_pow; [lia | exact B1].
Qed.

(** A positive number stays within its binade: the significand has at
    most 53 bits, and [2^53] only at the next power of two. *)
Lemma double_pos_idem (a : Q) :
  0 < a -> 0 < double_pos a -> double_pos (double_pos a) == double_pos a.
Proof.
  intros Ha Hv. destruct (ilog2_spec a Ha) as [A1 A2].
  assert (Hdef : double_pos a
                 = inject_Z (rne (a / pow2 (cexp a))) * pow2 (cexp a))
    by reflexivity.
  assert (Hc : cexp a = Z.max (ilog2 a - 52) (-1074)) by reflexivity.
  set (e := ilog2 a) in *. set (c := cexp a) in *.
  set (m := rne (a / pow2 c)) in *.
  rewrite Hdef in Hv |- *. clear Hdef.
  unfold double_pos, cexp.
  pose proof (pow2_pos c) as Pc.
  assert (Hm : (m <= 2 ^ 53)%Z).
  { unfold m. rewrite <- (rne_Z (2 ^ 53)%Z). apply rne_mono.
    rewrite <- pow2_nat by lia. apply Qle_shift_div_r; [exact Pc|].
    rewrite <- pow2_add. apply Qle_trans with (pow2 (e + 1)); [lra|].
    apply pow2_le. lia. }
  assert (Hm0 : (0 < m)%Z).
  { rewrite Zlt_Qlt. apply (Qmult_lt_r _ _ (pow2 c) Pc).
    change (inject_Z 0) with 0. lra. }
  destruct (Z.eq_dec m (2 ^ 53)%Z) as [E|N].
  - assert (Ev : inject_Z m * pow2 c == pow2 (53 + c)).
    { rewrite E, <- (pow2_nat 53), <- pow2_add by lia. reflexivity. }
    assert (El : ilog2 (inject_Z m * pow2 c) = (53 + c)%Z).
    { apply ilog2_unique; rewrite Ev; [apply Qle_refl|].
      apply Qnot_le_lt. intros H. apply Qle_lteq in H as [H|H].
      - apply pow2_lt_inv in H. lia.
      - pose proof (pow2_le (53 + c) (53 + c + 1) ltac:(lia)) as H1.
        assert (H2 : pow2 (53 + c + 1) == pow2 (53 + c) * pow2 1)
          by apply pow2_add.
        pose proof (pow2_pos (53 + c)).
        change (pow2 1) with 2 in H2. lra. }
    rewrite El. replace (Z.max (53 + c - 52) (-1074)) with (c + 1)%Z by lia.
    rewrite (round_at_proper _ _ _ Ev), Ev. apply round_at_pow. lia.
  - apply round_at_grid.
    assert (ilog2 (inject_Z m * pow2 c) < 53 + c)%Z; [|lia].
    destruct (ilog2_spec _ Hv) as [V1 _]. apply pow2_lt_inv.
    eapply Qle_lt_trans; [exact V1|]. rewrite pow2_add, (pow2_nat 53) by lia.
    apply Qmult_lt_r; [exact Pc|]. rewrite <- Zlt_Qlt. lia.
Qed.

Lemma Qnum_sign (q : Q) :
  match Qnum q with
  | Z0 => q == 0
  | Zpos _ => 0 < q
  | Zneg _ => q < 0
  end.
Proof. destruct q as [[|p|p] d]; unfold Qeq, Qlt; cbn; lia. Qed.

(** [double] by the sign of its argument. *)
Lemma double_cases (q : Q) :
  (q == 0 /\ double q = 0)
  \/ (0 < q /\ double q == double_pos q)
  \/ (q < 0 /\ double q == - double_pos (- q)).
Proof.
  unfold double. pose proof (Qnum_sign (Qred q)) as H.
  pose proof (Qred_correct q) as E.
  destruct (Qnum (Qred q)).
  - left. split; [rewrite <- E; exact H | reflexivity].
  - right. left. rewrite E in H. split; [exact H|].
    rewrite Qred_correct. apply double_pos_proper; [rewrite E; exact H | exact E].
  - right. right. rewrite E in H. split; [exact H|].
    rewrite Qred_correct. apply Qopp_comp.
    apply double_pos_proper; rewrite E; [lra | reflexivity].
Qed.

Lemma double_proper (a b : Q) : a == b -> double a = double b.
Proof. intros H. unfold double. rewrite (Qred_complete a b H). reflexivity. Qed.

Lemma double_nonneg (a : Q) : 0 <= a -> 0 <= double a.
Proof.
  intros H. destruct (double_cases a) as [[_ ->]|[[Ha ->]|[Ha _]]].
  - apply Qle_refl.
  - apply double_pos_nonneg, H.
  - exfalso. lra.
Qed.

Lemma double_nonpos (a : Q) : a <= 0 -> double a <= 0.
Proof.
  intros H. destruct (double_cases a) as [[_ ->]|[[Ha _]|[Ha ->]]].
  - apply Qle_refl.
  - exfalso. lra.
  - pose proof (double_pos_nonneg (- a) ltac:(lra)). lra.
Qed.

(** Rounding keeps the order. *)
Lemma double_mono (a b : Q) : a <= b -> double a <= double b.
Proof.
  intros H.
  destruct (Qlt_le_dec 0 a) as [Ha|Ha].
  - destruct (double_cases a) as [[E _]|[[_ ->]|[Hn _]]]; try (exfalso; lra).
    destruct (double_cases b) as [[E _]|[[_ ->]|[Hn _]]]; try (exfalso; lra).
    apply double_pos_mono; assumption.
  - destruct (Qlt_le_dec b 0) as [Hb|Hb].
    + destruct (double_cases a) as [[E _]|[[Hp _]|[_ ->]]]; try (exfalso; lra).
      destruct (double_cases b) as [[E _]|[[Hp _]|[_ ->]]]; try (exfalso; lra).
      apply Qopp_le_compat. apply double_pos_mono; lra.
    + apply Qle_trans with 0; [apply double_nonpos, Ha | apply double_nonneg, Hb].
Qed.

(** A double is its own rounding. *)
Lemma double_idem (a : Q) : double (double a) == double a.
Proof.
  destruct (double_cases a) as [[_ E]|[[Ha E]|[Ha E]]].
  - rewrite E. reflexivity.
  - rewrite (double_proper _ _ E).
    destruct (double_cases (double_pos a)) as [[Z ->]|[[Hp ->]|[Hn _]]].
    + rewrite E, Z. reflexivity.
    + rewrite E. apply double_pos_idem; assumption.
    + exfalso. pose proof (double_pos_nonneg a ltac:(lra)). lra.
  - rewrite (double_proper _ _ E).
    assert (Hna : 0 < - a) by lra.
    destruct (double_cases (- double_pos (- a))) as [[Z ->]|[[Hp _]|[Hn ->]]].
    + rewrite E, Z. reflexivity.
    + exfalso. pose proof (double_pos_nonneg (- a) ltac:(lra)). lra.
    + rewrite E. apply Qopp_comp.
      rewrite (double_pos_proper (- - double_pos (- a)) (double_pos (- a)))
        by (try lra; ring).
      apply double_pos_idem; [exact Hna | lra].
Qed.

(** ** Rounding and the minimum *)

Lemma Math_min_le_r (a b : Q) : Math_min a b <= b.
Proof. apply Q.le_min_r. Qed.

Lemma Math_round_integer (z : Z) : Math_round (inject_Z z) = inject_Z z.
Proof.
  unfold Math_round. f_equal.
  assert (Hlo : (z <= Qfloor (inject_Z z + 0.5))%Z).
  { rewrite <- (Qfloor_Z z) at 1. apply Qfloor_resp_le.
    rewrite <- Qplus_0_r at 1. apply Qplus_le_r. discriminate. }
  assert (Hhi : (Qfloor (inject_Z z + 0.5) < z + 1)%Z).
  { rewrite Zlt_Qlt. eapply Qle_lt_trans; [apply Qfloor_le|].
    rewrite inject_Z_plus. apply Qplus_lt_r. reflexivity. }
  lia.
Qed.

Lemma Math_round_proper (a b : Q) : a == b -> Math_round a = Math_round b.
Proof.
  intros H. unfold Math_round. f_equal.
  apply Qfloor_comp. rewrite H. reflexivity.
Qed.

Lemma avgScale_baseline : avgScale 1200 800 == 1.
Proof. vm_compute. reflexivity. Qed.

Lemma scaled_integer_baseline (v : Q) (z : Z) :
  v == inject_Z z -> double v == v ->
  Math_min (Math_round (double (v * avgScale 1200 800))) v == v.
Proof.
  intros H Hd.
  assert (Ha : avgScale 1200 800 = 1) by (vm_compute; reflexivity).
  assert (Hr : Math_round (double (v * avgScale 1200 800)) = inject_Z z).
  { rewrite <- Math_round_integer. apply Math_round_proper.
    rewrite Ha, (double_proper (v * 1) v) by ring. rewrite Hd. exact H. }
  rewrite Hr. unfold Math_min. rewrite <- H. apply Q.min_id.
Qed.

(** ** Responsive scaling *)

(** C5, as the code has it. For every viewport and every options object,
    each of duration, particleCount, size, spread, startVelocity is
    replaced by [min(round(v * avgScale), v)], [v] being the value given
    or its default and [avgScale = (w/1200 + h/800)/2], every operation
    in double precision; so no field grows; on a 1200x800 viewport
    [avgScale] is 1 and a field whose value is an integer is unchanged.
    The rounding of the product counts: on a 400x400 viewport the
    default 150 particles become 62, where the exact product 62.5 would
    round to 63. *)
Theorem scaling_never_enlarges (options : option opts.t) (innerWidth innerHeight : Q) :
  let d := scalingDefaults options in
  let avg := avgScale innerWidth innerHeight in
  Forall2 (fun v r => r = Math_min (Math_round (double (v * avg))) v /\ r <= v)
    (scalingFields d)
    (scalingFields (updateScalingFactors options innerWidth innerHeight))
  /\ avg = double (double (double (innerWidth / 1200)
                           + double (innerHeight / 800)) / 2)
  /\ avgScale 1200 800 == 1
  /\ Forall2 (fun v r => (exists z : Z, v == inject_Z z) -> r == v)
       (scalingFields d)
       (scalingFields (updateScalingFactors options 1200 800))
  /\ scaling.particleCount (updateScalingFactors None 400 400) == 62
  /\ Math_round (150 * ((400 / 1200 + 400 / 800) / 2)) == 63.
Proof.
  intros d avg. split; [|split; [|split; [|split; [|split]]]].
  - unfold scalingFields, updateScalingFactors; cbn.
    repeat constructor; apply Math_min_le_r.
  - reflexivity.
  - apply avgScale_baseline.
  - unfold scalingFields, updateScalingFactors; cbn.
    repeat constructor; intros [z Hz];
      (eapply scaled_integer_baseline; [exact Hz | apply double_idem]).
  - vm_compute. reflexivity.
  - vm_compute. reflexivity.
Qed.

Lemma scalingFields_particleCount (s : scaling.t) :
  scalingFields s !! 1%nat = Some (scaling.particleCount s).
Proof. reflexivity. Qed.

Lemma scalingFields_size (s : scaling.t) :
  scalingFields s !! 2%nat = Some (scaling.size s).
Proof. reflexivity. Qed.

Lemma scaling_never_enlarges_witness :
  scaling.size (updateScalingFactors (Some (onlySize 12)) 1200 800) == 12.
Proof.
  pose proof (scaling_never_enlarges (Some (onlySize 12)) 1200 800)
    as (_ & _ & _ & H & _).
  pose proof (Forall2_lookup_lr _ _ _ 2%nat _ _ H
                (scalingFields_size _) (scalingFields_size _)) as Hsize.
  assert (Hd : scaling.size (scalingDefaults (Some (onlySize 12))) = 12)
    by (vm_compute; reflexivity).
  rewrite Hd in Hsize. apply Hsize. exists 12%Z. reflexivity.
Defined.

(** On the baseline viewport a size of 12.4 comes back as 12: not every
    field is unchanged there. *)
Lemma scaling_baseline_changes_fraction :
  ~ Forall2 (fun v r => r == v)
      (scalingFields (scalingDefaults (Some (onlySize 12.4))))
      (scalingFields (updateScalingFactors (Some (onlySize 12.4)) 1200 800)).
Proof.
  intros H.
  pose proof (Forall2_lookup_lr _ _ _ 2%nat _ _ H
                (scalingFields_size _) (scalingFields_size _)) as Hsize.
  revert Hsize. vm_compute. discriminate.
Qed.

(** ** Fade-out *)

Lemma Qleb_negb_Qltb (a b : Q) : Qleb a b = negb (Qltb b a).
Proof.
  destruct (Qltb b a) eqn:E; cbn.
  - apply Qltb_lt in E. apply Qleb_gt, E.
  - apply Qltb_ge in E. apply Qleb_le, E.
Qed.

(** The value of [applyFadeOut], by the test on the progress. *)
Lemma applyFadeOut_value particle timeLeft duration w :
  (applyFadeOut particle timeLeft duration w).1
  = if Qltb (double 0.7) (fadeProgress timeLeft duration)
    then fadeValue (fadeProgress timeLeft duration) else 1.
Proof. unfold applyFadeOut. destruct (Qltb (double 0.7) _); reflexivity. Qed.

Lemma Qdiv_le_compat (a b c : Q) : 0 < c -> a <= b -> a / c <= b / c.
Proof.
  intros Hc H. unfold Qdiv.
  apply Qmult_le_r; [apply Qinv_lt_0_compat, Hc | exact H].
Qed.

Lemma fadeValue_antitone (p1 p2 : Q) : p2 <= p1 -> fadeValue p1 <= fadeValue p2.
Proof.
  intros H. unfold fadeValue. apply double_mono.
  assert (K : 0 < double 0.3) by (vm_compute; reflexivity).
  assert (double (double (p2 - double 0.7) / double 0.3)
          <= double (double (p1 - double 0.7) / double 0.3)).
  { apply double_mono, Qdiv_le_compat; [exact K|]. apply double_mono. lra. }
  lra.
Qed.

(** At the threshold the line starts at 1. *)
Lemma fadeValue_le_1 (p : Q) : double 0.7 <= p -> fadeValue p <= 1.
Proof.
  intros H. eapply Qle_trans; [apply fadeValue_antitone, H|].
  vm_compute. discriminate.
Qed.

(** At the end of the line, [1 - (1 - 0.7) / 0.3] in doubles is
    [-2^-52], about [-2.22e-16]. *)
Lemma fadeValue_end : fadeValue 1 = - (1 # 4503599627370496).
Proof. vm_compute. reflexivity. Qed.

Lemma fadeValue_ge (p : Q) : p <= 1 -> - (1 # 4503599627370496) <= fadeValue p.
Proof.
  intros H. rewrite <- fadeValue_end. apply fadeValue_antitone, H.
Qed.

Lemma fadeProgress_antitone (t1 t2 duration : Q) :
  0 < duration -> t1 <= t2 ->
  fadeProgress t2 duration <= fadeProgress t1 duration.
Proof.
  intros Hd Ht. unfold fadeProgress. apply double_mono.
  assert (double (t1 / duration) <= double (t2 / duration))
    by (apply double_mono, Qdiv_le_compat; assumption).
  lra.
Qed.

Lemma fadeProgress_le_1 (t duration : Q) :
  0 < duration -> 0 <= t -> fadeProgress t duration <= 1.
Proof.
  intros Hd Ht. unfold fadeProgress.
  apply Qle_trans with (double 1); [|vm_compute; discriminate].
  apply double_mono.
  assert (0 <= double (t / duration)).
  { apply double_nonneg. apply Qle_shift_div_l; [exact Hd|]. lra. }
  lra.
Qed.

Lemma fadeProgress_0 (duration : Q) : 0 < duration -> fadeProgress 0 duration = 1.
Proof.
  intros Hd. unfold fadeProgress.
  rewrite (double_proper (0 / duration) 0) by (unfold Qdiv; ring).
  vm_compute. reflexivity.
Qed.

(** C6, as the code has it. With [progress = 1 - timeLeft/duration], the
    opacity that [applyFadeOut] returns is a function of the progress
    alone, whatever the particle and the world: exactly 1 while
    [progress <= 0.7] and [1 - (progress - 0.7)/0.3] beyond, every
    operation in double precision. At [timeLeft = 0] it is [-2^-52]
    (about [-2.22e-16]), not 0; for [timeLeft >= 0] it lies between
    that value and 1; and for a fixed duration it does not increase as
    [timeLeft] decreases. *)
Theorem fadeOut_profile (particle : nat) (w : world.t)
    (duration : Q) (Hduration : 0 < duration) :
  let opacity := fun timeLeft => (applyFadeOut particle timeLeft duration w).1 in
  let progress := fun timeLeft => fadeProgress timeLeft duration in
  (forall timeLeft, progress timeLeft = double (1 - double (timeLeft / duration)))
  /\ (forall timeLeft, progress timeLeft <= double 0.7 -> opacity timeLeft = 1)
  /\ (forall timeLeft, double 0.7 < progress timeLeft ->
        opacity timeLeft
        = double (1 - double (double (progress timeLeft - double 0.7)
                              / double 0.3)))
  /\ opacity 0 = - (1 # 4503599627370496)
  /\ (forall timeLeft, 0 <= timeLeft ->
        - (1 # 4503599627370496) <= opacity timeLeft /\ opacity timeLeft <= 1)
  /\ (forall t1 t2, t1 <= t2 -> opacity t1 <= opacity t2).
Proof.
  intros opacity progress. subst opacity progress. cbv beta.
  split; [|split; [|split; [|split; [|split]]]].
  - reflexivity.
  - intros t H. rewrite applyFadeOut_value. apply Qltb_ge in H. rewrite H.
    reflexivity.
  - intros t H. rewrite applyFadeOut_value. apply Qltb_lt in H. rewrite H.
    reflexivity.
  - rewrite applyFadeOut_value, (fadeProgress_0 duration Hduration).
    vm_compute. reflexivity.
  - intros t Ht. rewrite applyFadeOut_value.
    pose proof (fadeProgress_le_1 t duration Hduration Ht) as Hp.
    destruct (Qltb (double 0.7) (fadeProgress t duration)) eqn:E.
    + apply Qltb_lt in E. split; [apply fadeValue_ge, Hp|].
      apply fadeValue_le_1. lra.
    + split; [discriminate | apply Qle_refl].
  - intros t1 t2 Ht. rewrite !applyFadeOut_value.
    pose proof (fadeProgress_antitone t1 t2 duration Hduration Ht) as Hp.
    destruct (Qltb (double 0.7) (fadeProgress t1 duration)) eqn:E1;
      destruct (Qltb (double 0.7) (fadeProgress t2 duration)) eqn:E2.
    + apply fadeValue_antitone, Hp.
    + apply Qltb_lt in E1. apply fadeValue_le_1. lra.
    + exfalso. apply Qltb_ge in E1. apply Qltb_lt in E2. lra.
    + apply Qle_refl.
Qed.

Lemma fadeOut_profile_witness :
  0 < 2000
  /\ (applyFadeOut 1 0 2000 (initialWorld (steadyHost 0))).1
     = - (1 # 4503599627370496)
  /\ (applyFadeOut 1 2000 2000 (initialWorld (steadyHost 0))).1 = 1.
Proof.
  assert (H : 0 < 2000) by reflexivity.
  destruct (fadeOut_profile 1 (initialWorld (steadyHost 0)) 2000 H)
    as (_ & Hfull & _ & Hend & _).
  split; [exact H|]. split; [exact Hend|].
  apply Hfull. vm_compute. discriminate.
Defined.

(** The design has the opacity reach 0 exactly at [timeLeft = 0]; the
    value that [applyFadeOut] returns there, and writes to the style of
    the particle, is not 0. *)
Lemma fadeOut_misses_zero :
  opacityOfProgress (1 - 0 / 2000) == 0
  /\ ~ (applyFadeOut 1 0 2000 (initialWorld (steadyHost 0))).1 == 0
  /\ ~ (applyFadeOut 1 0 2000 (initialWorld (steadyHost 0))).1
       == opacityOfProgress (1 - 0 / 2000).
Proof.
  split; [vm_compute; reflexivity|].
  split; vm_compute; discriminate.
Qed.

(** ** Collisions *)





(** A settling particle is not reflected by the bottom handler. *)
Lemma handleBottomBounce_settled (h y vy bounces bounceCount damping : Q) :
  handleBottomBounce h y vy bounces bounceCount damping true
  = vert.mk y vy bounces true.
Proof. unfold handleBottomBounce. rewrite andb_false_r. reflexivity. Qed.

Lemma advance_bounceCount (w h : Q) (a : anim.t) :
  anim.bounceCount (advance w h a) = anim.bounceCount a.
Proof. reflexivity. Qed.









(** ** Frame lemmas: what particles never write *)

Lemma kept_with_burst (this : nat) (f : burst.t -> burst.t) (w : world.t) :
  (forall b, burstCore (f b) = burstCore b) ->
  kept (with_burst this f w) = kept w.
Proof.
  intros Hf. unfold kept, with_burst; cbn. f_equal.
  rewrite (list_fmap_alter burstCore f id).
  - apply list_alter_id. reflexivity.
  - apply Forall_forall. intros b _. apply Hf.
Qed.

Lemma kept_animateParticle this c particle startX startY angle w :
  kept (animateParticle this c particle startX startY angle w) = kept w.
Proof.
  unfold animateParticle, Math_random, requestAnimationFrame.
  cbv zeta. rewrite kept_with_burst by reflexivity. reflexivity.
Qed.

Lemma kept_createParticle c w :
  kept (createParticle c w).2 = kept w.
Proof. reflexivity. Qed.

Lemma kept_setStyle e f w : kept (setStyle e f w) = kept w.
Proof. reflexivity. Qed.

Lemma kept_Math_random w : kept (Math_random w).2 = kept w.
Proof. reflexivity. Qed.

Lemma kept_createParticlesTurn this c centerX startY fragment w :
  kept (createParticlesTurn this c centerX startY fragment w).2 = kept w.
Proof.
  unfold createParticlesTurn.
  destruct (createParticle c w) as [particle w1] eqn:E1.
  destruct (Math_random w1) as [r1 w2] eqn:E2.
  destruct (Math_random w2) as [r2 w3] eqn:E3.
  cbn [snd]. rewrite kept_animateParticle, kept_with_burst by reflexivity.
  rewrite !kept_setStyle.
  change w3 with (r2, w3).2; rewrite <- E3, kept_Math_random.
  change w2 with (r1, w2).2; rewrite <- E2, kept_Math_random.
  change w1 with (particle, w1).2; rewrite <- E1. apply kept_createParticle.
Qed.

Lemma kept_createParticlesLoop fuel this c centerX startY i fragment w :
  kept (createParticlesLoop fuel this c centerX startY i fragment w).2 = kept w.
Proof.
  revert i fragment w. induction fuel as [|fuel IH]; intros i fragment w;
    cbn [createParticlesLoop].
  - reflexivity.
  - destruct (Qltb i (cfg.particleCount c)); [|reflexivity].
    pose proof (kept_createParticlesTurn this c centerX startY fragment w) as H.
    destruct (createParticlesTurn this c centerX startY fragment w) as [f1 w1].
    rewrite IH. exact H.
Qed.

Lemma kept_createParticles this w : kept (createParticles this w) = kept w.
Proof.
  unfold createParticles.
  destruct (world.bursts w !! this) as [b|]; [|reflexivity].
  destruct (burst.container b) as [container|]; [|reflexivity].
  destruct (cfg.randomizeStart (burst.config b)); cbn;
    match goal with
    | |- context [createParticlesLoop ?n ?t ?c ?x ?y ?i ?f ?w0] =>
        pose proof (kept_createParticlesLoop n t c x y i f w0) as H;
        destruct (createParticlesLoop n t c x y i f w0) as [fragment w1]
    end;
    (transitivity (kept w1); [reflexivity | exact H]).
Qed.

(** ** The loop of [createParticles] *)

Lemma Qltb_proper (a a' b : Q) : a == a' -> Qltb a b = Qltb a' b.
Proof. intros H. unfold Qltb. rewrite H. reflexivity. Qed.

(** For an integer [k], [k < v] exactly when [k] is below the ceiling. *)
Lemma Qltb_integer (i v : Q) (k : Z) :
  i == inject_Z k -> (Qltb i v = true <-> (k < Qceiling v)%Z).
Proof.
  intros Hi. rewrite (Qltb_proper _ _ _ Hi), Qltb_lt. split.
  - intros H. rewrite Zlt_Qlt. eapply Qlt_le_trans; [exact H | apply Qle_ceiling].
  - intros H. eapply Qle_lt_trans; [|apply Qceiling_lt].
    rewrite <- Zle_Qle. lia.
Qed.

Lemma createParticlesTurn_burst this c centerX startY fragment w b :
  world.bursts w !! this = Some b ->
  let particle := document.next (world.document w) in
  let r := createParticlesTurn this c centerX startY fragment w in
  r.1 = fragment ++ [particle]
  /\ exists b', world.bursts r.2 !! this = Some b'
       /\ burst.particles b' = burst.particles b ++ [particle].
Proof.
  intros Hb particle r. split; [reflexivity|].
  subst r. unfold createParticlesTurn, animateParticle, with_burst; cbn.
  rewrite !list_lookup_alter_eq, Hb. cbn. eexists. split; reflexivity.
Qed.

Lemma createParticlesLoop_particles fuel this c centerX startY i k fragment w b :
  i == inject_Z k ->
  (Z.to_nat (Qceiling (cfg.particleCount c) - k) <= fuel)%nat ->
  world.bursts w !! this = Some b ->
  let r := createParticlesLoop fuel this c centerX startY i fragment w in
  exists news b',
    r.1 = fragment ++ news
    /\ world.bursts r.2 !! this = Some b'
    /\ burst.particles b' = burst.particles b ++ news
    /\ length news = Z.to_nat (Qceiling (cfg.particleCount c) - k).
Proof.
  revert i k fragment w b.
  induction fuel as [|fuel IH]; intros i k fragment w b Hi Hfuel Hb;
    cbn [createParticlesLoop].
  - exists [], b. rewrite !app_nil_r. repeat split; try assumption.
    cbn. lia.
  - destruct (Qltb i (cfg.particleCount c)) eqn:Hlt.
    + apply (Qltb_integer _ _ _ Hi) in Hlt.
      destruct (createParticlesTurn_burst this c centerX startY fragment w b Hb)
        as (Hfrag & b1 & Hb1 & Hp1).
      destruct (createParticlesTurn this c centerX startY fragment w) as [f1 w1].
      cbn [fst snd] in Hfrag, Hb1.
      destruct (IH (i + 1) (k + 1)%Z f1 w1 b1) as (news & b' & H1 & H2 & H3 & H4).
      * rewrite Hi, inject_Z_plus. reflexivity.
      * lia.
      * exact Hb1.
      * exists (document.next (world.document w) :: news), b'.
        subst f1. rewrite H1, H3, Hp1, <- !app_assoc.
        split; [reflexivity|]. split; [exact H2|]. split; [reflexivity|].
        cbn [length]. rewrite H4. lia.
    + exists [], b. rewrite !app_nil_r. repeat split; try assumption.
      assert (~ (k < Qceiling (cfg.particleCount c))%Z).
      { rewrite <- (Qltb_integer _ _ _ Hi), Hlt. discriminate. }
      cbn. lia.
Qed.

(** ** Lists and maps *)

Lemma alter_as_insert {A} (f : A -> A) (l : list A) (i : nat) (x : A) :
  l !! i = Some x -> alter f i l = <[i := f x]> l.
Proof.
  revert i. induction l as [|y l IH]; intros [|i] H; cbn in *; try discriminate.
  - congruence.
  - f_equal. apply IH, H.
Qed.

Lemma cores_alter (f : burst.t -> burst.t) (this : nat) (l : list burst.t) (b : burst.t) :
  l !! this = Some b ->
  burstCore <$> alter f this l = <[this := burstCore (f b)]> (burstCore <$> l).
Proof.
  intros H. rewrite (alter_as_insert _ _ _ _ H). apply list_fmap_insert.
Qed.

Lemma cores_lookup (w : world.t) (this : nat) :
  view.cores (kept w) !! this = burstCore <$> world.bursts w !! this.
Proof. apply list_lookup_fmap. Qed.

Lemma filter_absent (e : nat) (l : list nat) :
  e ∉ l -> filter (fun k => k ≠ e) l = l.
Proof.
  induction l as [|x l IH]; intros H; [reflexivity|].
  apply not_elem_of_cons in H as [Hx Hl].
  rewrite filter_cons_True by congruence. f_equal. apply IH, Hl.
Qed.

Lemma filter_gone (e : nat) (l : list nat) : e ∉ filter (fun k => k ≠ e) l.
Proof. rewrite list_elem_of_filter. intros [H _]. apply H. reflexivity. Qed.

(** ** [cancelAll] *)

Lemma cancelAll_only_raf (ids : gmap nat positive) (w : world.t) :
  cancelAll ids w
  = world.set_raf
      (raf.mk (raf.next (world.raf w))
         (raf.pending (world.raf (cancelAll ids w)))) w.
Proof.
  unfold cancelAll.
  apply (map_fold_weak_ind
    (fun r (_ : gmap nat positive) =>
       r = world.set_raf
             (raf.mk (raf.next (world.raf w)) (raf.pending (world.raf r))) w)).
  - destruct w as [? ? ? ? [? ?] ? ? ? ?]. reflexivity.
  - intros p id m r _ IH. rewrite IH at 1. reflexivity.
Qed.

Lemma cancelAll_cancels (ids : gmap nat positive) (w : world.t) (p : nat) (id : positive) :
  ids !! p = Some id ->
  raf.pending (world.raf (cancelAll ids w)) !! id = None.
Proof.
  unfold cancelAll. revert p id.
  apply (map_fold_weak_ind
    (fun r (m : gmap nat positive) =>
       forall p id, m !! p = Some id -> raf.pending (world.raf r) !! id = None)).
  - intros p id H. rewrite lookup_empty in H. discriminate.
  - intros q x m r _ IH p id H. cbn.
    destruct (decide (x = id)) as [->|Hne]; [apply lookup_delete_eq|].
    rewrite lookup_delete_ne by exact Hne.
    rewrite lookup_insert in H. destruct (decide (q = p)); [congruence|].
    eapply IH, H.
Qed.

Lemma cancelAll_others (ids : gmap nat positive) (w : world.t) (id : positive) :
  (forall p, ids !! p <> Some id) ->
  raf.pending (world.raf (cancelAll ids w)) !! id
  = raf.pending (world.raf w) !! id.
Proof.
  unfold cancelAll. revert id.
  apply (map_fold_weak_ind
    (fun r (m : gmap nat positive) =>
       forall id, (forall p, m !! p <> Some id) ->
         raf.pending (world.raf r) !! id = raf.pending (world.raf w) !! id)).
  - reflexivity.
  - intros q x m r Hq IH id H. cbn.
    rewrite lookup_delete_ne.
    + apply IH. intros p Hp. apply (H p).
      rewrite lookup_insert_ne; [exact Hp|]. intros ->. congruence.
    + intros ->. apply (H q). apply lookup_insert_eq.
Qed.

Lemma cancelAll_empty (w : world.t) : cancelAll ∅ w = w.
Proof. apply map_fold_empty. Qed.

Lemma kept_cancelAll ids w : kept (cancelAll ids w) = kept w.
Proof. rewrite cancelAll_only_raf. reflexivity. Qed.

(** ** [createContainer], [scheduleCleanup], [fire] on the view *)

Lemma kept_createContainer this w b :
  world.bursts w !! this = Some b ->
  kept (createContainer this w)
  = {| view.host := world.host w; view.timers := world.timers w;
       view.hook := world.hook w; view.calls := world.calls w;
       view.body := document.body (world.document w)
                    ++ [document.next (world.document w)];
       view.cores :=
         <[this := (burst.cleanupTimeoutId b, burst.config b,
                    Some (document.next (world.document w)))]>
           (view.cores (kept w)) |}.
Proof.
  intros Hb. unfold createContainer, kept, with_burst; cbn.
  rewrite (cores_alter _ _ _ _ Hb). reflexivity.
Qed.

Lemma kept_scheduleCleanup this w b :
  world.bursts w !! this = Some b ->
  burst.cleanupTimeoutId b = None ->
  kept (scheduleCleanup this w)
  = {| view.host := world.host w;
       view.timers :=
         timers.mk (Pos.succ (timers.next (world.timers w)))
           (<[timers.next (world.timers w) :=
                (host.now (world.host w) + cfg.duration (burst.config b),
                 CleanupCb this)]> (timers.pending (world.timers w)));
       view.hook := world.hook w; view.calls := world.calls w;
       view.body := document.body (world.document w);
       view.cores :=
         <[this := (Some (timers.next (world.timers w)), burst.config b,
                    burst.container b)]> (view.cores (kept w)) |}.
Proof.
  intros Hb Hnone. unfold scheduleCleanup. rewrite Hb, Hnone.
  unfold kept, with_burst; cbn.
  rewrite (cores_alter _ _ _ _ Hb). reflexivity.
Qed.

Lemma kept_fire this w b :
  world.bursts w !! this = Some b ->
  burst.cleanupTimeoutId b = None ->
  kept (fire this w)
  = {| view.host := world.host w;
       view.timers :=
         timers.mk (Pos.succ (timers.next (world.timers w)))
           (<[timers.next (world.timers w) :=
                (host.now (world.host w) + cfg.duration (burst.config b),
                 CleanupCb this)]> (timers.pending (world.timers w)));
       view.hook := world.hook w; view.calls := world.calls w;
       view.body := document.body (world.document w)
                    ++ [document.next (world.document w)];
       view.cores :=
         <[this := (Some (timers.next (world.timers w)), burst.config b,
                    Some (document.next (world.document w)))]>
           (view.cores (kept w)) |}.
Proof.
  intros Hb Hnone. unfold fire.
  set (w1 := createContainer this w).
  set (w2 := createParticles this w1).
  assert (H1 : kept w1 = _) by exact (kept_createContainer this w b Hb).
  assert (H2 : kept w2 = kept w1) by apply kept_createParticles.
  assert (Hlt : (this < length (world.bursts w))%nat).
  { eapply lookup_lt_Some, Hb. }
  assert (Hcore : burstCore <$> world.bursts w2 !! this
                  = Some (None, burst.config b,
                          Some (document.next (world.document w)))).
  { rewrite <- cores_lookup, H2, H1. cbn. rewrite <- Hnone.
    apply list_lookup_insert_eq. rewrite length_fmap. exact Hlt. }
  destruct (world.bursts w2 !! this) as [b2|] eqn:Hb2; [|discriminate].
  injection Hcore as Ht Hc Hk.
  rewrite (kept_scheduleCleanup this w2 b2 Hb2 Ht).
  rewrite Hc, Hk.
  change (world.host w2) with (view.host (kept w2)).
  change (world.timers w2) with (view.timers (kept w2)).
  change (world.hook w2) with (view.hook (kept w2)).
  change (world.calls w2) with (view.calls (kept w2)).
  change (document.body (world.document w2)) with (view.body (kept w2)).
  rewrite H2, H1. cbn. rewrite list_insert_insert_eq. reflexivity.
Qed.

(** ** [teardown] and [cleanup] *)

(** The burst that [teardown] leaves at [this]. *)
Lemma teardown_burst this b w :
  world.bursts w !! this = Some b ->
  world.bursts (teardown this b w) !! this
  = Some (burst.mk ∅ None (burst.config b) None []).
Proof.
  intros Hb. unfold teardown.
  rewrite cancelAll_only_raf. unfold with_burst. cbn.
  rewrite !list_lookup_alter_eq.
  destruct b as [ids [t|] cf [c|] ps]; cbn;
    try destruct (body_contains _ _); cbn;
    rewrite ?list_lookup_alter_eq, Hb; reflexivity.
Qed.

Lemma cancelAll_raf_congr (ids : gmap nat positive) (w1 w2 : world.t) :
  world.raf w1 = world.raf w2 ->
  world.raf (cancelAll ids w1) = world.raf (cancelAll ids w2).
Proof.
  intros H. unfold cancelAll. rewrite !map_fold_foldr.
  induction (map_to_list ids) as [|[p id] l IH]; cbn.
  - exact H.
  - rewrite IH. reflexivity.
Qed.

Lemma teardown_raf this b w :
  world.raf (teardown this b w)
  = world.raf (cancelAll (burst.animationIds b) w).
Proof.
  unfold teardown. cbn. apply cancelAll_raf_congr.
  destruct (burst.cleanupTimeoutId b), (burst.container b); cbn;
    try destruct (body_contains _ _); reflexivity.
Qed.

Lemma cores_alter2 (f g : burst.t -> burst.t) (this : nat) (l : list burst.t) (b : burst.t) :
  l !! this = Some b ->
  burstCore <$> alter f this (alter g this l)
  = <[this := burstCore (f (g b))]> (burstCore <$> l).
Proof.
  intros H.
  rewrite (alter_as_insert f _ this (g b)) by (rewrite list_lookup_alter_eq, H; reflexivity).
  rewrite (alter_as_insert g _ this b H), list_insert_insert_eq.
  apply list_fmap_insert.
Qed.

Lemma body_removeChild_guarded (c : nat) (w : world.t) :
  (if body_contains c w then body_removeChild c w else w) = body_removeChild c w.
Proof.
  unfold body_contains, body_removeChild. case_bool_decide as Hin; [reflexivity|].
  rewrite (filter_absent _ _ Hin).
  destruct w as [? ? [? ? ?] ? ? ? ? ? ?]. reflexivity.
Qed.

Lemma kept_teardown this b w :
  world.bursts w !! this = Some b ->
  kept (teardown this b w)
  = {| view.host := world.host w;
       view.timers :=
         timers.mk (timers.next (world.timers w))
           (match burst.cleanupTimeoutId b with
            | Some id => delete id (timers.pending (world.timers w))
            | None => timers.pending (world.timers w)
            end);
       view.hook := world.hook w; view.calls := world.calls w;
       view.body :=
         match burst.container b with
         | Some container =>
             filter (fun k => k ≠ container) (document.body (world.document w))
         | None => document.body (world.document w)
         end;
       view.cores := <[this := (None, burst.config b, None)]> (view.cores (kept w)) |}.
Proof.
  intros Hb. unfold teardown.
  rewrite kept_with_burst by reflexivity. rewrite kept_cancelAll.
  rewrite kept_with_burst by reflexivity.
  destruct b as [ids t cf c ps]. cbn [burst.cleanupTimeoutId burst.container burst.config].
  destruct c as [c|]; rewrite ?body_removeChild_guarded;
    destruct t as [id|]; unfold kept, with_burst, clearTimeout, body_removeChild; cbn;
    rewrite ?(cores_alter2 _ _ _ _ _ Hb), ?(cores_alter _ _ _ _ Hb);
    destruct (world.timers w); reflexivity.
Qed.

Lemma with_burst_fix (this : nat) (f : burst.t -> burst.t) (w : world.t) (b : burst.t) :
  world.bursts w !! this = Some b -> f b = b -> with_burst this f w = w.
Proof.
  intros Hb Hf. unfold with_burst.
  rewrite (alter_as_insert _ _ _ _ Hb), Hf, (list_insert_id _ _ _ Hb).
  destruct w. reflexivity.
Qed.

(** Tearing down a burst that holds nothing changes nothing. *)
Lemma teardown_inert this cf w :
  world.bursts w !! this = Some (burst.mk ∅ None cf None []) ->
  teardown this (burst.mk ∅ None cf None []) w = w.
Proof.
  intros Hb. unfold teardown. cbn.
  rewrite (with_burst_fix this (burst.set_container None) w _ Hb) by reflexivity.
  rewrite (with_burst_fix this (burst.set_particles _) w _ Hb) by reflexivity.
  rewrite cancelAll_empty.
  apply (with_burst_fix this _ w _ Hb). reflexivity.
Qed.

Lemma invoke_bursts cb w : world.bursts (invoke cb w) = world.bursts w.
Proof. destruct cb; reflexivity. Qed.

Lemma invoke_raf cb w : world.raf (invoke cb w) = world.raf w.
Proof. destruct cb; reflexivity. Qed.

Lemma invoke_document cb w : world.document (invoke cb w) = world.document w.
Proof. destruct cb; reflexivity. Qed.

Lemma invoke_timers cb w : world.timers (invoke cb w) = world.timers w.
Proof. destruct cb; reflexivity. Qed.

(** The caller's callbacks that a call of [cb] logs. *)
Lemma invoke_calls cb w :
  world.calls (invoke cb w)
  = world.calls w ++ match cb with CbUser tag => [tag] | _ => [] end.
Proof. destruct cb; cbn; rewrite ?app_nil_r; reflexivity. Qed.

(** ** [fire] on the particles *)

Lemma scheduleCleanup_particles this w b :
  world.bursts w !! this = Some b ->
  exists b', world.bursts (scheduleCleanup this w) !! this = Some b'
    /\ burst.particles b' = burst.particles b
    /\ burst.animationIds b' = burst.animationIds b.
Proof.
  intros Hb. unfold scheduleCleanup. rewrite Hb.
  destruct (burst.cleanupTimeoutId b); unfold with_burst; cbn;
    rewrite !list_lookup_alter_eq, Hb; cbn; eexists; repeat split.
Qed.

Lemma createParticles_particles this w b container :
  world.bursts w !! this = Some b ->
  burst.container b = Some container ->
  exists news b',
    world.bursts (createParticles this w) !! this = Some b'
    /\ burst.particles b' = burst.particles b ++ news
    /\ length news
       = Z.to_nat (Qceiling (cfg.particleCount (burst.config b)) - 1).
Proof.
  intros Hb Hc. unfold createParticles. rewrite Hb, Hc.
  destruct (cfg.randomizeStart (burst.config b)); cbn;
    match goal with
    | |- context [createParticlesLoop ?n ?t ?c ?x ?y ?i ?f ?w0] =>
        destruct (createParticlesLoop_particles n t c x y i 1%Z f w0 b)
          as (news & b' & _ & H2 & H3 & H4);
        [ reflexivity | unfold loopFuel; lia | exact Hb | ];
        destruct (createParticlesLoop n t c x y i f w0) as [fragment w1]
    end;
    exists news, b'; (split; [exact H2|]); split; assumption.
Qed.

Lemma fire_particles this w b :
  world.bursts w !! this = Some b ->
  exists news b',
    world.bursts (fire this w) !! this = Some b'
    /\ burst.particles b' = burst.particles b ++ news
    /\ length news
       = Z.to_nat (Qceiling (cfg.particleCount (burst.config b)) - 1).
Proof.
  intros Hb. unfold fire.
  assert (H1 : world.bursts (createContainer this w) !! this
               = Some (burst.set_container
                         (Some (document.next (world.document w))) b)).
  { unfold createContainer, with_burst; cbn.
    rewrite list_lookup_alter_eq, Hb. reflexivity. }
  destruct (createParticles_particles this _ _ _ H1 eq_refl)
    as (news & b1 & Hb1 & Hp1 & Hn).
  destruct (scheduleCleanup_particles this _ _ Hb1) as (b2 & Hb2 & Hp2 & _).
  exists news, b2. split; [exact Hb2|]. split; [|exact Hn].
  rewrite Hp2, Hp1. reflexivity.
Qed.

Lemma newConfettiBurst_lookup options w :
  world.bursts (newConfettiBurst options w).2 !! length (world.bursts w)
  = Some (burst.mk ∅ None (mkConfig options) None []).
Proof. cbn. apply list_lookup_middle. reflexivity. Qed.

(** The particles in the collection of a new burst built from [options]
    in [w0], once fired. *)
Lemma fire_count (options : option opts.t) (w0 : world.t) :
  exists b,
    world.bursts (fire (length (world.bursts w0)) (newConfettiBurst options w0).2)
      !! length (world.bursts w0) = Some b
    /\ length (burst.particles b)
       = Z.to_nat (Qceiling (cfg.particleCount (mkConfig options)) - 1).
Proof.
  destruct (fire_particles _ _ _ (newConfettiBurst_lookup options w0))
    as (news & b & Hb & Hp & Hn).
  cbn in Hp, Hn. exists b. split; [exact Hb|]. rewrite Hp. exact Hn.
Qed.

(** C1, on the code. [fire()] on a new burst leaves
    [ceil(particleCount) - 1] particles in the collection (none when
    [particleCount <= 1]): one fewer than [particleCount], the loop
    starting at [i = 1]. With the default 150 that is 149, and with
    [particleCount = 1] the burst is empty. *)
Theorem fire_creates_one_fewer :
  (forall options w0, exists b,
     world.bursts (fire (length (world.bursts w0)) (newConfettiBurst options w0).2)
       !! length (world.bursts w0) = Some b
     /\ length (burst.particles b)
        = Z.to_nat (Qceiling (cfg.particleCount (mkConfig options)) - 1))
  /\ (forall w0, exists b,
     world.bursts (fire (length (world.bursts w0)) (newConfettiBurst None w0).2)
       !! length (world.bursts w0) = Some b
     /\ cfg.particleCount (burst.config b) = 150
     /\ length (burst.particles b) = 149%nat)
  /\ (forall w0, exists b,
     world.bursts
       (fire (length (world.bursts w0))
          (newConfettiBurst (Some (onlyParticleCount 1)) w0).2)
       !! length (world.bursts w0) = Some b
     /\ cfg.particleCount (burst.config b) = 1
     /\ burst.particles b = []).
Proof.
  split; [exact fire_count|]. split; intros w0.
  - destruct (fire_count None w0) as (b & Hb & Hn).
    exists b. split; [exact Hb|]. split; [|exact Hn].
    pose proof (kept_fire _ _ _ (newConfettiBurst_lookup None w0) eq_refl) as Hk.
    apply (f_equal (fun v => view.cores v !! length (world.bursts w0))) in Hk.
    rewrite cores_lookup, Hb in Hk. cbn in Hk.
    rewrite list_lookup_insert_eq in Hk
      by (rewrite length_fmap, length_app; cbn; lia).
    injection Hk as _ Hc _. rewrite Hc. reflexivity.
  - destruct (fire_count (Some (onlyParticleCount 1)) w0) as (b & Hb & Hn).
    exists b. split; [exact Hb|]. split; [|apply length_zero_iff_nil, Hn].
    pose proof (kept_fire _ _ _
      (newConfettiBurst_lookup (Some (onlyParticleCount 1)) w0) eq_refl) as Hk.
    apply (f_equal (fun v => view.cores v !! length (world.bursts w0))) in Hk.
    rewrite cores_lookup, Hb in Hk. cbn in Hk.
    rewrite list_lookup_insert_eq in Hk
      by (rewrite length_fmap, length_app; cbn; lia).
    injection Hk as _ Hc _. rewrite Hc. reflexivity.
Qed.

(** ** [fire] then [stop] *)

Lemma cleanup_eq this w b :
  world.bursts w !! this = Some b ->
  cleanup this w = invoke (cfg.onStop (burst.config b)) (teardown this b w).
Proof. intros Hb. unfold cleanup. rewrite Hb. reflexivity. Qed.

(** C3, as the code has it. A new burst, fired and then stopped, holds
    no particle, no frame id, no timer id and no container; its container
    is no child of the body, each frame it had requested is cancelled,
    and so is its teardown timer; the callback has been called once. A
    second [stop()] changes none of this and only calls the callback
    again: the callback is called once per [stop()]. *)
Theorem fire_stop_releases (options : option opts.t) (w0 : world.t) :
  let this := length (world.bursts w0) in
  let w2 := fire this (newConfettiBurst options w0).2 in
  let w3 := stop this w2 in
  let w4 := stop this w3 in
  let cb := cfg.onStop (mkConfig options) in
  let logged := match cb with CbUser tag => [tag] | _ => [] end in
  exists b2,
    world.bursts w2 !! this = Some b2
    /\ burst.container b2 = Some (document.next (world.document w0))
    /\ burst.cleanupTimeoutId b2 = Some (timers.next (world.timers w0))
    /\ world.bursts w3 !! this = Some (burst.mk ∅ None (mkConfig options) None [])
    /\ (document.next (world.document w0) ∉ document.body (world.document w3))
    /\ (forall p id, burst.animationIds b2 !! p = Some id ->
          raf.pending (world.raf w3) !! id = None)
    /\ timers.pending (world.timers w3) !! timers.next (world.timers w0) = None
    /\ world.calls w3 = world.calls w0 ++ logged
    /\ w4 = invoke cb w3
    /\ world.calls w4 = world.calls w0 ++ logged ++ logged.
Proof.
  intros this w2 w3 w4 cb logged.
  pose proof (newConfettiBurst_lookup options w0) as Hb1.
  pose proof (kept_fire _ _ _ Hb1 eq_refl) as Hk2. fold this in Hb1, Hk2. fold w2 in Hk2.
  assert (Hlen : (this < length (burstCore <$> world.bursts (newConfettiBurst options w0).2))%nat).
  { rewrite length_fmap. cbn. rewrite length_app. cbn. subst this. lia. }
  assert (Hcore : burstCore <$> world.bursts w2 !! this
    = Some (Some (timers.next (world.timers w0)), mkConfig options,
            Some (document.next (world.document w0)))).
  { rewrite <- cores_lookup, Hk2. cbn. apply list_lookup_insert_eq, Hlen. }
  destruct (world.bursts w2 !! this) as [b2|] eqn:Hb2; [|discriminate].
  injection Hcore as Ht Hc Hcont.
  exists b2. split; [reflexivity|]. split; [exact Hcont|]. split; [exact Ht|].
  assert (Hw3 : w3 = invoke cb (teardown this b2 w2)).
  { subst w3 cb. unfold stop. rewrite (cleanup_eq _ _ _ Hb2), Hc. reflexivity. }
  pose proof (kept_teardown _ _ _ Hb2) as Hk3. rewrite Ht, Hcont in Hk3.
  assert (Hb3 : world.bursts w3 !! this
                = Some (burst.mk ∅ None (mkConfig options) None [])).
  { rewrite Hw3, invoke_bursts, (teardown_burst _ _ _ Hb2), Hc. reflexivity. }
  split; [exact Hb3|]. split.
  { rewrite Hw3, invoke_document.
    change (document.body (world.document (teardown this b2 w2)))
      with (view.body (kept (teardown this b2 w2))).
    rewrite Hk3. cbn. apply filter_gone. }
  split.
  { intros p id Hp. rewrite Hw3, invoke_raf, teardown_raf.
    eapply cancelAll_cancels, Hp. }
  split.
  { rewrite Hw3, invoke_timers.
    change (world.timers (teardown this b2 w2))
      with (view.timers (kept (teardown this b2 w2))).
    rewrite Hk3. cbn. apply lookup_delete_eq. }
  assert (Hcalls3 : world.calls w3 = world.calls w0 ++ logged).
  { rewrite Hw3, invoke_calls.
    change (world.calls (teardown this b2 w2))
      with (view.calls (kept (teardown this b2 w2))).
    rewrite Hk3. cbn.
    change (world.calls w2) with (view.calls (kept w2)). rewrite Hk2. reflexivity. }
  split; [exact Hcalls3|].
  assert (Hw4 : w4 = invoke cb w3).
  { subst w4. unfold stop. rewrite (cleanup_eq _ _ _ Hb3). cbn.
    rewrite (teardown_inert _ _ _ Hb3). reflexivity. }
  split; [exact Hw4|].
  rewrite Hw4, invoke_calls, Hcalls3, <- app_assoc. reflexivity.
Qed.

(** The second [stop()] calls the caller's callback a second time. *)
Lemma second_stop_calls_again :
  let w2 := fire 0 (newConfettiBurst (Some taggedOptions) (initialWorld (steadyHost 0))).2 in
  let w3 := stop 0 w2 in
  let w4 := stop 0 w3 in
  world.calls w3 = [7%nat] /\ world.calls w4 = [7%nat; 7%nat] /\ w4 <> w3.
Proof.
  cbv zeta. split; [vm_compute; reflexivity|].
  split; [vm_compute; reflexivity|].
  intros H. apply (f_equal world.calls) in H. vm_compute in H. discriminate.
Qed.

(** ** The last frame of a particle *)

(** C9. When [update] finds the lifetime of its particle elapsed, it
    only deletes the entry of that particle from the frame ids of its
    burst: host, random draws, display tree, timeouts, pending frames,
    closures, hook and log are the same; so is every other burst; in its
    own burst the container, the particles, the teardown timer and the
    configuration are the same, and so is the entry of every other
    particle. No frame is requested. *)
Theorem update_at_end_of_life (particle : nat) (a : anim.t) (w : world.t)
    (Hclosure : world.anims w !! particle = Some a)
    (Helapsed : anim.endTime a - host.now (world.host w) <= 0) :
  let w' := update particle w in
  w' = world.set_bursts (world.bursts w') w
  /\ length (world.bursts w') = length (world.bursts w)
  /\ (forall other, other <> anim.owner a ->
        world.bursts w' !! other = world.bursts w !! other)
  /\ (forall b, world.bursts w !! anim.owner a = Some b ->
        exists b', world.bursts w' !! anim.owner a = Some b'
          /\ burst.container b' = burst.container b
          /\ burst.particles b' = burst.particles b
          /\ burst.cleanupTimeoutId b' = burst.cleanupTimeoutId b
          /\ burst.config b' = burst.config b
          /\ burst.animationIds b' !! particle = None
          /\ (forall q, q <> particle ->
                burst.animationIds b' !! q = burst.animationIds b !! q)).
Proof.
  intros w'. subst w'. unfold update. rewrite Hclosure.
  apply Qleb_le in Helapsed. rewrite Helapsed.
  unfold with_burst. cbn. split; [reflexivity|]. split; [apply length_alter|].
  split.
  - intros other Hne. apply list_lookup_alter_ne. congruence.
  - intros b Hb. rewrite list_lookup_alter_eq, Hb. cbn.
    eexists. split; [reflexivity|]. cbn. repeat split.
    + apply lookup_delete_eq.
    + intros q Hq. apply lookup_delete_ne. congruence.
Qed.

Lemma update_at_end_of_life_witness :
  let w := hostMoves (steadyHost 2000)
             (fire 0 (newConfettiBurst (Some taggedOptions)
                        (initialWorld (steadyHost 0))).2) in
  exists a b',
    world.anims w !! 1%nat = Some a
    /\ anim.endTime a - host.now (world.host w) <= 0
    /\ world.bursts (update 1 w) !! 0%nat = Some b'
    /\ burst.animationIds b' !! 1%nat = None
    /\ burst.animationIds b' !! 2%nat = Some 2%positive
    /\ burst.particles b' = [1%nat; 2%nat].
Proof.
  intros w.
  destruct (world.anims w !! 1%nat) as [a|] eqn:Ha;
    [|vm_compute in Ha; discriminate].
  assert (Hel : anim.endTime a - host.now (world.host w) <= 0).
  { vm_compute in Ha. injection Ha as <-. vm_compute. discriminate. }
  assert (Hown : anim.owner a = 0%nat).
  { vm_compute in Ha. injection Ha as <-. reflexivity. }
  destruct (update_at_end_of_life 1 a w Ha Hel) as (_ & _ & _ & H).
  rewrite Hown in H.
  destruct (world.bursts w !! 0%nat) as [b|] eqn:Hb;
    [|vm_compute in Hb; discriminate].
  destruct (H b eq_refl) as (b' & Hb' & _ & Hp & _ & _ & Hgone & Hrest).
  exists a, b'. split; [reflexivity|]. split; [exact Hel|].
  split; [exact Hb'|]. split; [exact Hgone|]. split.
  - rewrite Hrest by discriminate.
    vm_compute in Hb. injection Hb as <-. reflexivity.
  - rewrite Hp. vm_compute in Hb. injection Hb as <-. reflexivity.
Defined.

(** ** The discipline of timeouts is kept by every event *)

Lemma WellTimed_delete n p ref ids id :
  WellTimed (timers.mk n p) ref ids ->
  WellTimed (timers.mk n (delete id p)) ref ids.
Proof.
  intros [H1 H2 H3]. split; cbn in *.
  - intros id' due o H. apply lookup_delete_Some in H as [_ H]. eapply H1, H.
  - exact H2.
  - intros j id' Hj. destruct (H3 j id' Hj) as [Hlt Hno]. split; [exact Hlt|].
    intros due o H. apply lookup_delete_Some in H as [_ H]. eapply Hno, H.
Qed.

Lemma WellTimed_ids t ref ids ids' :
  WellTimed t ref ids ->
  (forall j id, ids' !! j = Some (Some id) -> exists j', ids !! j' = Some (Some id)) ->
  WellTimed t ref ids'.
Proof.
  intros [H1 H2 H3] Hsub. split; [exact H1 | exact H2 |].
  intros j id Hj. destruct (Hsub j id Hj) as [j' Hj']. eapply H3, Hj'.
Qed.

Lemma WellTimed_cleanup_timer n p ref ids this due b :
  WellTimed (timers.mk n p) ref ids ->
  WellTimed (timers.mk (Pos.succ n) (<[n := (due, CleanupCb b)]> p)) ref
    (<[this := Some n]> ids).
Proof.
  intros [H1 H2 H3]. split; cbn in *.
  - intros id due' o H. rewrite lookup_insert in H.
    destruct (decide (n = id)); [discriminate|]. eapply H1, H.
  - intros id Hid. apply H2 in Hid. lia.
  - intros j id Hj.
    destruct (decide (j = this)) as [->|Hne].
    + destruct (decide (this < length ids)%nat) as [Hlt|Hge].
      * rewrite list_lookup_insert_eq in Hj by exact Hlt.
        injection Hj as <-. split; [lia|].
        intros due' o. rewrite lookup_insert_eq. discriminate.
      * rewrite list_insert_ge in Hj by lia.
        destruct (H3 _ _ Hj) as [Hlt Hno]. split; [lia|].
        intros due' o. rewrite lookup_insert_ne by lia. apply Hno.
    + rewrite list_lookup_insert_ne in Hj by congruence.
      destruct (H3 _ _ Hj) as [Hlt Hno]. split; [lia|].
      intros due' o. rewrite lookup_insert_ne by lia. apply Hno.
Qed.

Lemma WellTimed_debounce_timer n p ref ids due o :
  WellTimed (timers.mk n p) ref ids ->
  WellTimed
    (timers.mk (Pos.succ n)
       (<[n := (due, DebounceCb o)]>
          (match ref with Some id => delete id p | None => p end)))
    (Some n) ids.
Proof.
  intros [H1 H2 H3]. split; cbn in *.
  - intros id due' o' H. rewrite lookup_insert in H.
    destruct (decide (n = id)) as [->|Hne]; [reflexivity|]. exfalso.
    destruct ref as [old|].
    + apply lookup_delete_Some in H as [Hold H].
      apply H1 in H. congruence.
    + apply H1 in H. discriminate.
  - intros id [= <-]. lia.
  - intros j id Hj. destruct (H3 _ _ Hj) as [Hlt Hno]. split; [lia|].
    intros due' o'. rewrite lookup_insert_ne by lia.
    destruct ref as [old|]; [|apply Hno].
    intros H. apply lookup_delete_Some in H as [_ H]. eapply Hno, H.
Qed.

Lemma ids_of_cores (w : world.t) :
  burst.cleanupTimeoutId <$> world.bursts w
  = (fun c => c.1.1) <$> view.cores (kept w).
Proof. cbn. rewrite <- list_fmap_compose. reflexivity. Qed.

Lemma wellTimed_of_view (w : world.t) :
  wellTimed w
  <-> WellTimed (view.timers (kept w)) (hook.debounceTimerRef (view.hook (kept w)))
        ((fun c => c.1.1) <$> view.cores (kept w)).
Proof. unfold wellTimed. rewrite ids_of_cores. reflexivity. Qed.

Lemma wellTimed_kept (w w' : world.t) :
  kept w' = kept w -> wellTimed w -> wellTimed w'.
Proof. intros H. rewrite !wellTimed_of_view, H. trivial. Qed.

Lemma kept_invoke cb w :
  view.timers (kept (invoke cb w)) = view.timers (kept w)
  /\ hook.debounceTimerRef (view.hook (kept (invoke cb w)))
     = hook.debounceTimerRef (view.hook (kept w))
  /\ view.cores (kept (invoke cb w)) = view.cores (kept w)
  /\ view.host (kept (invoke cb w)) = view.host (kept w).
Proof. destruct cb; repeat split. Qed.

Lemma wellTimed_invoke cb w : wellTimed w -> wellTimed (invoke cb w).
Proof.
  destruct (kept_invoke cb w) as (Ht & Hr & Hc & _).
  rewrite !wellTimed_of_view, Ht, Hr, Hc. trivial.
Qed.

Lemma insert_ids_None (this : nat) (ids : list (option positive)) j id :
  <[this := None]> ids !! j = Some (Some id) -> ids !! j = Some (Some id).
Proof.
  destruct (decide (j = this)) as [->|Hne].
  - destruct (decide (this < length ids)%nat).
    + rewrite list_lookup_insert_eq by assumption. discriminate.
    + rewrite list_insert_ge by lia. trivial.
  - rewrite list_lookup_insert_ne by congruence. trivial.
Qed.

Lemma wellTimed_teardown this b w :
  world.bursts w !! this = Some b -> wellTimed w -> wellTimed (teardown this b w).
Proof.
  intros Hb. rewrite !wellTimed_of_view, (kept_teardown _ _ _ Hb). cbn.
  rewrite list_fmap_insert. cbn. intros H.
  eapply WellTimed_ids.
  - destruct (world.timers w) as [n p]. cbn.
    destruct (burst.cleanupTimeoutId b); [apply WellTimed_delete|]; exact H.
  - intros j id Hj. exists j. eapply insert_ids_None, Hj.
Qed.

Lemma wellTimed_cleanup this w : wellTimed w -> wellTimed (cleanup this w).
Proof.
  intros H. unfold cleanup.
  destruct (world.bursts w !! this) as [b|] eqn:Hb; [|exact H].
  apply wellTimed_invoke, wellTimed_teardown; assumption.
Qed.

Lemma wellTimed_fire this b w :
  world.bursts w !! this = Some b -> burst.cleanupTimeoutId b = None ->
  wellTimed w -> wellTimed (fire this w).
Proof.
  intros Hb Hnone. rewrite !wellTimed_of_view, (kept_fire _ _ _ Hb Hnone). cbn.
  rewrite list_fmap_insert. cbn. destruct (world.timers w) as [n p]. cbn.
  apply WellTimed_cleanup_timer.
Qed.

(** ** The frames of the particles on the view *)

Lemma kept_update particle w : kept (update particle w) = kept w.
Proof.
  unfold update. destruct (world.anims w !! particle) as [a|]; [|reflexivity].
  destruct (Qleb _ 0).
  - apply kept_with_burst. reflexivity.
  - cbv zeta. unfold applyFadeOut, requestAnimationFrame.
    destruct (Qltb (double 0.7) _);
      rewrite kept_with_burst by reflexivity; reflexivity.
Qed.

Lemma kept_runFrame id w : kept (runFrame id w) = kept w.
Proof.
  unfold runFrame. destruct (raf.pending (world.raf w) !! id); [|reflexivity].
  rewrite kept_update. reflexivity.
Qed.

(** ** The hook on the view *)

Lemma bursts_length_kept (w : world.t) :
  length (world.bursts w) = length (view.cores (kept w)).
Proof. cbn. rewrite length_fmap. reflexivity. Qed.

Lemma invoke_host cb w : world.host (invoke cb w) = world.host w.
Proof. destruct cb; reflexivity. Qed.

Lemma invoke_debounceTimerRef cb w :
  hook.debounceTimerRef (world.hook (invoke cb w))
  = hook.debounceTimerRef (world.hook w).
Proof. destruct cb; reflexivity. Qed.

Lemma cleanup_facts this w :
  length (world.bursts (cleanup this w)) = length (world.bursts w)
  /\ world.host (cleanup this w) = world.host w
  /\ timers.next (world.timers (cleanup this w)) = timers.next (world.timers w)
  /\ hook.debounceTimerRef (world.hook (cleanup this w))
     = hook.debounceTimerRef (world.hook w)
  /\ (forall id entry,
        timers.pending (world.timers (cleanup this w)) !! id = Some entry ->
        timers.pending (world.timers w) !! id = Some entry)
  /\ (forall id, (forall b, world.bursts w !! this = Some b ->
                    burst.cleanupTimeoutId b <> Some id) ->
        timers.pending (world.timers (cleanup this w)) !! id
        = timers.pending (world.timers w) !! id).
Proof.
  unfold cleanup. destruct (world.bursts w !! this) as [b|] eqn:Hb.
  2: { repeat split; trivial. }
  set (cb := cfg.onStop (burst.config b)).
  pose proof (kept_teardown _ _ _ Hb) as Hk.
  assert (Hk_host : world.host (teardown this b w) = world.host w)
    by exact (f_equal view.host Hk).
  assert (Hk_timers : world.timers (teardown this b w) = _)
    by exact (f_equal view.timers Hk).
  assert (Hk_hook : world.hook (teardown this b w) = world.hook w)
    by exact (f_equal view.hook Hk).
  assert (Hk_cores : burstCore <$> world.bursts (teardown this b w) = _)
    by exact (f_equal view.cores Hk).
  cbn [view.timers view.cores kept] in Hk_timers, Hk_cores.
  split; [|split; [|split; [|split; [|split]]]].
  - rewrite invoke_bursts, <- (length_fmap burstCore), Hk_cores.
    rewrite length_insert, length_fmap. reflexivity.
  - rewrite invoke_host. exact Hk_host.
  - rewrite invoke_timers, Hk_timers. reflexivity.
  - rewrite invoke_debounceTimerRef, Hk_hook. reflexivity.
  - intros id entry. rewrite invoke_timers, Hk_timers. cbn.
    destruct (burst.cleanupTimeoutId b); [|trivial].
    intros H. apply lookup_delete_Some in H as [_ H]. exact H.
  - intros id Hid. rewrite invoke_timers, Hk_timers. cbn.
    destruct (burst.cleanupTimeoutId b) as [tid|] eqn:Htid; [|reflexivity].
    apply lookup_delete_ne. intros ->. apply (Hid b eq_refl). exact Htid.
Qed.

Lemma stopExisting_facts w :
  length (world.bursts (stopExisting w)) = length (world.bursts w)
  /\ world.host (stopExisting w) = world.host w
  /\ timers.next (world.timers (stopExisting w)) = timers.next (world.timers w)
  /\ hook.debounceTimerRef (world.hook (stopExisting w))
     = hook.debounceTimerRef (world.hook w)
  /\ (forall id entry,
        timers.pending (world.timers (stopExisting w)) !! id = Some entry ->
        timers.pending (world.timers w) !! id = Some entry).
Proof.
  unfold stopExisting, stop.
  destruct (hook.activeInstancesRef (world.hook w)) as [this|].
  2: { repeat split; trivial. }
  destruct (cleanup_facts this w) as (H1 & H2 & H3 & H4 & H5 & _).
  cbn. repeat split; assumption.
Qed.

Lemma wellTimed_stopExisting w : wellTimed w -> wellTimed (stopExisting w).
Proof.
  intros H. unfold stopExisting, stop.
  destruct (hook.activeInstancesRef (world.hook w)) as [this|]; [|exact H].
  apply (wellTimed_cleanup this) in H. exact H.
Qed.

(** What the arrow of [fireConfetti] does to the view, after the burst
    in place, if any, has been stopped. *)
Lemma kept_debounced options w :
  let wa := stopExisting w in
  let this := length (world.bursts wa) in
  let c := gateConfig options (world.host wa) in
  let n := timers.next (world.timers wa) in
  kept (debounced options w)
  = {| view.host := world.host wa;
       view.timers :=
         timers.mk (Pos.succ n)
           (<[n := (host.now (world.host wa) + cfg.duration c, CleanupCb this)]>
              (timers.pending (world.timers wa)));
       view.hook :=
         hook.mk (Some this) (hook.debounceTimerRef (world.hook wa)) true;
       view.calls := world.calls wa;
       view.body := document.body (world.document wa)
                    ++ [document.next (world.document wa)];
       view.cores :=
         view.cores (kept wa)
         ++ [(Some n, c, Some (document.next (world.document wa)))] |}.
Proof.
  intros wa this c n. unfold debounced. fold wa. cbv zeta.
  unfold newConfettiBurst. cbn [world.bursts world.set_hook world.set_bursts
    world.host world.hook world.calls world.document world.timers world.raf
    world.drawn world.anims].
  erewrite kept_fire; [| apply list_lookup_middle; reflexivity | reflexivity].
  cbn. f_equal.
  rewrite fmap_app. cbn.
  rewrite insert_app_r_alt by (rewrite length_fmap; lia).
  rewrite length_fmap, Nat.sub_diag. reflexivity.
Qed.

Lemma WellTimed_new_burst n p ref ids due b :
  WellTimed (timers.mk n p) ref ids ->
  WellTimed (timers.mk (Pos.succ n) (<[n := (due, CleanupCb b)]> p)) ref
    (ids ++ [Some n]).
Proof.
  intros H.
  replace (ids ++ [Some n]) with (<[length ids := Some n]> (ids ++ [None])).
  - apply WellTimed_cleanup_timer.
    eapply WellTimed_ids; [exact H|].
    intros j id Hj. exists j.
    apply lookup_app_Some in Hj as [Hj|[_ Hj]]; [exact Hj|].
    destruct (j - length ids)%nat; discriminate.
  - rewrite insert_app_r_alt, Nat.sub_diag by lia. reflexivity.
Qed.

Lemma wellTimed_debounced options w : wellTimed w -> wellTimed (debounced options w).
Proof.
  intros H. apply wellTimed_stopExisting in H.
  rewrite wellTimed_of_view in *. rewrite kept_debounced.
  cbn [kept view.timers view.hook view.cores hook.debounceTimerRef] in *.
  rewrite fmap_app. cbn [fmap list_fmap fst].
  destruct (world.timers (stopExisting w)) as [n p].
  cbn [timers.next timers.pending]. apply WellTimed_new_burst. exact H.
Qed.

Lemma wellTimed_clearTimeout id w : wellTimed w -> wellTimed (clearTimeout id w).
Proof.
  unfold wellTimed, clearTimeout. cbn.
  destruct (world.timers w) as [n p]. apply WellTimed_delete.
Qed.

Lemma wellTimed_fireConfetti options w :
  wellTimed w -> wellTimed (fireConfetti options w).
Proof.
  unfold wellTimed, fireConfetti, setTimeout, clearTimeout.
  destruct (world.timers w) as [n p] eqn:Ht.
  destruct (hook.debounceTimerRef (world.hook w)) as [old|] eqn:Href; cbn;
    rewrite ?Ht; cbn; intros H.
  - apply (WellTimed_debounce_timer n p (Some old)). exact H.
  - apply (WellTimed_debounce_timer n p None). exact H.
Qed.

Lemma wellTimed_runTimeout id w : wellTimed w -> wellTimed (runTimeout id w).
Proof.
  intros H. unfold runTimeout.
  destruct (timers.pending (world.timers w) !! id) as [[due cb]|]; [|exact H].
  destruct (Qleb due _); [|exact H].
  apply (wellTimed_clearTimeout id) in H.
  destruct cb; cbn.
  - apply wellTimed_cleanup, H.
  - apply wellTimed_debounced, H.
Qed.

Lemma wellTimed_exec e w : wellTimed w -> wellTimed (exec e w).
Proof.
  intros H. destruct e; cbn.
  - apply wellTimed_fireConfetti, H.
  - unfold stopConfetti, stop.
    destruct (hook.activeInstancesRef (world.hook w)); [|exact H].
    apply wellTimed_cleanup, H.
  - apply wellTimed_runTimeout, H.
  - eapply wellTimed_kept; [apply kept_runFrame | exact H].
  - unfold hostMoves. destruct (Qleb _ _); exact H.
Qed.

Lemma wellTimed_run events w : wellTimed w -> wellTimed (run events w).
Proof.
  revert w. induction events as [|e events IH]; intros w H; [exact H|].
  apply IH, wellTimed_exec, H.
Qed.

Lemma wellTimed_initialWorld h : wellTimed (initialWorld h).
Proof.
  split; cbn.
  - intros id due o H. rewrite lookup_empty in H. discriminate.
  - discriminate.
  - intros j id H. rewrite lookup_nil in H. discriminate.
Qed.

(** ** The debounce *)

Lemma fireConfetti_arms options w :
  armed (fireConfetti options w) (timers.next (world.timers w))
    (host.now (world.host w) + 200) options
  /\ world.bursts (fireConfetti options w) = world.bursts w
  /\ world.host (fireConfetti options w) = world.host w.
Proof.
  unfold armed, fireConfetti, setTimeout, clearTimeout.
  destruct (hook.debounceTimerRef (world.hook w)); cbn;
    rewrite lookup_insert_eq; repeat split.
Qed.

(** An event other than a call, while the armed timeout is not due. *)
Lemma armed_exec e w id due options :
  wellTimed w -> armed w id due options ->
  host.now (world.host w) < due ->
  (forall o, e <> EvFireConfetti o) ->
  (forall h, e = EvHost h -> host.now h < due) ->
  armed (exec e w) id due options
  /\ length (world.bursts (exec e w)) = length (world.bursts w)
  /\ host.now (world.host w) <= host.now (world.host (exec e w))
  /\ host.now (world.host (exec e w)) < due.
Proof.
  intros Hwt [Href Hpend] Hnow Hcall Hhost.
  assert (Hother : forall this b, world.bursts w !! this = Some b ->
            burst.cleanupTimeoutId b <> Some id).
  { intros this b Hb Hid.
    destruct (wt_burst _ _ _ Hwt this id) as [_ Hno].
    - rewrite list_lookup_fmap, Hb. cbn. rewrite Hid. reflexivity.
    - eapply Hno, Hpend. }
  assert (Hcleanup : forall this,
    armed (cleanup this w) id due options
    /\ length (world.bursts (cleanup this w)) = length (world.bursts w)
    /\ host.now (world.host w) <= host.now (world.host (cleanup this w))
    /\ host.now (world.host (cleanup this w)) < due).
  { intros this.
    destruct (cleanup_facts this w) as (H1 & H2 & _ & H4 & _ & H6).
    unfold armed. rewrite H1, H2, H4, H6 by (intros b; apply Hother).
    repeat split; try assumption. apply Qle_refl. }
  destruct e as [o| |tid|fid|h]; cbn.
  - exfalso. eapply Hcall. reflexivity.
  - unfold stopConfetti, stop.
    destruct (hook.activeInstancesRef (world.hook w)); [apply Hcleanup|].
    repeat split; try assumption. apply Qle_refl.
  - unfold runTimeout.
    destruct (timers.pending (world.timers w) !! tid) as [[due' cb]|] eqn:Htid.
    2: { repeat split; try assumption. apply Qle_refl. }
    destruct (Qleb due' _) eqn:Hdue.
    2: { repeat split; try assumption. apply Qle_refl. }
    destruct cb as [this|o'].
    + (* the teardown timer of a burst *)
      assert (Hne : tid <> id) by (intros ->; congruence).
      cbn [runCallback].
      assert (Hwt' : wellTimed (clearTimeout tid w))
        by apply wellTimed_clearTimeout, Hwt.
      destruct (cleanup_facts this (clearTimeout tid w)) as (H1 & H2 & _ & H4 & _ & H6).
      unfold armed. rewrite H1, H2, H4, H6.
      * cbn. rewrite lookup_delete_ne by exact Hne.
        repeat split; try assumption. apply Qle_refl.
      * intros b Hb Hid.
        destruct (wt_burst _ _ _ Hwt' this id) as [_ Hno].
        -- rewrite list_lookup_fmap, Hb. cbn. rewrite Hid. reflexivity.
        -- eapply Hno. cbn. rewrite lookup_delete_ne by exact Hne. exact Hpend.
    + (* a debounce timeout: it is the armed one, and it is not due *)
      exfalso. pose proof (wt_debounce _ _ _ Hwt _ _ _ Htid) as Hsame.
      rewrite Href in Hsame. injection Hsame as <-.
      rewrite Hpend in Htid. injection Htid as <- _.
      apply Qleb_le in Hdue. apply Qle_not_lt in Hdue. contradiction.
  - pose proof (kept_runFrame fid w) as Hk.
    unfold armed.
    change (world.hook (runFrame fid w)) with (view.hook (kept (runFrame fid w))).
    change (world.timers (runFrame fid w)) with (view.timers (kept (runFrame fid w))).
    change (world.host (runFrame fid w)) with (view.host (kept (runFrame fid w))).
    rewrite !bursts_length_kept, Hk.
    repeat split; try assumption. apply Qle_refl.
  - unfold hostMoves. destruct (Qleb _ (host.now h)) eqn:Hle.
    + apply Qleb_le in Hle. repeat split; try assumption. eapply Hhost. reflexivity.
    + repeat split; try assumption. apply Qle_refl.
Qed.

Lemma kept_host w : view.host (kept w) = world.host w.
Proof. reflexivity. Qed.

Lemma kept_timers w : view.timers (kept w) = world.timers w.
Proof. reflexivity. Qed.

Lemma kept_cores w : view.cores (kept w) = burstCore <$> world.bursts w.
Proof. reflexivity. Qed.

Lemma debounced_host options w : world.host (debounced options w) = world.host w.
Proof.
  rewrite <- (kept_host (debounced options w)), kept_debounced. cbn [view.host].
  destruct (stopExisting_facts w) as (_ & H & _). exact H.
Qed.

Lemma exec_host e w :
  world.host (exec e w)
  = match e with EvHost h => world.host (hostMoves h w) | _ => world.host w end.
Proof.
  destruct e as [o| |tid|fid|h]; cbn [exec].
  - apply fireConfetti_arms.
  - unfold stopConfetti, stop.
    destruct (hook.activeInstancesRef (world.hook w)); [|reflexivity].
    apply cleanup_facts.
  - unfold runTimeout.
    destruct (timers.pending (world.timers w) !! tid) as [[due cb]|]; [|reflexivity].
    destruct (Qleb due _); [|reflexivity].
    destruct cb; cbn [runCallback].
    + destruct (cleanup_facts this (clearTimeout tid w)) as (_ & H & _).
      rewrite H. reflexivity.
    + rewrite debounced_host. reflexivity.
  - rewrite <- (kept_host (runFrame fid w)), kept_runFrame. reflexivity.
  - reflexivity.
Qed.

(** The armed timeout, run once it is due, builds and fires one burst,
    from the options it carries, and leaves no debounce pending. *)
Lemma armed_fires w id due options :
  wellTimed w -> armed w id due options ->
  due <= host.now (world.host w) ->
  let w' := runTimeout id w in
  length (world.bursts w') = S (length (world.bursts w))
  /\ (exists b, world.bursts w' !! length (world.bursts w) = Some b
        /\ burst.config b = gateConfig options (world.host w))
  /\ (forall id' due' o',
        timers.pending (world.timers w') !! id' <> Some (due', DebounceCb o')).
Proof.
  intros Hwt [Href Hpend] Hdue w'. subst w'. unfold runTimeout.
  rewrite Hpend. apply Qleb_le in Hdue. rewrite Hdue. cbn [runCallback].
  set (wc := clearTimeout id w).
  pose proof (kept_debounced options wc) as Hk. cbv zeta in Hk.
  destruct (stopExisting_facts wc) as (Hlen & Hhost & _ & _ & Hsub).
  pose proof (f_equal view.cores Hk) as Hcores.
  pose proof (f_equal view.timers Hk) as Htimers.
  rewrite (kept_cores (debounced options wc)) in Hcores.
  rewrite (kept_timers (debounced options wc)) in Htimers.
  cbn [view.cores view.timers] in Hcores, Htimers.
  rewrite kept_cores in Hcores.
  split; [|split].
  - rewrite <- (length_fmap burstCore), Hcores, length_app, length_fmap, Hlen.
    cbn. lia.
  - assert (Hl : burstCore <$> world.bursts (debounced options wc)
                   !! length (world.bursts w)
                 = Some (Some (timers.next (world.timers (stopExisting wc))),
                         gateConfig options (world.host (stopExisting wc)),
                         Some (document.next (world.document (stopExisting wc))))).
    { rewrite <- list_lookup_fmap, Hcores.
      apply list_lookup_middle. rewrite length_fmap, Hlen. reflexivity. }
    destruct (world.bursts (debounced options wc) !! length (world.bursts w))
      as [b|]; [|discriminate].
    exists b. split; [reflexivity|].
    injection Hl as _ Hc _. rewrite Hc, Hhost. reflexivity.
  - intros id' due' o'. rewrite Htimers. cbn.
    rewrite lookup_insert. destruct (decide (_ = id')); [discriminate|].
    intros H. apply Hsub in H. cbn in H.
    apply lookup_delete_Some in H as [Hne H].
    apply (wt_debounce _ _ _ Hwt) in H. congruence.
Qed.

(** One event other than a call, inside the window that opened at [t0]. *)
Lemma window_step e w id t options t0 :
  wellTimed w -> armed w id (t + 200) options ->
  t0 <= t -> t0 <= host.now (world.host w) ->
  host.now (world.host w) < t0 + 200 ->
  (forall o, e <> EvFireConfetti o) ->
  (forall h, e = EvHost h -> host.now h < t0 + 200) ->
  wellTimed (exec e w)
  /\ armed (exec e w) id (t + 200) options
  /\ length (world.bursts (exec e w)) = length (world.bursts w)
  /\ t0 <= host.now (world.host (exec e w))
  /\ host.now (world.host (exec e w)) < t0 + 200.
Proof.
  intros Hwt Harmed Ht Hge Hlt Hcall Hhost.
  assert (Hdue : host.now (world.host w) < t + 200) by lra.
  assert (Hh : forall h, e = EvHost h -> host.now h < t + 200).
  { intros h He. pose proof (Hhost h He). lra. }
  destruct (armed_exec e w id (t + 200) options Hwt Harmed Hdue Hcall Hh)
    as (Ha & Hlen & Hmono & _).
  split; [apply wellTimed_exec, Hwt|]. split; [exact Ha|]. split; [exact Hlen|].
  split; [eapply Qle_trans; eassumption|].
  rewrite exec_host. destruct e; try exact Hlt.
  unfold hostMoves. destruct (Qleb _ _); [|exact Hlt].
  apply Hhost. reflexivity.
Qed.

Lemma hostMoves_now h w :
  host.now (world.host (hostMoves h w))
  = if Qleb (host.now (world.host w)) (host.now h)
    then host.now h else host.now (world.host w).
Proof. unfold hostMoves. destruct (Qleb _ _); reflexivity. Qed.

(** A window of events that starts with the debounce armed. *)
Lemma window_run events : forall w id t options t0,
  wellTimed w -> armed w id (t + 200) options ->
  t0 <= t -> t0 <= host.now (world.host w) ->
  host.now (world.host w) < t0 + 200 ->
  (forall h, h ∈ hostsOf events -> host.now h < t0 + 200) ->
  let w1 := run events w in
  let last := lastCall events (host.now (world.host w)) (t, options) in
  wellTimed w1
  /\ (exists id', armed w1 id' (last.1 + 200) last.2)
  /\ length (world.bursts w1) = length (world.bursts w)
  /\ host.now (world.host w1) < t0 + 200
  /\ t0 <= last.1.
Proof.
  induction events as [|e events IH]; intros w id t options t0 Hwt Harmed Ht Hge Hlt Hhosts.
  - cbn [run foldl lastCall fst snd].
    split; [exact Hwt|]. split; [exists id; exact Harmed|].
    split; [reflexivity|]. split; assumption.
  - cbn [run foldl].
    change (foldl (fun w e => exec e w) (exec e w) events) with (run events (exec e w)).
    assert (Hhosts' : forall h, h ∈ hostsOf events -> host.now h < t0 + 200).
    { intros h Hin. apply Hhosts. destruct e; cbn; try exact Hin.
      apply list_elem_of_further, Hin. }
    destruct e as [o| |tid|fid|h]; cbn [lastCall].
    + (* a further call re-arms the debounce *)
      destruct (fireConfetti_arms o w) as (Ha & Hb & Hh).
      destruct (IH (exec (EvFireConfetti o) w) (timers.next (world.timers w))
                  (host.now (world.host w)) o t0) as (H1 & H2 & H3 & H4 & H5);
        cbn [exec]; rewrite ?Hh; try assumption.
      * apply wellTimed_fireConfetti, Hwt.
      * cbn [exec] in H2, H3, H4, H5. rewrite Hh in H2, H5. rewrite Hb in H3.
        exact (conj H1 (conj H2 (conj H3 (conj H4 H5)))).
    + destruct (window_step EvStopConfetti w id t options t0)
        as (S1 & S2 & S3 & S4 & S5); try assumption; try discriminate.
      destruct (IH _ id t options t0 S1 S2 Ht S4 S5 Hhosts') as (H1 & H2 & H3 & H4 & H5).
      rewrite exec_host in H2, H5. rewrite S3 in H3. exact (conj H1 (conj H2 (conj H3 (conj H4 H5)))).
    + destruct (window_step (EvTimeout tid) w id t options t0)
        as (S1 & S2 & S3 & S4 & S5); try assumption; try discriminate.
      destruct (IH _ id t options t0 S1 S2 Ht S4 S5 Hhosts') as (H1 & H2 & H3 & H4 & H5).
      rewrite exec_host in H2, H5. rewrite S3 in H3. exact (conj H1 (conj H2 (conj H3 (conj H4 H5)))).
    + destruct (window_step (EvFrame fid) w id t options t0)
        as (S1 & S2 & S3 & S4 & S5); try assumption; try discriminate.
      destruct (IH _ id t options t0 S1 S2 Ht S4 S5 Hhosts') as (H1 & H2 & H3 & H4 & H5).
      rewrite exec_host in H2, H5. rewrite S3 in H3. exact (conj H1 (conj H2 (conj H3 (conj H4 H5)))).
    + destruct (window_step (EvHost h) w id t options t0)
        as (S1 & S2 & S3 & S4 & S5); try assumption; try discriminate.
      { intros h' [= <-]. apply Hhosts. cbn. apply list_elem_of_here. }
      destruct (IH _ id t options t0 S1 S2 Ht S4 S5 Hhosts') as (H1 & H2 & H3 & H4 & H5).
      rewrite exec_host, hostMoves_now in H2, H5. rewrite S3 in H3.
      exact (conj H1 (conj H2 (conj H3 (conj H4 H5)))).
Qed.

(** The debounce over a window of events, in a reachable world. *)
Lemma debounce_window (h0 : host.t) (past : list Event)
    (o1 : option opts.t) (events : list Event) :
  let w0 := run past (initialWorld h0) in
  let t0 := host.now (world.host w0) in
  forall (Hwindow : forall h, h ∈ hostsOf events -> host.now h < t0 + 200),
  let w1 := run (EvFireConfetti o1 :: events) w0 in
  let last := lastCall events t0 (t0, o1) in
  length (world.bursts w1) = length (world.bursts w0)
  /\ exists id,
       armed w1 id (last.1 + 200) last.2
       /\ (forall id' due o',
             timers.pending (world.timers w1) !! id' = Some (due, DebounceCb o') ->
             id' = id)
       /\ forall h, last.1 + 200 <= host.now h ->
            let w2 := run [EvHost h; EvTimeout id] w1 in
            length (world.bursts w2) = S (length (world.bursts w0))
            /\ (exists b,
                  world.bursts w2 !! length (world.bursts w0) = Some b
                  /\ burst.config b = gateConfig last.2 h)
            /\ (forall id' due o',
                  timers.pending (world.timers w2) !! id'
                  <> Some (due, DebounceCb o')).
Proof.
  intros w0 t0 Hwindow w1 last.
  assert (Hwt0 : wellTimed w0) by apply wellTimed_run, wellTimed_initialWorld.
  destruct (fireConfetti_arms o1 w0) as (Ha & Hb & Hh).
  destruct (window_run events (fireConfetti o1 w0) (timers.next (world.timers w0))
              t0 o1 t0) as (H1 & [id H2] & H3 & H4 & H5).
  - apply wellTimed_fireConfetti, Hwt0.
  - exact Ha.
  - apply Qle_refl.
  - rewrite Hh. apply Qle_refl.
  - rewrite Hh. fold t0. lra.
  - exact Hwindow.
  - rewrite Hh in H2, H5. fold t0 in H2, H5. fold last in H2, H5.
    change (run events (fireConfetti o1 w0)) with w1 in H1, H2, H3, H4.
    rewrite Hb in H3. split; [exact H3|].
    exists id. split; [exact H2|]. split.
    + intros id' due o' Hp. destruct H2 as [Href _].
      pose proof (wt_debounce _ _ _ H1 _ _ _ Hp) as Hsame. congruence.
    + intros h Hh2. cbn [run foldl exec].
      assert (Hmove : hostMoves h w1 = world.set_host h w1).
      { unfold hostMoves.
        assert (Hle : Qleb (host.now (world.host w1)) (host.now h) = true)
          by (apply Qleb_le; lra).
        rewrite Hle. reflexivity. }
      rewrite Hmove.
      destruct (armed_fires (world.set_host h w1) id (last.1 + 200) last.2)
        as (F1 & F2 & F3).
      * exact H1.
      * exact H2.
      * exact Hh2.
      * cbn [world.bursts world.set_host world.host] in F1, F2.
        rewrite H3 in F1, F2. split; [exact F1|]. split; [exact F2|exact F3].
Qed.

(** ** Defaults through the hook *)

(** C4, on the code. A burst started by [fireConfetti()] with no options
    gets its size from the default 15 of [updateScalingFactors], not
    from the default 12 of the constructor: on any viewport the size is
    [min(round(15 * avgScale), 15)] (the product rounded to a double,
    as everywhere in [updateScalingFactors]), and on the baseline viewport the
    burst that the event loop starts has size 15; its other fields are
    the documented defaults, and its completion callback is the hook's
    own. *)
Theorem hook_default_size_is_15 :
  (forall h,
     cfg.size (gateConfig None h)
     = Math_min
         (Math_round
            (double (15 * avgScale (host.innerWidth h) (host.innerHeight h))))
         15)
  /\ cfg.size (mkConfig None) = 12
  /\ let w := run [EvFireConfetti None; EvHost (steadyHost 200); EvTimeout 1]
                (initialWorld (steadyHost 0)) in
     exists b,
       world.bursts w !! 0%nat = Some b
       /\ burst.config b
          = {| cfg.bounceCount := 2; cfg.duration := 2000;
               cfg.onStop := CbGateOnStop; cfg.particleCount := 150;
               cfg.randomizeStart := false; cfg.size := 15;
               cfg.spread := 70; cfg.startVelocity := 25 |}.
Proof.
  split; [reflexivity|]. split; [reflexivity|].
  cbv zeta.
  destruct (debounce_window (steadyHost 0) [] None [])
    as (_ & id & [Href _] & _ & Hfire).
  { intros h Hin. cbn in Hin. apply elem_of_nil in Hin. contradiction. }
  assert (Hid : id = 1%positive).
  { vm_compute in Href. congruence. }
  subst id.
  destruct (Hfire (steadyHost 200)) as (_ & (b & Hb & Hc) & _).
  { vm_compute. discriminate. }
  exists b. split; [exact Hb|]. rewrite Hc. reflexivity.
Qed.


(** ** The bounce counter *)

Lemma settledThenBounced_spec (before after : option anim.t) :
  settledThenBounced before after = true ->
  exists a b,
    before = Some a /\ after = Some b
    /\ anim.bounceCount a == 0
    /\ anim.isSettling a = true /\ anim.bounces a == 0
    /\ 0 < anim.y a /\ anim.vy a < 0
    /\ anim.isSettling b = true /\ anim.bounces b == 1
    /\ anim.y b == 0 /\ 0 < anim.vy b
    /\ anim.bounceCount b < anim.bounces b.
Proof.
  unfold settledThenBounced.
  destruct before as [a|], after as [b|]; try discriminate.
  rewrite !andb_true_iff, !Qeq_bool_iff, !Qltb_lt.
  intros H. exists a, b. tauto.
Qed.

(** C2, on the code. A burst with [bounceCount = 0], fired on the
    baseline viewport with every [Math.random()] at one half and a frame
    every 16 ms: after frame 46 its particle is Settling, no bounce
    counted, still below the top edge and moving up; frame 47 reflects
    it off the top edge and counts a bounce, so the counter (1) exceeds
    [bounceCount] (0). The top handler does the same to a particle whose
    counter has reached a [bounceCount] of 1. The bottom handler, for
    its part, never reflects a Settling particle. *)
Theorem top_edge_bounces_past_bounceCount :
  let w2 := fire 0 (newConfettiBurst (Some noBounceOptions)
                      (initialWorld (steadyHost 0))).2 in
  (exists a46 a47,
     world.anims (run (everyFrame 46) w2) !! 1%nat = Some a46
     /\ world.anims (run (everyFrame 47) w2) !! 1%nat = Some a47
     /\ anim.bounceCount a46 == 0
     /\ anim.isSettling a46 = true /\ anim.bounces a46 == 0
     /\ 0 < anim.y a46 /\ anim.vy a46 < 0
     /\ anim.isSettling a47 = true /\ anim.bounces a47 == 1
     /\ anim.y a47 == 0 /\ 0 < anim.vy a47
     /\ anim.bounceCount a47 < anim.bounces a47)
  /\ vert.bounces (handleTopBounce (-(1)) (-(5)) 1 1 bounceDamping) == 2
  /\ vert.isSettling (handleTopBounce (-(1)) (-(5)) 1 1 bounceDamping) = true
  /\ (forall innerHeight y vy bounces bounceCount,
        handleBottomBounce innerHeight y vy bounces bounceCount bounceDamping true
        = vert.mk y vy bounces true).
Proof.
  cbv zeta. split; [|split; [reflexivity|split; [reflexivity|]]].
  - apply settledThenBounced_spec. vm_compute. reflexivity.
  - intros. apply handleBottomBounce_settled.
Qed.

(** * Further properties *)

(** ** The bounce counter overshoots by at most one *)

Lemma Qleb_inject (c b : Q) (z n : Z) :
  c == inject_Z z -> b == inject_Z n -> Qleb c b = (z <=? n)%Z.
Proof.
  intros Hc Hb. destruct (Z.leb_spec z n) as [H|H].
  - apply Qleb_le. rewrite Hc, Hb, <- Zle_Qle. exact H.
  - apply Qleb_gt. rewrite Hc, Hb, <- Zlt_Qlt. exact H.
Qed.

Lemma succ_inject (b : Q) (n : Z) : b == inject_Z n -> b + 1 == inject_Z (n + 1).
Proof. intros H. rewrite H, inject_Z_plus. reflexivity. Qed.

Lemma advance_countedWithin (w h : Q) (z : Z) (a : anim.t) :
  anim.bounceCount a == inject_Z z ->
  countedWithin z a -> countedWithin z (advance w h a).
Proof.
  intros Hc (n & Hb & Hn).
  unfold countedWithin, advance, collideSide, collideBottom, collideTop,
    applyPhysics, handleBottomBounce, handleTopBounce.
  cbn [anim.bounces anim.isSettling anim.vy anim.y anim.bounceCount
       vert.bounces vert.isSettling vert.vy vert.y].
  pose proof (succ_inject _ _ Hb) as Hb1.
  pose proof (succ_inject _ _ Hb1) as Hb2.
  destruct Hn as [Hle | (Hn & Hs & Hvy)].
  - (* the counter has not passed bounceCount *)
    destruct (Qleb _ 0 && Qltb _ 0) eqn:Etop;
      cbn [vert.bounces vert.isSettling vert.vy vert.y].
    + rewrite (Qleb_inject _ _ _ _ Hc Hb1).
      destruct (Z.leb_spec z (n + 1)) as [Hz|Hz].
      * rewrite andb_false_r. cbn [vert.bounces vert.isSettling vert.vy].
        exists (n + 1)%Z. split; [exact Hb1|].
        destruct (Z.eq_dec n z) as [->|Hne].
        -- right. split; [reflexivity|]. split; [reflexivity|]. apply Qabs_nonneg.
        -- left. lia.
      * rewrite andb_true_r.
        destruct (Qleb (h - 20) _ && Qltb 0 _);
          cbn [vert.bounces vert.isSettling vert.vy].
        -- exists (n + 2)%Z. split; [|left; lia].
           rewrite Hb2. replace (n + 1 + 1)%Z with (n + 2)%Z by lia. reflexivity.
        -- exists (n + 1)%Z. split; [exact Hb1|left; lia].
    + rewrite (Qleb_inject _ _ _ _ Hc Hb).
      destruct (Z.leb_spec z n) as [Hz|Hz].
      * rewrite andb_false_r. cbn [vert.bounces vert.isSettling vert.vy].
        exists n. split; [exact Hb|left; exact Hle].
      * rewrite andb_true_r.
        destruct (Qleb (h - 20) _ && Qltb 0 _);
          cbn [vert.bounces vert.isSettling vert.vy].
        -- exists (n + 1)%Z. split; [exact Hb1|left; lia].
        -- exists n. split; [exact Hb|left; exact Hle].
  - (* one bounce too many: settled, never moving up again *)
    rewrite Hs. cbn [negb].
    assert (Hup : Qltb (anim.vy a + gravity * 0.3) 0 = false).
    { apply Qltb_ge. unfold gravity. lra. }
    rewrite Hup, andb_false_r.
    cbn [vert.bounces vert.isSettling vert.vy vert.y].
    rewrite (Qleb_inject _ _ _ _ Hc Hb).
    assert (Hz : (z <=? n)%Z = true) by (apply Z.leb_le; lia).
    rewrite Hz, andb_false_r. cbn [vert.bounces vert.isSettling vert.vy].
    exists n. split; [exact Hb|]. right.
    split; [exact Hn|]. split; [reflexivity|]. unfold gravity. lra.
Qed.

Lemma runFrames_bounceCount (viewports : list (Q * Q)) (a : anim.t) :
  anim.bounceCount (runFrames viewports a) = anim.bounceCount a.
Proof.
  revert a. induction viewports as [|[w h] rest IH]; intros a; cbn; [reflexivity|].
  rewrite IH. apply advance_bounceCount.
Qed.

Lemma runFrames_countedWithin (viewports : list (Q * Q)) (z : Z) (a : anim.t) :
  anim.bounceCount a == inject_Z z ->
  countedWithin z a -> countedWithin z (runFrames viewports a).
Proof.
  revert a. induction viewports as [|[w h] rest IH]; intros a Hc Ha; cbn.
  - exact Ha.
  - apply IH.
    + rewrite advance_bounceCount. exact Hc.
    + apply advance_countedWithin; assumption.
Qed.

(** X1. A closure launched with no bounce counted, for a [bounceCount]
    that is a natural number: after any run of frames, on any viewports,
    the counter is at most [bounceCount + 1]. *)
Theorem bounces_overshoot_by_one (viewports : list (Q * Q)) (a : anim.t) (z : Z)
    (Hnat : (0 <= z)%Z)
    (Hcount : anim.bounceCount a == inject_Z z)
    (Hlaunch : anim.bounces a == 0) :
  anim.bounces (runFrames viewports a) <= anim.bounceCount a + 1.
Proof.
  destruct (runFrames_countedWithin viewports z a Hcount) as (n & Hb & Hn).
  - exists 0%Z. split; [exact Hlaunch|]. left. exact Hnat.
  - rewrite Hb, Hcount. change 1 with (inject_Z 1).
    rewrite <- inject_Z_plus, <- Zle_Qle.
    destruct Hn as [Hle | (Hn & _)]; lia.
Qed.

Lemma bounces_overshoot_by_one_witness :
  anim.bounces (runFrames [(1200, 800); (1200, 800); (1200, 800)] (launched 2))
  <= 2 + 1.
Proof.
  apply (bounces_overshoot_by_one _ (launched 2) 2%Z).
  - lia.
  - reflexivity.
  - reflexivity.
Defined.

(** ** Above the top edge *)

(** X2. On a viewport at least 20 high, a frame never leaves a particle
    above the top edge and still moving up: after the frame [y >= 0] or
    [vy >= 0]. *)
Theorem never_escapes_through_top (innerWidth innerHeight : Q) (a : anim.t)
    (Hheight : 20 <= innerHeight) :
  let b := advance innerWidth innerHeight a in
  0 <= anim.y b \/ 0 <= anim.vy b.
Proof.
  unfold advance, collideSide, collideBottom, collideTop, handleBottomBounce,
    handleTopBounce.
  cbn [anim.bounces anim.isSettling anim.vy anim.y anim.bounceCount
       vert.bounces vert.isSettling vert.vy vert.y].
  set (p := applyPhysics a).
  destruct (Qleb (anim.y p) 0 && Qltb (anim.vy p) 0) eqn:Etop;
    cbn [vert.bounces vert.isSettling vert.vy vert.y].
  - destruct (Qleb (innerHeight - 20) _ && _ && _); cbn [vert.y vert.vy]; left; lra.
  - destruct (Qleb (innerHeight - 20) _ && _ && _); cbn [vert.y vert.vy]; [left; lra|].
    apply andb_false_iff in Etop as [E|E].
    + apply Qleb_gt in E. left. lra.
    + apply Qltb_ge in E. right. exact E.
Qed.

Lemma never_escapes_through_top_witness :
  0 <= anim.y (advance 1200 800 (launched 2))
  \/ 0 <= anim.vy (advance 1200 800 (launched 2)).
Proof.
  apply (never_escapes_through_top 1200 800 (launched 2)).
  vm_compute. discriminate.
Defined.

(** ** The opacity during a lifetime *)

(** X3. For a frame that [update] renders (a positive duration, a
    positive time left), the opacity that [applyFadeOut] returns is at
    most 1 and at least [-2^-52] (about [-2.22e-16]: double precision
    lets it dip below 0 at the very end of a lifetime); while at least
    30% of the duration is left nothing is written and the world is
    unchanged; with at most 29% left the value is below 1 and written;
    and a value that is written is the value returned. *)
Theorem fadeOut_range (particle : nat) (w : world.t) (timeLeft duration : Q)
    (Hduration : 0 < duration) (Hleft : 0 < timeLeft) :
  let r := applyFadeOut particle timeLeft duration w in
  (- (1 # 4503599627370496) <= r.1 /\ r.1 <= 1)
  /\ (0.3 * duration <= timeLeft -> r = (1, w))
  /\ (timeLeft <= 0.29 * duration ->
      r.1 < 1 /\ r.2 = setStyle particle (style.set_opacity r.1) w)
  /\ (r.2 = w \/ r.2 = setStyle particle (style.set_opacity r.1) w).
Proof.
  pose proof (fadeProgress_le_1 timeLeft duration Hduration
                (Qlt_le_weak _ _ Hleft)) as Hp.
  unfold applyFadeOut. cbv zeta.
  destruct (Qltb (double 0.7) (fadeProgress timeLeft duration)) eqn:E;
    cbn [fst snd].
  - apply Qltb_lt in E.
    split; [split; [apply fadeValue_ge, Hp | apply fadeValue_le_1; lra]|].
    split; [|split; [|right; reflexivity]].
    + intros H. exfalso.
      assert (Hq : 0.3 <= timeLeft / duration)
        by (apply Qle_shift_div_l; assumption).
      assert (Hd : double 0.3 <= double (timeLeft / duration))
        by apply double_mono, Hq.
      assert (Hle : fadeProgress timeLeft duration <= double (1 - double 0.3)).
      { unfold fadeProgress. apply double_mono. lra. }
      assert (Hc : double (1 - double 0.3) = double 0.7)
        by (vm_compute; reflexivity).
      rewrite Hc in Hle. lra.
    + intros H. split; [|reflexivity].
      assert (Hq : timeLeft / duration <= 0.29)
        by (apply Qle_shift_div_r; assumption).
      assert (Hd : double (timeLeft / duration) <= double 0.29)
        by apply double_mono, Hq.
      assert (Hge : double (1 - double 0.29) <= fadeProgress timeLeft duration).
      { unfold fadeProgress. apply double_mono. lra. }
      eapply Qle_lt_trans; [apply fadeValue_antitone, Hge|].
      vm_compute. reflexivity.
  - apply Qltb_ge in E.
    split; [split; [discriminate | apply Qle_refl]|].
    split; [reflexivity|]. split; [|left; reflexivity].
    intros H. exfalso.
    assert (Hq : timeLeft / duration <= 0.29)
      by (apply Qle_shift_div_r; assumption).
    assert (Hd : double (timeLeft / duration) <= double 0.29)
      by apply double_mono, Hq.
    assert (Hge : double (1 - double 0.29) <= fadeProgress timeLeft duration).
    { unfold fadeProgress. apply double_mono. lra. }
    assert (Hc : double 0.7 < double (1 - double 0.29))
      by (vm_compute; reflexivity).
    lra.
Qed.

Lemma fadeOut_range_witness :
  let r := applyFadeOut 1 100 2000 (initialWorld (steadyHost 1900)) in
  - (1 # 4503599627370496) <= r.1 /\ r.1 < 1.
Proof.
  destruct (fadeOut_range 1 (initialWorld (steadyHost 1900)) 100 2000)
    as ((Hlow & _) & _ & Hlate & _); [reflexivity | reflexivity |].
  split; [exact Hlow|]. apply Hlate. vm_compute. discriminate.
Defined.

(** ** Scaling on large and on empty viewports *)

Lemma Math_round_mono (a b : Q) : a <= b -> Math_round a <= Math_round b.
Proof.
  intros H. unfold Math_round. rewrite <- Zle_Qle.
  apply Qfloor_resp_le. lra.
Qed.

Lemma scaled_integer_large (v s : Q) (z : Z) :
  v == inject_Z z -> (0 <= z)%Z -> 1 <= s -> double v == v ->
  Math_min (Math_round (double (v * s))) v == v.
Proof.
  intros Hv Hz Hs Hd.
  assert (H0 : 0 <= v) by (rewrite Hv; change 0 with (inject_Z 0); rewrite <- Zle_Qle; exact Hz).
  assert (Hle : v <= v * s).
  { rewrite <- (Qmult_1_r v) at 1. rewrite !(Qmult_comm v).
    apply Qmult_le_compat_r; assumption. }
  assert (Hle' : v <= double (v * s)).
  { rewrite <- Hd at 1. apply double_mono, Hle. }
  assert (Hr : v <= Math_round (double (v * s))).
  { eapply Qle_trans; [|apply Math_round_mono, Hle'].
    rewrite (Math_round_proper _ _ Hv), Math_round_integer, Hv. apply Qle_refl. }
  unfold Math_min. apply Q.min_r. exact Hr.
Qed.

(** X4. On a viewport whose [avgScale] is at least 1, every field whose
    value is a natural number is left unchanged by
    [updateScalingFactors]. *)
Theorem scaling_keeps_on_large_viewports (options : option opts.t)
    (innerWidth innerHeight : Q)
    (Hlarge : 1 <= avgScale innerWidth innerHeight) :
  Forall2 (fun v r => (exists z : Z, v == inject_Z z /\ (0 <= z)%Z) -> r == v)
    (scalingFields (scalingDefaults options))
    (scalingFields (updateScalingFactors options innerWidth innerHeight)).
Proof.
  unfold scalingFields, updateScalingFactors; cbn.
  repeat constructor; intros (z & Hv & Hz);
    (eapply scaled_integer_large; [exact Hv | exact Hz | exact Hlarge |]);
    apply double_idem.
Qed.

Lemma scaling_keeps_on_large_viewports_witness :
  scaling.particleCount (updateScalingFactors None 1920 1080) == 150.
Proof.
  assert (Hlarge : 1 <= avgScale 1920 1080) by (vm_compute; discriminate).
  pose proof (scaling_keeps_on_large_viewports None 1920 1080 Hlarge) as H.
  pose proof (Forall2_lookup_lr _ _ _ 1%nat _ _ H
                (scalingFields_particleCount _) (scalingFields_particleCount _))
    as Hcount.
  assert (Hd : scaling.particleCount (scalingDefaults None) = 150)
    by (vm_compute; reflexivity).
  rewrite Hd in Hcount. apply Hcount. exists 150%Z. split; [reflexivity | lia].
Defined.

Lemma Math_round_nonneg (v : Q) : 0 <= v -> 0 <= Math_round v.
Proof.
  intros H. change 0 with (Math_round (inject_Z 0)) at 1.
  apply Math_round_mono. exact H.
Qed.

(** X5. On a viewport of non-negative width and height, a non-negative
    field stays non-negative; on a viewport of width and height 0 it
    becomes 0 (no particle, no duration). *)
Theorem scaling_floor_is_zero (options : option opts.t)
    (innerWidth innerHeight : Q)
    (Hwidth : 0 <= innerWidth) (Hheight : 0 <= innerHeight) :
  Forall2 (fun v r => 0 <= v -> 0 <= r)
    (scalingFields (scalingDefaults options))
    (scalingFields (updateScalingFactors options innerWidth innerHeight))
  /\ Forall2 (fun v r => 0 <= v -> r == 0)
       (scalingFields (scalingDefaults options))
       (scalingFields (updateScalingFactors options 0 0)).
Proof.
  assert (Havg : 0 <= avgScale innerWidth innerHeight).
  { unfold avgScale. cbv zeta.
    assert (0 <= double (innerWidth / 1200))
      by (apply double_nonneg, Qle_shift_div_l; [reflexivity | lra]).
    assert (0 <= double (innerHeight / 800))
      by (apply double_nonneg, Qle_shift_div_l; [reflexivity | lra]).
    apply double_nonneg, Qle_shift_div_l; [reflexivity|].
    rewrite Qmult_0_l. apply double_nonneg. lra. }
  assert (Hnn : forall v, 0 <= v ->
    0 <= Math_min (Math_round (double (v * avgScale innerWidth innerHeight))) v).
  { intros v Hv. unfold Math_min. apply Q.min_glb; [|exact Hv].
    apply Math_round_nonneg, double_nonneg, Qmult_le_0_compat; assumption. }
  assert (Hzero : forall v, 0 <= v ->
    Math_min (Math_round (double (v * avgScale 0 0))) v == 0).
  { intros v Hv.
    assert (H0 : avgScale 0 0 = 0) by (vm_compute; reflexivity).
    assert (Hr : Math_round (double (v * avgScale 0 0)) = 0).
    { rewrite H0, (double_proper (v * 0) 0) by ring. vm_compute. reflexivity. }
    rewrite Hr. unfold Math_min. apply Q.min_l. exact Hv. }
  split; unfold scalingFields, updateScalingFactors; cbn;
    repeat constructor; auto.
Qed.

Lemma scaling_floor_is_zero_witness :
  scaling.particleCount (updateScalingFactors None 0 0) == 0.
Proof.
  destruct (scaling_floor_is_zero None 0 0) as [_ H];
    [apply Qle_refl | apply Qle_refl |].
  pose proof (Forall2_lookup_lr _ _ _ 1%nat _ _ H
                (scalingFields_particleCount _) (scalingFields_particleCount _))
    as Hcount.
  apply Hcount. vm_compute. discriminate.
Defined.

(** ** The bookkeeping of the hook is kept by every event *)

Lemma kept_invoke_gate w :
  kept (invoke CbGateOnStop w)
  = {| view.host := view.host (kept w); view.timers := view.timers (kept w);
       view.hook :=
         hook.mk None (hook.debounceTimerRef (view.hook (kept w))) false;
       view.calls := view.calls (kept w); view.body := view.body (kept w);
       view.cores := view.cores (kept w) |}.
Proof. reflexivity. Qed.

Lemma kept_hook w : view.hook (kept w) = world.hook w.
Proof. reflexivity. Qed.

Lemma kept_body w : view.body (kept w) = document.body (world.document w).
Proof. reflexivity. Qed.

Lemma kept_calls w : view.calls (kept w) = world.calls w.
Proof. reflexivity. Qed.

Lemma gated_kept (w w' : world.t) : kept w' = kept w -> gated w -> gated w'.
Proof. unfold gated. intros ->. trivial. Qed.

Lemma Gated_timers n p n' p' hk calls body cores :
  (forall id due j, p' !! id = Some (due, CleanupCb j) ->
                    p !! id = Some (due, CleanupCb j)) ->
  Gated (timers.mk n p) hk calls body cores ->
  Gated (timers.mk n' p') hk calls body cores.
Proof.
  intros Hsub [H1 H2 H3 H4 H5 H6 H7]. split; try assumption.
  intros id due j H. apply Hsub in H. eapply H7, H.
Qed.

Lemma Gated_debounceTimerRef t hk v calls body cores :
  Gated t hk calls body cores ->
  Gated t (hook.set_debounceTimerRef v hk) calls body cores.
Proof. intros [H1 H2 H3 H4 H5 H6 H7]. split; assumption. Qed.

Lemma gated_clearTimeout id w : gated w -> gated (clearTimeout id w).
Proof.
  unfold gated, clearTimeout, kept. cbn.
  destruct (world.timers w) as [n p]. apply Gated_timers.
  intros id' due j H. apply lookup_delete_Some in H as [_ H]. exact H.
Qed.

Lemma gated_fireConfetti options w : gated w -> gated (fireConfetti options w).
Proof.
  intros H. unfold fireConfetti, setTimeout.
  assert (Hc : gated (match hook.debounceTimerRef (world.hook w) with
                      | Some id => clearTimeout id w
                      | None => w
                      end)).
  { destruct (hook.debounceTimerRef (world.hook w)); [apply gated_clearTimeout|]; exact H. }
  revert Hc. generalize (match hook.debounceTimerRef (world.hook w) with
                         | Some id => clearTimeout id w
                         | None => w
                         end). clear H. intros w1 H.
  unfold gated, kept in *. cbn in *.
  apply Gated_debounceTimerRef.
  destruct (world.timers w1) as [n p]. cbn.
  eapply Gated_timers; [|exact H].
  intros id due j Hl. rewrite lookup_insert in Hl.
  destruct (decide (n = id)); [discriminate | exact Hl].
Qed.

(** Stopping the referenced burst. *)
Lemma gated_cleanup this w :
  gated w -> hook.activeInstancesRef (world.hook w) = Some this ->
  gated (cleanup this w)
  /\ hook.activeInstancesRef (world.hook (cleanup this w)) = None
  /\ hook.isActive (world.hook (cleanup this w)) = false
  /\ document.body (world.document (cleanup this w)) = []
  /\ (exists b, world.bursts w !! this = Some b
        /\ world.bursts (cleanup this w) !! this
           = Some (burst.mk ∅ None (burst.config b) None [])).
Proof.
  intros [H1 H2 H3 H4 H5 H6 H7] Href.
  cbn [kept view.timers view.hook view.calls view.body view.cores] in *.
  destruct (H4 this Href) as (tid & c & container & Hcore & Hbody).
  rewrite list_lookup_fmap in Hcore.
  destruct (world.bursts w !! this) as [b|] eqn:Hb; [|discriminate].
  injection Hcore as Htid Hcfg Hcont.
  assert (Hstop : cfg.onStop (burst.config b) = CbGateOnStop).
  { apply (H2 this (burstCore b)). rewrite list_lookup_fmap, Hb. reflexivity. }
  rewrite (cleanup_eq _ _ _ Hb), Hstop.
  pose proof (kept_teardown _ _ _ Hb) as Hk.
  rewrite Hcont, Htid, Hbody in Hk.
  assert (Hfilter : filter (fun k => k ≠ container) [container] = []).
  { rewrite filter_cons_False by (intros H; apply H; reflexivity). reflexivity. }
  rewrite Hfilter in Hk.
  pose proof (kept_invoke_gate (teardown this b w)) as Hg. rewrite Hk in Hg.
  cbn [view.host view.timers view.hook view.calls view.body view.cores] in Hg.
  assert (Hlt : (this < length (burstCore <$> world.bursts w))%nat).
  { rewrite length_fmap. eapply lookup_lt_Some, Hb. }
  split; [|split; [|split; [|split]]].
  - unfold gated. rewrite Hg.
    cbn [view.host view.timers view.hook view.calls view.body view.cores].
    split; cbn [hook.activeInstancesRef hook.isActive timers.pending].
    + exact H1.
    + intros j core Hj.
      destruct (decide (j = this)) as [->|Hne].
      * rewrite list_lookup_insert_eq in Hj by exact Hlt.
        injection Hj as <-. cbn. exact Hstop.
      * rewrite list_lookup_insert_ne in Hj by congruence. eapply H2, Hj.
    + reflexivity.
    + discriminate.
    + reflexivity.
    + intros j core Hj Hne. exfalso.
      destruct (decide (j = this)) as [->|Hjne].
      * rewrite list_lookup_insert_eq in Hj by exact Hlt.
        injection Hj as <-. apply Hne. reflexivity.
      * rewrite list_lookup_insert_ne in Hj by congruence.
        pose proof (H6 j core Hj Hne) as Hj'. congruence.
    + intros id due j Hp. exfalso.
      assert (Hp0 : timers.pending (world.timers w) !! id = Some (due, CleanupCb j)).
      { destruct tid as [t|]; [|exact Hp].
        apply lookup_delete_Some in Hp as [_ Hp]. exact Hp. }
      destruct (H7 id due j Hp0) as (Hj & c' & k' & Hcj).
      assert (j = this) by congruence. subst j.
      rewrite list_lookup_fmap, Hb in Hcj. injection Hcj as Ht' _ _.
      subst tid. rewrite Ht' in Hp.
      rewrite lookup_delete_eq in Hp. discriminate.
  - rewrite <- (kept_hook (invoke _ _)), Hg. reflexivity.
  - rewrite <- (kept_hook (invoke _ _)), Hg. reflexivity.
  - rewrite <- (kept_body (invoke _ _)), Hg. reflexivity.
  - exists b. split; [reflexivity|].
    rewrite invoke_bursts. apply teardown_burst, Hb.
Qed.

Lemma set_hook_same (w : world.t) : world.set_hook (world.hook w) w = w.
Proof. destruct w. reflexivity. Qed.

Lemma set_activeInstancesRef_None (hk : hook.t) :
  hook.activeInstancesRef hk = None -> hook.set_activeInstancesRef None hk = hk.
Proof. destruct hk. cbn. intros ->. reflexivity. Qed.

Lemma gated_stopExisting w :
  gated w ->
  gated (stopExisting w)
  /\ hook.activeInstancesRef (world.hook (stopExisting w)) = None.
Proof.
  intros H. unfold stopExisting, stop.
  destruct (hook.activeInstancesRef (world.hook w)) as [this|] eqn:Href.
  - destruct (gated_cleanup this w H Href) as (Hg & Hnone & _).
    rewrite (set_activeInstancesRef_None _ Hnone), set_hook_same.
    split; assumption.
  - split; assumption.
Qed.

Lemma gated_debounced options w : gated w -> gated (debounced options w).
Proof.
  intros H. destruct (gated_stopExisting w H) as [[H1 H2 H3 H4 H5 H6 H7] Hnone].
  unfold gated. rewrite kept_debounced.
  cbn [view.timers view.hook view.calls view.body view.cores] in *.
  rewrite kept_hook in *. rewrite kept_body, kept_calls, kept_timers in *.
  set (wa := stopExisting w) in *.
  set (cores := view.cores (kept wa)) in *.
  assert (Hlen : length (world.bursts wa) = length cores).
  { subst cores. cbn. rewrite length_fmap. reflexivity. }
  rewrite (H5 Hnone).
  split; cbn [hook.activeInstancesRef hook.isActive timers.pending].
  - exact H1.
  - intros j core Hj. apply lookup_app_Some in Hj as [Hj|[_ Hj]].
    + eapply H2, Hj.
    + destruct (j - length cores)%nat; [|discriminate].
      injection Hj as <-. reflexivity.
  - reflexivity.
  - intros this [= <-]. eexists _, _, _. split; [|reflexivity].
    rewrite Hlen. apply list_lookup_middle. reflexivity.
  - discriminate.
  - intros j core Hj Hne. apply lookup_app_Some in Hj as [Hj|[Hge Hj]].
    + pose proof (H6 j core Hj Hne) as Hbad. congruence.
    + destruct (j - length cores)%nat eqn:E; [|discriminate].
      f_equal. lia.
  - intros id due j Hp. rewrite lookup_insert in Hp.
    destruct (decide (timers.next (world.timers wa) = id)) as [<-|Hne].
    + injection Hp as _ <-. split; [reflexivity|].
      eexists _, _. rewrite Hlen. apply list_lookup_middle. reflexivity.
    + destruct (H7 id due j Hp) as [Hbad _]. congruence.
Qed.

Lemma gated_runTimeout id w : gated w -> gated (runTimeout id w).
Proof.
  intros H. unfold runTimeout.
  destruct (timers.pending (world.timers w) !! id) as [[due cb]|] eqn:Hp; [|exact H].
  destruct (Qleb due _); [|exact H].
  destruct cb as [this|o]; cbn [runCallback].
  - assert (Href : hook.activeInstancesRef (world.hook w) = Some this).
    { destruct H as [_ _ _ _ _ _ H7]. eapply H7. rewrite kept_timers. exact Hp. }
    apply (gated_cleanup this (clearTimeout id w)).
    + apply gated_clearTimeout, H.
    + exact Href.
  - apply gated_debounced, gated_clearTimeout, H.
Qed.

Lemma gated_exec e w : gated w -> gated (exec e w).
Proof.
  intros H. destruct e; cbn [exec].
  - apply gated_fireConfetti, H.
  - unfold stopConfetti, stop.
    destruct (hook.activeInstancesRef (world.hook w)) as [this|] eqn:Href; [|exact H].
    apply (gated_cleanup this w H Href).
  - apply gated_runTimeout, H.
  - eapply gated_kept; [apply kept_runFrame | exact H].
  - unfold hostMoves. destruct (Qleb _ _); exact H.
Qed.

Lemma gated_run events w : gated w -> gated (run events w).
Proof.
  revert w. induction events as [|e events IH]; intros w H; [exact H|].
  apply IH, gated_exec, H.
Qed.

Lemma gated_initialWorld h : gated (initialWorld h).
Proof.
  split; cbn; try reflexivity; discriminate.
Qed.

(** Every world the event loop can reach keeps the bookkeeping. *)
Lemma reachable_gated h0 events : gated (run events (initialWorld h0)).
Proof. apply gated_run, gated_initialWorld. Qed.

(** ** What the hook guarantees in every reachable world *)

(** X6. Whatever options the calls of [fireConfetti] carried, a caller's
    [onStop] among them, no function of a caller is ever called: every
    burst the hook builds carries the hook's own [onStop]. *)
Theorem caller_onStop_never_called (h0 : host.t) (events : list Event) :
  let w := run events (initialWorld h0) in
  world.calls w = []
  /\ forall this b, world.bursts w !! this = Some b ->
       cfg.onStop (burst.config b) = CbGateOnStop.
Proof.
  destruct (reachable_gated h0 events) as [H1 H2 _ _ _ _ _].
  split; [exact H1|].
  intros this b Hb. apply (H2 this (burstCore b)).
  rewrite kept_cores, list_lookup_fmap, Hb. reflexivity.
Qed.

(** X7. [isActive] is true exactly while the hook references a burst,
    and that burst then holds the one container under the body; while
    [isActive] is false nothing is under the body and no teardown timeout
    is pending. *)
Theorem isActive_tracks_the_burst (h0 : host.t) (events : list Event) :
  let w := run events (initialWorld h0) in
  (hook.isActive (world.hook w) = true ->
     exists this b container,
       hook.activeInstancesRef (world.hook w) = Some this
       /\ world.bursts w !! this = Some b
       /\ burst.container b = Some container
       /\ document.body (world.document w) = [container])
  /\ (hook.isActive (world.hook w) = false ->
        hook.activeInstancesRef (world.hook w) = None
        /\ document.body (world.document w) = []
        /\ forall id due this,
             timers.pending (world.timers w) !! id <> Some (due, CleanupCb this)).
Proof.
  cbv zeta. set (w := run events (initialWorld h0)).
  destruct (reachable_gated h0 events) as [_ _ H3 H4 H5 _ H7]. fold w in H3, H4, H5, H7.
  rewrite kept_hook in *. rewrite kept_body, kept_cores in *. rewrite kept_timers in H7.
  destruct (hook.activeInstancesRef (world.hook w)) as [this|] eqn:Href.
  - split; [|congruence]. intros _.
    destruct (H4 this eq_refl) as (tid & c & container & Hcore & Hbody).
    rewrite list_lookup_fmap in Hcore.
    destruct (world.bursts w !! this) as [b|] eqn:Hb; [|discriminate].
    injection Hcore as _ _ Hcont.
    exists this, b, container. repeat split; assumption.
  - split; [congruence|]. intros _. split; [reflexivity|]. split; [auto|].
    intros id due this Hp. destruct (H7 id due this Hp) as [Hbad _]. discriminate.
Qed.

(** X8. At most one container is under the body, only the referenced
    burst holds a container, and at most one teardown timeout is
    pending, which is the one the referenced burst recorded. *)
Theorem single_flight (h0 : host.t) (events : list Event) :
  let w := run events (initialWorld h0) in
  (length (document.body (world.document w)) <= 1)%nat
  /\ (forall this b container,
        world.bursts w !! this = Some b -> burst.container b = Some container ->
        hook.activeInstancesRef (world.hook w) = Some this
        /\ document.body (world.document w) = [container])
  /\ (forall id due this,
        timers.pending (world.timers w) !! id = Some (due, CleanupCb this) ->
        hook.activeInstancesRef (world.hook w) = Some this
        /\ exists b, world.bursts w !! this = Some b
             /\ burst.cleanupTimeoutId b = Some id).
Proof.
  cbv zeta. set (w := run events (initialWorld h0)).
  destruct (reachable_gated h0 events) as [_ _ _ H4 H5 H6 H7].
  fold w in H4, H5, H6, H7.
  rewrite kept_hook in *. rewrite kept_body, kept_cores in *. rewrite kept_timers in H7.
  split; [|split].
  - destruct (hook.activeInstancesRef (world.hook w)) as [this|].
    + destruct (H4 this eq_refl) as (_ & _ & c & _ & ->). cbn. lia.
    + rewrite H5 by reflexivity. cbn. lia.
  - intros this b container Hb Hc.
    assert (Href : hook.activeInstancesRef (world.hook w) = Some this).
    { apply (H6 this (burstCore b)).
      - rewrite list_lookup_fmap, Hb. reflexivity.
      - cbn. rewrite Hc. discriminate. }
    split; [exact Href|].
    destruct (H4 this Href) as (tid & c & k & Hcore & Hbody).
    rewrite list_lookup_fmap, Hb in Hcore. injection Hcore as _ _ Hk.
    rewrite Hbody. congruence.
  - intros id due this Hp. destruct (H7 id due this Hp) as (Href & c & k & Hcore).
    split; [exact Href|].
    rewrite list_lookup_fmap in Hcore.
    destruct (world.bursts w !! this) as [b|]; [|discriminate].
    exists b. split; [reflexivity|]. injection Hcore as Ht _ _. exact Ht.
Qed.

(** X9. [stopConfetti()] in any reachable world leaves no burst
    referenced, [isActive] false, nothing under the body and no teardown
    timeout pending; with no burst referenced it changes nothing. *)
Theorem stopConfetti_deactivates (h0 : host.t) (events : list Event) :
  let w := run events (initialWorld h0) in
  let w' := stopConfetti w in
  hook.activeInstancesRef (world.hook w') = None
  /\ hook.isActive (world.hook w') = false
  /\ document.body (world.document w') = []
  /\ (forall id due this,
        timers.pending (world.timers w') !! id <> Some (due, CleanupCb this))
  /\ (hook.activeInstancesRef (world.hook w) = None -> w' = w).
Proof.
  cbv zeta. set (w := run events (initialWorld h0)).
  pose proof (reachable_gated h0 events) as Hg. fold w in Hg.
  unfold stopConfetti, stop.
  destruct (hook.activeInstancesRef (world.hook w)) as [this|] eqn:Href.
  - destruct (gated_cleanup this w Hg Href) as (Hg' & Hnone & Hact & Hbody & _).
    split; [exact Hnone|]. split; [exact Hact|]. split; [exact Hbody|].
    split; [|discriminate].
    intros id due j Hp. destruct Hg' as [_ _ _ _ _ _ H7].
    rewrite kept_timers, kept_hook in H7.
    destruct (H7 id due j Hp) as [Hbad _]. congruence.
  - destruct Hg as [_ _ H3 _ H5 _ H7].
    rewrite kept_hook in *. rewrite kept_body in H5. rewrite kept_timers in H7.
    split; [exact Href|]. split; [rewrite H3, Href; reflexivity|].
    split; [apply H5, Href|]. split; [|reflexivity].
    intros id due j Hp. destruct (H7 id due j Hp) as [Hbad _]. congruence.
Qed.

(** X10. When a pending teardown timeout is due and runs, in any
    reachable world: the burst it belongs to holds nothing any more, no
    burst is referenced, [isActive] is false, nothing is under the body,
    and the timeout is gone. *)
Theorem teardown_timeout_deactivates (h0 : host.t) (events : list Event)
    (id : positive) (due : Q) (this : nat) :
  let w := run events (initialWorld h0) in
  forall (Hpending : timers.pending (world.timers w) !! id = Some (due, CleanupCb this))
         (Hdue : due <= host.now (world.host w)),
  let w' := runTimeout id w in
  (exists b, world.bursts w !! this = Some b
     /\ world.bursts w' !! this = Some (burst.mk ∅ None (burst.config b) None []))
  /\ hook.activeInstancesRef (world.hook w') = None
  /\ hook.isActive (world.hook w') = false
  /\ document.body (world.document w') = []
  /\ timers.pending (world.timers w') !! id = None.
Proof.
  cbv zeta. set (w := run events (initialWorld h0)). intros Hp Hdue.
  pose proof (reachable_gated h0 events) as Hg. fold w in Hg.
  assert (Href : hook.activeInstancesRef (world.hook w) = Some this).
  { destruct Hg as [_ _ _ _ _ _ H7]. rewrite kept_timers, kept_hook in H7.
    eapply H7, Hp. }
  unfold runTimeout. rewrite Hp. apply Qleb_le in Hdue. rewrite Hdue.
  cbn [runCallback].
  destruct (gated_cleanup this (clearTimeout id w)
              (gated_clearTimeout id w Hg) Href)
    as (_ & Hnone & Hact & Hbody & Hb).
  split; [exact Hb|]. split; [exact Hnone|]. split; [exact Hact|].
  split; [exact Hbody|].
  destruct (cleanup_facts this (clearTimeout id w)) as (_ & _ & _ & _ & Hsub & _).
  destruct (timers.pending (world.timers (cleanup this (clearTimeout id w))) !! id)
    as [entry|] eqn:E; [|reflexivity].
  apply Hsub in E. cbn in E. rewrite lookup_delete_eq in E. discriminate.
Qed.

Lemma teardown_timeout_deactivates_witness :
  let w := run oneBurstElapsed (initialWorld (steadyHost 0)) in
  timers.pending (world.timers w) !! 2%positive = Some (2200, CleanupCb 0)
  /\ 2200 <= host.now (world.host w)
  /\ hook.isActive (world.hook w) = true
  /\ hook.isActive (world.hook (runTimeout 2 w)) = false
  /\ document.body (world.document (runTimeout 2 w)) = [].
Proof.
  intros w.
  assert (Hp : timers.pending (world.timers w) !! 2%positive
               = Some (2200, CleanupCb 0)) by (vm_compute; reflexivity).
  assert (Hdue : 2200 <= host.now (world.host w)) by (vm_compute; discriminate).
  destruct (teardown_timeout_deactivates (steadyHost 0) oneBurstElapsed
              2 2200 0 Hp Hdue) as (_ & _ & Hact & Hbody & _).
  split; [exact Hp|]. split; [exact Hdue|].
  split; [vm_compute; reflexivity|]. split; [exact Hact | exact Hbody].
Defined.

(** X11. In any reachable world with the debounce armed, an event that
    is neither a call of [fireConfetti] nor the armed timeout itself
    leaves it armed, same due time and same options: [stopConfetti()],
    the frames and the teardown of a burst do not cancel a pending
    start. *)
Theorem pending_start_survives (h0 : host.t) (past : list Event) (e : Event)
    (id : positive) (due : Q) (options : option opts.t) :
  let w := run past (initialWorld h0) in
  forall (Harmed : armed w id due options)
         (Hcall : forall o, e <> EvFireConfetti o)
         (Hself : e <> EvTimeout id),
  armed (exec e w) id due options.
Proof.
  cbv zeta. set (w := run past (initialWorld h0)). intros [Href Hpend] Hcall Hself.
  assert (Hwt : wellTimed w) by apply wellTimed_run, wellTimed_initialWorld.
  assert (Hcleanup : forall w0 this,
    wellTimed w0 ->
    hook.debounceTimerRef (world.hook w0) = Some id ->
    timers.pending (world.timers w0) !! id = Some (due, DebounceCb options) ->
    armed (cleanup this w0) id due options).
  { intros w0 this Hwt0 Href0 Hpend0.
    destruct (cleanup_facts this w0) as (_ & _ & _ & H4 & _ & H6).
    unfold armed. rewrite H4, H6; [split; assumption|].
    intros b Hb Hid.
    destruct (wt_burst _ _ _ Hwt0 this id) as [_ Hno].
    - rewrite list_lookup_fmap, Hb. cbn. rewrite Hid. reflexivity.
    - eapply Hno, Hpend0. }
  destruct e as [o| |tid|fid|h]; cbn [exec].
  - exfalso. eapply Hcall. reflexivity.
  - unfold stopConfetti, stop.
    destruct (hook.activeInstancesRef (world.hook w)); [|split; assumption].
    apply Hcleanup; assumption.
  - assert (Hne : tid <> id) by congruence.
    unfold runTimeout.
    destruct (timers.pending (world.timers w) !! tid) as [[due' cb]|] eqn:Htid;
      [|split; assumption].
    destruct (Qleb due' _); [|split; assumption].
    destruct cb as [this|o']; cbn [runCallback].
    + apply Hcleanup.
      * apply wellTimed_clearTimeout, Hwt.
      * exact Href.
      * cbn. rewrite lookup_delete_ne by exact Hne. exact Hpend.
    + exfalso. pose proof (wt_debounce _ _ _ Hwt _ _ _ Htid) as Hsame. congruence.
  - unfold armed.
    rewrite <- (kept_hook (runFrame fid w)), <- (kept_timers (runFrame fid w)).
    rewrite kept_runFrame. split; assumption.
  - unfold hostMoves. destruct (Qleb _ _); split; assumption.
Qed.

Lemma pending_start_survives_witness :
  let w := run secondCallPending (initialWorld (steadyHost 0)) in
  armed w 3 (300 + 200) None
  /\ hook.isActive (world.hook w) = true
  /\ armed (exec EvStopConfetti w) 3 (300 + 200) None
  /\ hook.isActive (world.hook (exec EvStopConfetti w)) = false.
Proof.
  intros w.
  assert (Ha : armed w 3 (300 + 200) None).
  { split; vm_compute; reflexivity. }
  split; [exact Ha|]. split; [vm_compute; reflexivity|]. split.
  - apply (pending_start_survives (steadyHost 0) secondCallPending EvStopConfetti
             3 (300 + 200) None Ha); discriminate.
  - vm_compute. reflexivity.
Defined.

(** ** What [fire] builds *)

Lemma animateParticle_closure this c particle startX startY angle w :
  exists a,
    world.anims (animateParticle this c particle startX startY angle w)
    = <[particle := a]> (world.anims w)
    /\ launchedAt this c (world.host w) startX startY a.
Proof.
  unfold animateParticle, Math_random, requestAnimationFrame, with_burst.
  cbv beta iota zeta.
  eexists. split; [reflexivity|].
  unfold launchedAt;
    cbn [anim.owner anim.duration anim.bounceCount anim.endTime anim.rotation
         anim.x anim.y anim.vy anim.wind anim.bounces anim.isSettling
         world.host world.drawn world.set_drawn].
  split; [reflexivity|]. split; [reflexivity|]. split; [reflexivity|].
  split; [reflexivity|]. split; [reflexivity|]. split; [reflexivity|].
  split; [apply (Qopp_le_compat 0); apply Qabs_nonneg|].
  split; [reflexivity|]. split; [reflexivity|]. split; [reflexivity|].
  split; eexists; reflexivity.
Qed.

Lemma createParticlesTurn_closure this c centerX startY fragment w :
  exists a,
    world.anims (createParticlesTurn this c centerX startY fragment w).2
    = <[document.next (world.document w) := a]> (world.anims w)
    /\ launchedNear this c (world.host w) centerX startY a.
Proof.
  unfold createParticlesTurn.
  destruct (createParticle c w) as [particle w1] eqn:E1.
  assert (world.anims w1 = world.anims w /\ world.host w1 = world.host w)
    as [Hanims Hhost].
  { change w1 with (particle, w1).2. rewrite <- E1. split; reflexivity. }
  assert (particle = document.next (world.document w)) as ->.
  { change (document.next (world.document w)) with (createParticle c w).1.
    rewrite E1. reflexivity. }
  clear E1. unfold Math_random. cbv beta iota zeta. cbn [snd].
  match goal with
  | |- context [animateParticle ?t ?c ?p ?x ?y ?g ?w0] =>
      destruct (animateParticle_closure t c p x y g w0) as (a & Ha & Hl)
  end.
  exists a. rewrite Ha.
  cbn [with_burst setStyle world.anims world.host world.drawn world.set_bursts
       world.set_document world.set_drawn] in Hl |- *.
  rewrite Hhost in Hl. rewrite Hanims.
  split; [reflexivity|]. eexists. exact Hl.
Qed.

Lemma createParticlesTurn_effect this c centerX startY fragment w b :
  world.bursts w !! this = Some b ->
  let p := document.next (world.document w) in
  let n := raf.next (world.raf w) in
  let r := createParticlesTurn this c centerX startY fragment w in
  r.1 = fragment ++ [p]
  /\ world.bursts r.2 !! this
     = Some (burst.set_animationIds (insert p n)
               (burst.set_particles (fun l => l ++ [p]) b))
  /\ document.next (world.document r.2) = S p
  /\ document.body (world.document r.2) = document.body (world.document w)
  /\ (forall e, e <> p ->
        document.nodes (world.document r.2) !! e
        = document.nodes (world.document w) !! e)
  /\ world.raf r.2 = raf.mk (Pos.succ n) (<[n := p]> (raf.pending (world.raf w)))
  /\ world.host r.2 = world.host w.
Proof.
  intros Hb p n r. subst r p n.
  unfold createParticlesTurn, animateParticle, with_burst; cbn.
  split; [reflexivity|]. split.
  { rewrite !list_lookup_alter_eq, Hb. reflexivity. }
  split; [reflexivity|]. split; [reflexivity|]. split.
  { intros e He. rewrite !lookup_alter_ne by congruence.
    apply lookup_insert_ne. congruence. }
  split; reflexivity.
Qed.

Lemma built_nil this c centerX startY w b :
  built this c centerX startY w b [] w b.
Proof.
  split; try reflexivity; try (intros; reflexivity).
  - symmetry. apply app_nil_r.
  - intros p id H. right. exact H.
  - constructor.
  - constructor.
  - constructor.
Qed.

Lemma built_cons this c centerX startY w b a w1 news w' b' :
  let p := document.next (world.document w) in
  let n := raf.next (world.raf w) in
  let b1 := burst.set_animationIds (insert p n)
              (burst.set_particles (fun l => l ++ [p]) b) in
  document.next (world.document w1) = S p ->
  document.body (world.document w1) = document.body (world.document w) ->
  (forall e, e <> p ->
     document.nodes (world.document w1) !! e
     = document.nodes (world.document w) !! e) ->
  world.raf w1 = raf.mk (Pos.succ n) (<[n := p]> (raf.pending (world.raf w))) ->
  world.anims w1 = <[p := a]> (world.anims w) ->
  launchedNear this c (world.host w) centerX startY a ->
  world.host w1 = world.host w ->
  built this c centerX startY w1 b1 news w' b' ->
  built this c centerX startY w b (p :: news) w' b'.
Proof.
  intros p n b1 Hd Hbody Hn Hr Ha Hl Hh
    [Kparticles Kcontainer Khost Knext Kbody
     Kraf Knodes Kanims Kids Kpending
     Konly Kfresh Knodup Keach].
  rewrite Hd in *. rewrite Hr in *. rewrite Ha in *. rewrite Hh in *.
  cbn [raf.next raf.pending] in *.
  assert (Hp : p ∉ news).
  { intros Hin. rewrite Forall_forall in Kfresh.
    specialize (Kfresh _ Hin). lia. }
  split.
  - rewrite Kparticles. subst b1. cbn. rewrite <- app_assoc. reflexivity.
  - rewrite Kcontainer. reflexivity.
  - exact Khost.
  - fold p. lia.
  - rewrite Kbody. exact Hbody.
  - fold n. lia.
  - fold p. intros e He. rewrite Knodes by lia. apply Hn. lia.
  - fold p. intros e He. rewrite Kanims by lia.
    apply lookup_insert_ne. lia.
  - fold p. intros e He. rewrite Kids by lia. subst b1. cbn.
    apply lookup_insert_ne. lia.
  - fold n. intros id Hid. rewrite Kpending by lia.
    apply lookup_insert_ne. lia.
  - intros q id Hq. destruct (Konly q id Hq) as [Hin|Hq1].
    + left. apply list_elem_of_further. exact Hin.
    + subst b1. cbn in Hq1. destruct (decide (q = p)) as [->|Hne].
      * left. apply list_elem_of_here.
      * right. rewrite lookup_insert_ne in Hq1 by congruence. exact Hq1.
  - constructor; [fold p; lia|].
    eapply Forall_impl; [exact Kfresh|]. cbn. intros; fold p; lia.
  - constructor; assumption.
  - constructor; [|exact Keach]. split.
    + exists n. split.
      * rewrite Kids by lia. subst b1. cbn. apply lookup_insert_eq.
      * rewrite Kpending by lia. apply lookup_insert_eq.
    + exists a. split; [|exact Hl].
      rewrite Kanims by lia. apply lookup_insert_eq.
Qed.

Lemma createParticlesLoop_built fuel this c centerX startY i fragment w b :
  world.bursts w !! this = Some b ->
  let r := createParticlesLoop fuel this c centerX startY i fragment w in
  exists news b',
    r.1 = fragment ++ news
    /\ world.bursts r.2 !! this = Some b'
    /\ built this c centerX startY w b news r.2 b'.
Proof.
  revert i fragment w b.
  induction fuel as [|fuel IH]; intros i fragment w b Hb;
    cbn [createParticlesLoop].
  - exists [], b. rewrite app_nil_r. split; [reflexivity|].
    split; [exact Hb | apply built_nil].
  - destruct (Qltb i (cfg.particleCount c)).
    + destruct (createParticlesTurn_effect this c centerX startY fragment w b Hb)
        as (Hfrag & Hb1 & Hd & Hbody & Hn & Hr & Hh).
      destruct (createParticlesTurn_closure this c centerX startY fragment w)
        as (a & Ha & Hl).
      destruct (createParticlesTurn this c centerX startY fragment w) as [f1 w1].
      cbn [fst snd] in *.
      destruct (IH (i + 1) f1 w1 _ Hb1) as (news & b' & H1 & H2 & H3).
      exists (document.next (world.document w) :: news), b'.
      split; [rewrite H1, Hfrag, <- app_assoc; reflexivity|].
      split; [exact H2|].
      exact (built_cons this c centerX startY w b a w1 news _ b'
               Hd Hbody Hn Hr Ha Hl Hh H3).
    + exists [], b. rewrite app_nil_r. split; [reflexivity|].
      split; [exact Hb | apply built_nil].
Qed.

Lemma createParticles_built this w b container nd :
  world.bursts w !! this = Some b ->
  burst.container b = Some container ->
  (container < document.next (world.document w))%nat ->
  document.nodes (world.document w) !! container = Some nd ->
  let w' := createParticles this w in
  let c := burst.config b in
  exists news b' centerX,
    world.bursts w' !! this = Some b'
    /\ (if cfg.randomizeStart c
        then exists n,
          centerX = host.random (world.host w) n * host.innerWidth (world.host w)
        else centerX = host.innerWidth (world.host w) / 2)
    /\ burst.particles b' = burst.particles b ++ news
    /\ burst.container b' = Some container
    /\ document.nodes (world.document w') !! container
       = Some (node.mk (node.style nd) (node.childNodes nd ++ news))
    /\ document.body (world.document w') = document.body (world.document w)
    /\ world.host w' = world.host w
    /\ NoDup news
    /\ (forall p id, burst.animationIds b' !! p = Some id ->
          p ∈ news \/ burst.animationIds b !! p = Some id)
    /\ Forall (fun p =>
         driven w' b' p
         /\ exists a, world.anims w' !! p = Some a
              /\ launchedNear this c (world.host w) centerX
                   (host.innerHeight (world.host w) + cfg.spread c) a) news.
Proof.
  intros Hb Hc Hlt Hnd w' c. subst w' c. unfold createParticles. rewrite Hb, Hc.
  destruct (cfg.randomizeStart (burst.config b)); cbn;
    match goal with
    | |- context [createParticlesLoop ?n ?t ?c ?x ?y ?i ?f ?w0] =>
        destruct (createParticlesLoop_built n t c x y i f w0 b Hb)
          as (news & b' & Hf & Hb' & Hbuilt);
        destruct (createParticlesLoop n t c x y i f w0) as [fragment w1]
    end;
    cbn [fst snd] in Hf, Hb', Hbuilt; destruct Hbuilt as
      [Kparticles Kcontainer Khost Knext Kbody Kraf Knodes Kanims Kids
       Kpending Konly Kfresh Knodup Keach]; subst fragment;
    match type of Keach with
    | Forall (fun _ => _ /\ exists _, _ /\ launchedNear _ _ _ ?x _ _) _ =>
        exists news, b', x
    end;
    (split; [exact Hb'|]);
    (split; [try (eexists; reflexivity); reflexivity|]);
    (split; [exact Kparticles|]);
    (split; [congruence|]);
    (split; [cbn; rewrite lookup_alter_eq, Knodes by exact Hlt;
             refine (f_equal (fmap _) Hnd)|]);
    (split; [exact Kbody|]); (split; [exact Khost|]); (split; [exact Knodup|]);
    (split; [exact Konly|]); exact Keach.
Qed.

Lemma scheduleCleanup_rest this w b :
  world.bursts w !! this = Some b ->
  exists b', world.bursts (scheduleCleanup this w) !! this = Some b'
    /\ burst.particles b' = burst.particles b
    /\ burst.animationIds b' = burst.animationIds b
    /\ burst.container b' = burst.container b
    /\ world.document (scheduleCleanup this w) = world.document w
    /\ world.raf (scheduleCleanup this w) = world.raf w
    /\ world.anims (scheduleCleanup this w) = world.anims w.
Proof.
  intros Hb. unfold scheduleCleanup. rewrite Hb.
  destruct (burst.cleanupTimeoutId b); unfold with_burst; cbn;
    rewrite !list_lookup_alter_eq, Hb; cbn; eexists; repeat split.
Qed.

(** A burst without particles in [w], once fired. *)
Lemma fire_built this w b :
  world.bursts w !! this = Some b ->
  burst.particles b = [] ->
  burst.animationIds b = ∅ ->
  let w2 := fire this w in
  let container := document.next (world.document w) in
  let c := burst.config b in
  exists b2 nd centerX,
    world.bursts w2 !! this = Some b2
    /\ (if cfg.randomizeStart c
        then exists n,
          centerX = host.random (world.host w) n * host.innerWidth (world.host w)
        else centerX = host.innerWidth (world.host w) / 2)
    /\ burst.container b2 = Some container
    /\ document.body (world.document w2)
       = document.body (world.document w) ++ [container]
    /\ document.nodes (world.document w2) !! container = Some nd
    /\ node.childNodes nd = burst.particles b2
    /\ NoDup (burst.particles b2)
    /\ (forall p id, burst.animationIds b2 !! p = Some id ->
          p ∈ burst.particles b2)
    /\ Forall (fun p =>
         driven w2 b2 p
         /\ exists a, world.anims w2 !! p = Some a
              /\ launchedNear this c (world.host w) centerX
                   (host.innerHeight (world.host w) + cfg.spread c) a)
         (burst.particles b2).
Proof.
  intros Hb Hparticles Hids w2 container c. subst w2 c. unfold fire.
  assert (H1 : world.bursts (createContainer this w) !! this
               = Some (burst.set_container (Some container) b)).
  { unfold createContainer, with_burst; cbn.
    rewrite list_lookup_alter_eq, Hb. reflexivity. }
  destruct (createParticles_built this _ _ container
              (node.mk (style.set_cssText CssContainer style.empty) [])
              H1 eq_refl)
    as (news & b1 & centerX & Hb1 & Hcx & Hp1 & Hc1 & Hn1 & Hbody1 & Hh1 & Hnd
        & Honly & Heach).
  { cbn. lia. }
  { cbn. rewrite lookup_alter_eq, lookup_insert_eq. reflexivity. }
  destruct (scheduleCleanup_rest this _ _ Hb1)
    as (b2 & Hb2 & Hp2 & Hi2 & Hc2 & Hd2 & Hr2 & Ha2).
  cbn [burst.particles burst.set_container burst.animationIds burst.config]
    in Hp1, Honly, Heach, Hcx.
  rewrite Hparticles in Hp1. rewrite Hids in Honly. cbn [app] in Hp1.
  exists b2, (node.mk (style.set_cssText CssContainer style.empty) news), centerX.
  split; [exact Hb2|]. split; [exact Hcx|]. split; [congruence|].
  split; [rewrite Hd2, Hbody1; reflexivity|].
  split; [rewrite Hd2; exact Hn1|].
  split; [cbn; congruence|].
  rewrite Hp2, Hp1. split; [exact Hnd|]. split.
  - intros p id Hp. rewrite Hi2 in Hp.
    destruct (Honly p id Hp) as [Hin|Habs]; [exact Hin|].
    rewrite lookup_empty in Habs. discriminate.
  - eapply Forall_impl; [exact Heach|].
    intros p ((id & Hid & Hpend) & a & Ha & Hl). split.
    + exists id. rewrite Hi2, Hr2. split; assumption.
    + exists a. rewrite Ha2. split; [exact Ha | exact Hl].
Qed.

(** X12. [fire()] on a burst that holds no particle and records no frame
    (a new one, or one that has been cleaned up) puts one new container
    last under the body; the children of that container are exactly the
    particles of the collection, without repetition; the burst records a
    frame id for exactly these particles; and each recorded id is a
    pending request that will run the [update] of its particle. *)
Theorem fire_attaches_and_drives (this : nat) (w : world.t) (b : burst.t)
    (Hburst : world.bursts w !! this = Some b)
    (Hparticles : burst.particles b = [])
    (Hframes : burst.animationIds b = ∅) :
  exists b2 nd,
    world.bursts (fire this w) !! this = Some b2
    /\ burst.container b2 = Some (document.next (world.document w))
    /\ document.body (world.document (fire this w))
       = document.body (world.document w) ++ [document.next (world.document w)]
    /\ document.nodes (world.document (fire this w))
         !! document.next (world.document w) = Some nd
    /\ node.childNodes nd = burst.particles b2
    /\ NoDup (burst.particles b2)
    /\ (forall p, p ∈ burst.particles b2
                  <-> is_Some (burst.animationIds b2 !! p))
    /\ (forall p, p ∈ burst.particles b2 -> driven (fire this w) b2 p).
Proof.
  destruct (fire_built this w b Hburst Hparticles Hframes)
    as (b2 & nd & centerX & H1 & _ & H2 & H3 & H4 & H5 & H6 & H7 & H8).
  rewrite Forall_forall in H8.
  exists b2, nd. split; [exact H1|]. split; [exact H2|]. split; [exact H3|].
  split; [exact H4|]. split; [exact H5|]. split; [exact H6|]. split.
  - intros p. split.
    + intros Hin. destruct (H8 p Hin) as ((id & Hid & _) & _).
      exists id. exact Hid.
    + intros [id Hid]. exact (H7 p id Hid).
  - intros p Hin. exact (proj1 (H8 p Hin)).
Qed.

Lemma fire_attaches_and_drives_witness :
  exists b2,
    world.bursts (fire 0 (newConfettiBurst None (initialWorld (steadyHost 0))).2)
      !! 0%nat = Some b2
    /\ NoDup (burst.particles b2).
Proof.
  destruct (fire_attaches_and_drives 0
              (newConfettiBurst None (initialWorld (steadyHost 0))).2
              (burst.mk ∅ None (mkConfig None) None [])
              eq_refl eq_refl eq_refl)
    as (b2 & nd & H1 & _ & _ & _ & _ & H6 & _).
  exists b2. split; [exact H1 | exact H6].
Defined.

(** X13. After [new ConfettiBurst(options).fire()], every particle of the
    collection has a closure that belongs to the burst, starts at
    [innerHeight + spread] (below the bottom edge when [spread] is
    positive), moves up or not at all ([vy <= 0]), has counted no
    bounce, is not settling, is not rotated, and ends its life
    [duration] after the time of the call. *)
Theorem fire_launches_upward (options : option opts.t) (w0 : world.t) :
  exists b,
    world.bursts (fire (length (world.bursts w0)) (newConfettiBurst options w0).2)
      !! length (world.bursts w0) = Some b
    /\ forall p, p ∈ burst.particles b ->
         exists a,
           world.anims
             (fire (length (world.bursts w0)) (newConfettiBurst options w0).2)
             !! p = Some a
           /\ anim.owner a = length (world.bursts w0)
           /\ anim.y a
              = host.innerHeight (world.host w0) + cfg.spread (mkConfig options)
           /\ anim.vy a <= 0
           /\ anim.bounces a = 0
           /\ anim.isSettling a = false
           /\ anim.rotation a = 0
           /\ anim.endTime a
              = host.now (world.host w0) + cfg.duration (mkConfig options).
Proof.
  destruct (fire_built _ _ _ (newConfettiBurst_lookup options w0) eq_refl eq_refl)
    as (b & nd & centerX & H1 & _ & _ & _ & _ & _ & _ & _ & H8).
  rewrite Forall_forall in H8.
  exists b. split; [exact H1|].
  intros p Hin. destruct (H8 p Hin) as (_ & a & Ha & n & Hl).
  destruct Hl as (L1 & L2 & L3 & L4 & L5 & L6 & L7 & L8 & L9 & _).
  exists a. split; [exact Ha|]. split; [exact L1|]. split; [exact L6|].
  split; [exact L7|]. split; [exact L8|]. split; [exact L9|].
  split; [exact L5 | exact L4].
Qed.

(** ** The bookkeeping of frames *)

Lemma Framed_request r next next' anims idss ref p a o m :
  Framed r next anims idss ref ->
  idss !! o = Some m -> anim.owner a = o -> ref = Some o ->
  (p < next')%nat -> (next <= next')%nat ->
  (forall id, raf.pending r !! id <> Some p) ->
  Framed (raf.mk (Pos.succ (raf.next r)) (<[raf.next r := p]> (raf.pending r)))
    next' (<[p := a]> anims) (<[o := <[p := raf.next r]> m]> idss) ref.
Proof.
  intros [Ho Hq] Hm Ha Href Hp Hnext Hfree.
  assert (Hlen : (o < length idss)%nat) by (eapply lookup_lt_Some, Hm).
  split; cbn [raf.next raf.pending].
  - intros id q Hid. destruct (decide (id = raf.next r)) as [->|Hne].
    + rewrite lookup_insert_eq in Hid. injection Hid as <-.
      split; [lia|]. split; [exact Hp|].
      exists a, (<[p := raf.next r]> m). rewrite lookup_insert_eq, Ha.
      split; [reflexivity|]. split; [|apply lookup_insert_eq].
      apply list_lookup_insert_eq. exact Hlen.
    + rewrite lookup_insert_ne in Hid by congruence.
      destruct (Ho id q Hid) as (H1 & H2 & a' & m' & Ha' & Hm' & Hid').
      assert (q <> p) by (intros ->; exact (Hfree id Hid)).
      split; [lia|]. split; [lia|].
      rewrite lookup_insert_ne by congruence.
      destruct (decide (anim.owner a' = o)) as [Heq|Hneq].
      * exists a', (<[p := raf.next r]> m). split; [exact Ha'|].
        rewrite Heq. split; [apply list_lookup_insert_eq; exact Hlen|].
        rewrite lookup_insert_ne by congruence. congruence.
      * exists a', m'. split; [exact Ha'|].
        rewrite list_lookup_insert_ne by congruence. split; assumption.
  - intros j mj Hj Hne. destruct (decide (j = o)) as [->|Hjo]; [exact Href|].
    rewrite list_lookup_insert_ne in Hj by congruence. exact (Hq j mj Hj Hne).
Qed.

Lemma Framed_retire r next anims idss ref p o m :
  Framed r next anims idss ref ->
  idss !! o = Some m ->
  (forall id, raf.pending r !! id <> Some p) ->
  Framed r next anims (<[o := delete p m]> idss) ref.
Proof.
  intros [Ho Hq] Hm Hfree.
  assert (Hlen : (o < length idss)%nat) by (eapply lookup_lt_Some, Hm).
  split.
  - intros id q Hid.
    destruct (Ho id q Hid) as (H1 & H2 & a' & m' & Ha' & Hm' & Hid').
    assert (q <> p) by (intros ->; exact (Hfree id Hid)).
    split; [exact H1|]. split; [exact H2|].
    destruct (decide (anim.owner a' = o)) as [Heq|Hneq].
    + exists a', (delete p m). split; [exact Ha'|].
      rewrite Heq. split; [apply list_lookup_insert_eq; exact Hlen|].
      rewrite lookup_delete_ne by congruence. congruence.
    + exists a', m'. split; [exact Ha'|].
      rewrite list_lookup_insert_ne by congruence. split; assumption.
  - intros j mj Hj Hne. destruct (decide (j = o)) as [->|Hjo].
    + rewrite list_lookup_insert_eq in Hj by exact Hlen. injection Hj as <-.
      apply (Hq o m Hm). intros ->. apply Hne. apply delete_empty.
    + rewrite list_lookup_insert_ne in Hj by congruence. exact (Hq j mj Hj Hne).
Qed.

Lemma Framed_cancel r next anims idss ref id :
  Framed r next anims idss ref ->
  Framed (raf.mk (raf.next r) (delete id (raf.pending r))) next anims idss ref
  /\ forall p, raf.pending r !! id = Some p ->
       forall id', delete id (raf.pending r) !! id' <> Some p.
Proof.
  intros [Ho Hq]. split; [split|]; cbn [raf.next raf.pending].
  - intros id' q Hid. destruct (decide (id' = id)) as [->|Hne].
    + rewrite lookup_delete_eq in Hid. discriminate.
    + rewrite lookup_delete_ne in Hid by congruence. exact (Ho id' q Hid).
  - exact Hq.
  - intros p Hp id' Hid'. destruct (decide (id' = id)) as [->|Hne].
    + rewrite lookup_delete_eq in Hid'. discriminate.
    + rewrite lookup_delete_ne in Hid' by congruence.
      destruct (Ho id p Hp) as (_ & _ & a & m & Ha & Hm & Hid).
      destruct (Ho id' p Hid') as (_ & _ & a' & m' & Ha' & Hm' & Hid'').
      congruence.
Qed.

Lemma Framed_clear r r' next anims idss ref ref' j :
  Framed r next anims idss ref ->
  ref = Some j ->
  raf.next r' = raf.next r ->
  (forall m, idss !! j = Some m ->
     (forall p id, m !! p = Some id -> raf.pending r' !! id = None)
     /\ (forall id, (forall p, m !! p <> Some id) ->
           raf.pending r' !! id = raf.pending r !! id)) ->
  (idss !! j = None -> r' = r) ->
  Framed r' next anims (<[j := ∅]> idss) ref'.
Proof.
  intros [Ho Hq] Href Hnext Hsome Hnone.
  assert (Hothers : forall k mk, idss !! k = Some mk -> k <> j -> mk = ∅).
  { intros k mk Hk Hkj. destruct (decide (mk = ∅)) as [|Hne]; [assumption|].
    specialize (Hq k mk Hk Hne). congruence. }
  split.
  - intros id p Hid. rewrite Hnext.
    assert (Hold : raf.pending r !! id = Some p
                   /\ forall m, idss !! j = Some m -> m !! p <> Some id).
    { destruct (idss !! j) as [m|] eqn:Hj.
      - destruct (Hsome m eq_refl) as [Hgone Hkept].
        assert (Hnot : forall q, m !! q <> Some id).
        { intros q Hq'. rewrite (Hgone q id Hq') in Hid. discriminate. }
        rewrite (Hkept id Hnot) in Hid. split; [exact Hid|].
        intros m' [= <-]. apply Hnot.
      - rewrite (Hnone eq_refl) in Hid. split; [exact Hid | discriminate]. }
    destruct Hold as [Hold Hnot].
    destruct (Ho id p Hold) as (H1 & H2 & a & m & Ha & Hm & Hidm).
    split; [exact H1|]. split; [exact H2|].
    exists a, m. split; [exact Ha|]. split; [|exact Hidm].
    rewrite list_lookup_insert_ne; [exact Hm|].
    intros Heq. rewrite <- Heq in Hm. exact (Hnot m Hm Hidm).
  - intros k mk Hk Hne. exfalso. destruct (decide (k = j)) as [->|Hkj].
    + assert (Hlen : (j < length idss)%nat).
      { apply lookup_lt_Some in Hk. rewrite length_insert in Hk. exact Hk. }
      rewrite list_lookup_insert_eq in Hk by exact Hlen. congruence.
    + rewrite list_lookup_insert_ne in Hk by congruence.
      exact (Hne (Hothers k mk Hk Hkj)).
Qed.

Lemma Framed_idle r next anims idss ref' :
  Framed r next anims idss None -> Framed r next anims idss ref'.
Proof.
  intros [Ho Hq]. split; [exact Ho|].
  intros j m Hj Hne. specialize (Hq j m Hj Hne). discriminate.
Qed.

Lemma Framed_app r next anims idss ref :
  Framed r next anims idss ref -> Framed r next anims (idss ++ [∅]) ref.
Proof.
  intros [Ho Hq]. split.
  - intros id p Hid.
    destruct (Ho id p Hid) as (H1 & H2 & a & m & Ha & Hm & Hidm).
    split; [exact H1|]. split; [exact H2|].
    exists a, m. split; [exact Ha|]. split; [|exact Hidm].
    apply lookup_app_l_Some. exact Hm.
  - intros j m Hj Hne. apply lookup_app_Some in Hj as [Hj|[_ Hj]].
    + exact (Hq j m Hj Hne).
    + apply list_lookup_singleton_Some in Hj as [_ <-]. congruence.
Qed.

Lemma Framed_next r next next' anims idss ref :
  (next <= next')%nat ->
  Framed r next anims idss ref -> Framed r next' anims idss ref.
Proof.
  intros Hle [Ho Hq]. split; [|exact Hq].
  intros id p Hid. destruct (Ho id p Hid) as (H1 & H2 & H3).
  split; [exact H1|]. split; [lia | exact H3].
Qed.

Lemma framed_same (w w' : world.t) :
  world.raf w' = world.raf w ->
  document.next (world.document w') = document.next (world.document w) ->
  world.anims w' = world.anims w ->
  burst.animationIds <$> world.bursts w' = burst.animationIds <$> world.bursts w ->
  hook.activeInstancesRef (world.hook w') = hook.activeInstancesRef (world.hook w) ->
  framed w -> framed w'.
Proof.
  intros H1 H2 H3 H4 H5. unfold framed. rewrite H1, H2, H3, H4, H5. exact id.
Qed.

Lemma ids_alter (f : burst.t -> burst.t) (this : nat) (l : list burst.t) (b : burst.t) :
  l !! this = Some b ->
  burst.animationIds <$> alter f this l
  = <[this := burst.animationIds (f b)]> (burst.animationIds <$> l).
Proof.
  intros H. rewrite (alter_as_insert _ _ _ _ H). apply list_fmap_insert.
Qed.

Lemma ids_alter_same (f : burst.t -> burst.t) (this : nat) (l : list burst.t) :
  (forall b, burst.animationIds (f b) = burst.animationIds b) ->
  burst.animationIds <$> alter f this l = burst.animationIds <$> l.
Proof.
  intros Hf. rewrite (list_fmap_alter burst.animationIds f id).
  - apply list_alter_id. reflexivity.
  - apply Forall_forall. intros b _. apply Hf.
Qed.

Lemma ids_lookup (w : world.t) (this : nat) (b : burst.t) :
  world.bursts w !! this = Some b ->
  (burst.animationIds <$> world.bursts w) !! this = Some (burst.animationIds b).
Proof. intros H. rewrite list_lookup_fmap, H. reflexivity. Qed.

Lemma createParticlesTurn_ids this c centerX startY fragment w b :
  world.bursts w !! this = Some b ->
  burst.animationIds
    <$> world.bursts (createParticlesTurn this c centerX startY fragment w).2
  = <[this := <[document.next (world.document w) := raf.next (world.raf w)]>
                (burst.animationIds b)]>
      (burst.animationIds <$> world.bursts w).
Proof.
  intros Hb. unfold createParticlesTurn, animateParticle, with_burst; cbn.
  rewrite (ids_alter _ _ _ _ (eq_trans (list_lookup_alter_eq _ _ _)
                                (f_equal _ Hb))).
  rewrite (ids_alter_same (burst.set_particles _)) by reflexivity.
  reflexivity.
Qed.

Lemma framed_createParticlesTurn this c centerX startY fragment w b :
  framed w ->
  hook.activeInstancesRef (world.hook w) = Some this ->
  world.bursts w !! this = Some b ->
  framed (createParticlesTurn this c centerX startY fragment w).2.
Proof.
  intros Hf Href Hb.
  destruct (createParticlesTurn_effect this c centerX startY fragment w b Hb)
    as (_ & _ & Hd & _ & _ & Hr & _).
  destruct (createParticlesTurn_closure this c centerX startY fragment w)
    as (a & Ha & n & Hl).
  pose proof (createParticlesTurn_ids this c centerX startY fragment w b Hb) as Hi.
  pose proof (kept_createParticlesTurn this c centerX startY fragment w) as Hk.
  apply (f_equal view.hook) in Hk. rewrite !kept_hook in Hk.
  cbv zeta in Hd, Hr.
  unfold framed. rewrite Hd, Hr, Ha, Hi, Hk.
  apply (Framed_request _ (document.next (world.document w))); try assumption.
  - apply ids_lookup, Hb.
  - apply Hl.
  - lia.
  - lia.
  - intros id Hid. destruct Hf as [Ho _].
    destruct (Ho id _ Hid) as (_ & Hlt & _). lia.
Qed.

Lemma framed_createParticlesLoop fuel this c centerX startY i fragment w b :
  framed w ->
  hook.activeInstancesRef (world.hook w) = Some this ->
  world.bursts w !! this = Some b ->
  framed (createParticlesLoop fuel this c centerX startY i fragment w).2.
Proof.
  revert i fragment w b.
  induction fuel as [|fuel IH]; intros i fragment w b Hf Href Hb;
    cbn [createParticlesLoop]; [exact Hf|].
  destruct (Qltb i (cfg.particleCount c)); [|exact Hf].
  pose proof (framed_createParticlesTurn this c centerX startY fragment w b
                Hf Href Hb) as Hf1.
  destruct (createParticlesTurn_effect this c centerX startY fragment w b Hb)
    as (_ & Hb1 & _).
  pose proof (kept_createParticlesTurn this c centerX startY fragment w) as Hk.
  apply (f_equal view.hook) in Hk. rewrite !kept_hook in Hk.
  destruct (createParticlesTurn this c centerX startY fragment w) as [f1 w1].
  cbn [fst snd] in *.
  eapply IH; [exact Hf1 | congruence | exact Hb1].
Qed.

Lemma framed_createParticles this w :
  framed w ->
  hook.activeInstancesRef (world.hook w) = Some this ->
  framed (createParticles this w).
Proof.
  intros Hf Href. unfold createParticles.
  destruct (world.bursts w !! this) as [b|] eqn:Hb; [|exact Hf].
  destruct (burst.container b) as [container|]; [|exact Hf].
  destruct (cfg.randomizeStart (burst.config b)); cbn;
    match goal with
    | |- context [createParticlesLoop ?n ?t ?c ?x ?y ?i ?f ?w0] =>
        pose proof (framed_createParticlesLoop n t c x y i f w0 b Hf Href Hb) as H;
        destruct (createParticlesLoop n t c x y i f w0) as [fragment w1]
    end; exact H.
Qed.

Lemma framed_createContainer this w : framed w -> framed (createContainer this w).
Proof.
  intros Hf. unfold framed, createContainer, with_burst; cbn.
  rewrite ids_alter_same by reflexivity.
  apply (Framed_next _ (document.next (world.document w))); [lia | exact Hf].
Qed.

Lemma framed_scheduleCleanup this w : framed w -> framed (scheduleCleanup this w).
Proof.
  intros Hf. unfold scheduleCleanup.
  destruct (world.bursts w !! this) as [b|]; [|exact Hf].
  destruct (burst.cleanupTimeoutId b); unfold framed, with_burst; cbn;
    rewrite !ids_alter_same by reflexivity; exact Hf.
Qed.

Lemma framed_fire this w :
  framed w ->
  hook.activeInstancesRef (world.hook w) = Some this ->
  framed (fire this w).
Proof.
  intros Hf Href. unfold fire.
  apply framed_scheduleCleanup, framed_createParticles.
  - apply framed_createContainer, Hf.
  - exact Href.
Qed.

Lemma advance_owner (w h : Q) (a : anim.t) :
  anim.owner (advance w h a) = anim.owner a.
Proof. reflexivity. Qed.

Lemma invoke_anims cb w : world.anims (invoke cb w) = world.anims w.
Proof. destruct cb; reflexivity. Qed.

Lemma teardown_rest this b w :
  document.next (world.document (teardown this b w))
  = document.next (world.document w)
  /\ world.anims (teardown this b w) = world.anims w
  /\ world.hook (teardown this b w) = world.hook w.
Proof.
  unfold teardown. rewrite cancelAll_only_raf. unfold with_burst. cbn.
  destruct (burst.cleanupTimeoutId b), (burst.container b); cbn;
    try destruct (body_contains _ _); cbn; repeat split; reflexivity.
Qed.

Lemma alter_alter {A} (f g : A -> A) (i : nat) (l : list A) :
  alter f i (alter g i l) = alter (fun x => f (g x)) i l.
Proof.
  revert i. induction l as [|x l IH]; intros [|i]; cbn; try reflexivity.
  f_equal. apply IH.
Qed.

Lemma teardown_ids this b w :
  world.bursts w !! this = Some b ->
  burst.animationIds <$> world.bursts (teardown this b w)
  = <[this := ∅]> (burst.animationIds <$> world.bursts w).
Proof.
  intros Hb. unfold teardown. rewrite cancelAll_only_raf. unfold with_burst. cbn.
  destruct (burst.cleanupTimeoutId b), (burst.container b); cbn;
    try destruct (body_contains _ _); cbn;
    rewrite !alter_alter, (ids_alter _ _ _ _ Hb); reflexivity.
Qed.

(** After [cleanup] no burst records a frame, and every request that is
    left is one that no burst had recorded: the bookkeeping holds
    whatever the hook then references. *)
Lemma framed_cleanup this w ref' :
  framed w ->
  hook.activeInstancesRef (world.hook w) = Some this ->
  Framed (world.raf (cleanup this w))
    (document.next (world.document (cleanup this w)))
    (world.anims (cleanup this w))
    (burst.animationIds <$> world.bursts (cleanup this w)) ref'.
Proof.
  intros Hf Href. unfold cleanup.
  destruct (world.bursts w !! this) as [b|] eqn:Hb.
  - rewrite invoke_raf, invoke_document, invoke_anims, invoke_bursts.
    destruct (teardown_rest this b w) as (Hn & Ha & _).
    rewrite Hn, Ha, (teardown_ids this b w Hb), teardown_raf.
    apply (Framed_clear (world.raf w) _ _ _ _ _ ref' this Hf Href).
    + rewrite cancelAll_only_raf. reflexivity.
    + intros m Hm. rewrite (ids_lookup w this b Hb) in Hm. injection Hm as <-.
      split.
      * intros p id Hp. exact (cancelAll_cancels _ w p id Hp).
      * intros id Hnot. exact (cancelAll_others _ w id Hnot).
    + rewrite (ids_lookup w this b Hb). discriminate.
  - rewrite <- (list_insert_id' (burst.animationIds <$> world.bursts w) this ∅).
    + apply (Framed_clear (world.raf w) _ _ _ _ _ ref' this Hf Href).
      * reflexivity.
      * intros m Hm. rewrite list_lookup_fmap, Hb in Hm. discriminate.
      * reflexivity.
    + intros Hlt. rewrite length_fmap in Hlt.
      apply lookup_lt_is_Some in Hlt. rewrite Hb in Hlt.
      destruct Hlt; discriminate.
Qed.

Lemma framed_update particle w :
  framed w ->
  (particle < document.next (world.document w))%nat ->
  (forall id, raf.pending (world.raf w) !! id <> Some particle) ->
  (forall a, world.anims w !! particle = Some a ->
     exists m id,
       (burst.animationIds <$> world.bursts w) !! anim.owner a = Some m
       /\ m !! particle = Some id) ->
  framed (update particle w).
Proof.
  intros Hf Hlt Hfree Hrec. unfold update.
  destruct (world.anims w !! particle) as [a|] eqn:Ha; [|exact Hf].
  destruct (Hrec a eq_refl) as (m & id & Hm & Hid).
  assert (Hb : exists b, world.bursts w !! anim.owner a = Some b
                         /\ burst.animationIds b = m).
  { rewrite list_lookup_fmap in Hm.
    destruct (world.bursts w !! anim.owner a) as [b|]; [|discriminate].
    exists b. split; [reflexivity|]. cbn in Hm. congruence. }
  destruct Hb as (b & Hb & Hbm).
  destruct (Qleb _ 0).
  - unfold framed, with_burst.
    cbn [world.raf world.document world.anims world.bursts world.hook
         world.set_bursts].
    rewrite (ids_alter _ _ _ _ Hb).
    cbn [burst.animationIds burst.set_animationIds]. rewrite Hbm.
    apply Framed_retire; assumption.
  - set (a' := advance _ _ a).
    assert (Ho : anim.owner a' = anim.owner a) by reflexivity.
    assert (Href : hook.activeInstancesRef (world.hook w) = Some (anim.owner a)).
    { destruct Hf as [_ Hq]. apply (Hq _ m Hm). intros ->.
      rewrite lookup_empty in Hid. discriminate. }
    unfold applyFadeOut. destruct (Qltb (double 0.7) _);
      unfold framed, with_burst, requestAnimationFrame, setStyle;
      cbn [world.raf world.document world.anims world.bursts world.hook
           world.set_bursts world.set_raf world.set_document world.set_anims
           document.next fst snd];
      rewrite Ho, (ids_alter _ _ _ _ Hb);
      cbn [burst.animationIds burst.set_animationIds]; rewrite Hbm;
      apply (Framed_request _ (document.next (world.document w)));
      try assumption; try lia.
Qed.

Lemma framed_runFrame id w : framed w -> framed (runFrame id w).
Proof.
  intros Hf. unfold runFrame.
  destruct (raf.pending (world.raf w) !! id) as [p|] eqn:Hp; [|exact Hf].
  destruct (Framed_cancel _ _ _ _ _ id Hf) as [Hc Hfree].
  destruct Hf as [Hown _].
  destruct (Hown id p Hp) as (_ & Hlt & a & m & Ha & Hm & Hid).
  apply framed_update.
  - exact Hc.
  - exact Hlt.
  - exact (Hfree p Hp).
  - intros a' Ha'. exists m, id.
    assert (a' = a) as -> by (cbn in Ha'; congruence).
    split; [exact Hm | exact Hid].
Qed.

Lemma framed_stopExisting w ref' :
  framed w ->
  Framed (world.raf (stopExisting w))
    (document.next (world.document (stopExisting w)))
    (world.anims (stopExisting w))
    (burst.animationIds <$> world.bursts (stopExisting w)) ref'.
Proof.
  intros Hf. unfold stopExisting, stop.
  destruct (hook.activeInstancesRef (world.hook w)) as [this|] eqn:Href.
  - exact (framed_cleanup this w ref' Hf Href).
  - apply Framed_idle. unfold framed in Hf. rewrite Href in Hf. exact Hf.
Qed.

Lemma framed_debounced options w : framed w -> framed (debounced options w).
Proof.
  intros Hf. unfold debounced. cbv zeta.
  unfold newConfettiBurst. cbn [world.bursts world.set_hook world.set_bursts
    world.host world.hook world.calls world.document world.timers world.raf
    world.drawn world.anims].
  apply framed_fire; [|reflexivity].
  unfold framed. cbn [world.bursts world.set_hook world.set_bursts
    world.host world.hook world.calls world.document world.timers world.raf
    world.drawn world.anims hook.activeInstancesRef hook.set_activeInstancesRef].
  rewrite fmap_app. apply Framed_app, framed_stopExisting, Hf.
Qed.

Lemma framed_stopConfetti w : framed w -> framed (stopConfetti w).
Proof.
  intros Hf. unfold stopConfetti, stop.
  destruct (hook.activeInstancesRef (world.hook w)) as [this|] eqn:Href;
    [|exact Hf].
  exact (framed_cleanup this w _ Hf Href).
Qed.

Lemma framed_clearTimeout id w : framed w -> framed (clearTimeout id w).
Proof. intros Hf. exact Hf. Qed.

Lemma framed_fireConfetti options w : framed w -> framed (fireConfetti options w).
Proof.
  intros Hf. unfold fireConfetti.
  destruct (hook.debounceTimerRef (world.hook w)); exact Hf.
Qed.

Lemma framed_runTimeout id w : gated w -> framed w -> framed (runTimeout id w).
Proof.
  intros Hg Hf. unfold runTimeout.
  destruct (timers.pending (world.timers w) !! id) as [[due cb]|] eqn:Hp;
    [|exact Hf].
  destruct (Qleb due _); [|exact Hf].
  destruct cb as [this|o]; cbn [runCallback].
  - assert (Href : hook.activeInstancesRef (world.hook w) = Some this).
    { destruct Hg as [_ _ _ _ _ _ Ht]. exact (proj1 (Ht id due this Hp)). }
    exact (framed_cleanup this (clearTimeout id w) _ Hf Href).
  - apply framed_debounced. exact Hf.
Qed.

Lemma framed_hostMoves h w : framed w -> framed (hostMoves h w).
Proof. intros Hf. unfold hostMoves. destruct (Qleb _ _); exact Hf. Qed.

Lemma framed_exec e w : gated w -> framed w -> framed (exec e w).
Proof.
  intros Hg Hf. destruct e; cbn [exec].
  - apply framed_fireConfetti, Hf.
  - apply framed_stopConfetti, Hf.
  - apply framed_runTimeout; assumption.
  - apply framed_runFrame, Hf.
  - apply framed_hostMoves, Hf.
Qed.

Lemma framed_run events w :
  gated w -> framed w -> framed (run events w).
Proof.
  revert w. induction events as [|e events IH]; intros w Hg Hf; [exact Hf|].
  apply IH; [apply gated_exec, Hg | apply framed_exec; assumption].
Qed.

Lemma framed_initialWorld h : framed (initialWorld h).
Proof.
  split; cbn.
  - intros id p H. rewrite lookup_empty in H. discriminate.
  - intros j m H. rewrite lookup_nil in H. discriminate.
Qed.

(** Every world the event loop can reach keeps the bookkeeping of frames. *)
Lemma reachable_framed h0 events : framed (run events (initialWorld h0)).
Proof. apply framed_run; [apply gated_initialWorld | apply framed_initialWorld]. Qed.

Lemma Framed_referenced r next anims idss ref id p :
  Framed r next anims idss ref ->
  raf.pending r !! id = Some p ->
  exists a m, anims !! p = Some a
    /\ ref = Some (anim.owner a)
    /\ idss !! anim.owner a = Some m /\ m !! p = Some id.
Proof.
  intros [Ho Hq] Hid.
  destruct (Ho id p Hid) as (_ & _ & a & m & Ha & Hm & Hidm).
  exists a, m. split; [exact Ha|]. split; [|split; assumption].
  apply (Hq _ m Hm). intros ->. rewrite lookup_empty in Hidm. discriminate.
Qed.

Lemma Framed_unreferenced r next anims idss :
  Framed r next anims idss None -> raf.pending r = ∅.
Proof.
  intros Hf. apply map_eq. intros id. rewrite lookup_empty.
  destruct (raf.pending r !! id) as [p|] eqn:Hid; [|reflexivity].
  destruct (Framed_referenced _ _ _ _ _ id p Hf Hid) as (a & m & _ & Href & _).
  discriminate.
Qed.

(** X14. In every world the event loop can reach, a pending request for
    a frame is for a particle of the burst the hook references: that
    burst records this very id for the particle, whose closure belongs
    to it. So no particle has two requests pending, and while the hook
    references no burst no request is pending at all: no frame outlives
    its burst. *)
Theorem frames_belong_to_the_referenced_burst (h0 : host.t) (events : list Event) :
  let w := run events (initialWorld h0) in
  (forall id p, raf.pending (world.raf w) !! id = Some p ->
     exists this b a,
       hook.activeInstancesRef (world.hook w) = Some this
       /\ world.bursts w !! this = Some b
       /\ burst.animationIds b !! p = Some id
       /\ world.anims w !! p = Some a
       /\ anim.owner a = this)
  /\ (forall id id' p,
        raf.pending (world.raf w) !! id = Some p ->
        raf.pending (world.raf w) !! id' = Some p -> id = id')
  /\ (hook.activeInstancesRef (world.hook w) = None ->
      raf.pending (world.raf w) = ∅).
Proof.
  intros w. pose proof (reachable_framed h0 events) as Hf. fold w in Hf.
  assert (Hone : forall id p, raf.pending (world.raf w) !! id = Some p ->
            exists this b a,
              hook.activeInstancesRef (world.hook w) = Some this
              /\ world.bursts w !! this = Some b
              /\ burst.animationIds b !! p = Some id
              /\ world.anims w !! p = Some a
              /\ anim.owner a = this).
  { intros id p Hid.
    destruct (Framed_referenced _ _ _ _ _ id p Hf Hid)
      as (a & m & Ha & Href & Hm & Hidm).
    rewrite list_lookup_fmap in Hm.
    destruct (world.bursts w !! anim.owner a) as [b|] eqn:Hb; [|discriminate].
    injection Hm as <-.
    exists (anim.owner a), b, a. repeat split; assumption. }
  split; [exact Hone|]. split.
  - intros id id' p Hid Hid'.
    destruct (Hone id p Hid) as (this & b & a & Href & Hb & Hi & _).
    destruct (Hone id' p Hid') as (this' & b' & a' & Href' & Hb' & Hi' & _).
    congruence.
  - intros Href. unfold framed in Hf. rewrite Href in Hf.
    exact (Framed_unreferenced _ _ _ _ Hf).
Qed.

Lemma Framed_cleared r next anims idss :
  Framed r next anims idss None ->
  raf.pending r = ∅ /\ Forall (fun m => m = ∅) idss.
Proof.
  intros Hf. split; [exact (Framed_unreferenced _ _ _ _ Hf)|].
  apply Forall_forall. intros m Hin.
  apply list_elem_of_lookup in Hin as [j Hj].
  destruct (decide (m = ∅)) as [|Hne]; [assumption|].
  destruct Hf as [_ Hq]. specialize (Hq j m Hj Hne). discriminate.
Qed.

(** X15. In every world the event loop can reach, once [stopConfetti]
    has returned no request for a frame is pending and no burst records
    a frame id; and the same holds once a teardown timeout that is due
    has run. Whatever frames have run before, none runs afterwards. *)
Theorem stopping_cancels_every_frame (h0 : host.t) (events : list Event) :
  let w := run events (initialWorld h0) in
  (raf.pending (world.raf (stopConfetti w)) = ∅
   /\ forall j b, world.bursts (stopConfetti w) !! j = Some b ->
        burst.animationIds b = ∅)
  /\ (forall id due this,
        timers.pending (world.timers w) !! id = Some (due, CleanupCb this) ->
        due <= host.now (world.host w) ->
        raf.pending (world.raf (runTimeout id w)) = ∅
        /\ forall j b, world.bursts (runTimeout id w) !! j = Some b ->
             burst.animationIds b = ∅).
Proof.
  intros w. pose proof (reachable_framed h0 events) as Hf.
  pose proof (reachable_gated h0 events) as Hg. fold w in Hf, Hg.
  assert (Hall : forall w', Framed (world.raf w')
                   (document.next (world.document w')) (world.anims w')
                   (burst.animationIds <$> world.bursts w') None ->
            raf.pending (world.raf w') = ∅
            /\ forall j b, world.bursts w' !! j = Some b ->
                 burst.animationIds b = ∅).
  { intros w' H. destruct (Framed_cleared _ _ _ _ H) as [Hp Hi].
    split; [exact Hp|]. intros j b Hb. rewrite Forall_forall in Hi.
    apply Hi. apply list_elem_of_fmap. exists b. split; [reflexivity|].
    eapply list_elem_of_lookup_2, Hb. }
  split.
  - apply Hall. unfold stopConfetti, stop.
    destruct (hook.activeInstancesRef (world.hook w)) as [this|] eqn:Href.
    + exact (framed_cleanup this w None Hf Href).
    + unfold framed in Hf. rewrite Href in Hf. exact Hf.
  - intros id due this Hp Hdue. apply Hall. unfold runTimeout. rewrite Hp.
    apply Qleb_le in Hdue. rewrite Hdue. cbn [runCallback].
    assert (Href : hook.activeInstancesRef (world.hook w) = Some this).
    { destruct Hg as [_ _ _ _ _ _ Ht]. exact (proj1 (Ht id due this Hp)). }
    exact (framed_cleanup this (clearTimeout id w) None Hf Href).
Qed.

(** ** [createConfettiBurst]: a burst nobody holds *)

(** The view without the host: what frames and the passing of time
    leave alone. *)
Lemma kept_passive events : forall w,
  forallb passive events = true ->
  view.timers (kept (run events w)) = view.timers (kept w)
  /\ view.hook (kept (run events w)) = view.hook (kept w)
  /\ view.calls (kept (run events w)) = view.calls (kept w)
  /\ view.body (kept (run events w)) = view.body (kept w)
  /\ view.cores (kept (run events w)) = view.cores (kept w).
Proof.
  induction events as [|e events IH]; intros w Hp; [repeat split|].
  cbn [forallb] in Hp. apply andb_true_iff in Hp as [He Hp].
  cbn [run foldl]. fold (run events (exec e w)).
  destruct (IH (exec e w) Hp) as (H1 & H2 & H3 & H4 & H5).
  rewrite H1, H2, H3, H4, H5.
  destruct e as [o| |tid|fid|h]; try discriminate; cbn [exec].
  - rewrite kept_runFrame. repeat split.
  - unfold hostMoves. destruct (Qleb _ _); repeat split.
Qed.

Lemma kept_createConfettiBurst options w0 :
  kept (createConfettiBurst options w0)
  = {| view.host := world.host w0;
       view.timers :=
         timers.mk (Pos.succ (timers.next (world.timers w0)))
           (<[timers.next (world.timers w0) :=
                (host.now (world.host w0) + cfg.duration (mkConfig options),
                 CleanupCb (length (world.bursts w0)))]>
              (timers.pending (world.timers w0)));
       view.hook := world.hook w0; view.calls := world.calls w0;
       view.body := document.body (world.document w0)
                    ++ [document.next (world.document w0)];
       view.cores :=
         view.cores (kept w0)
         ++ [(Some (timers.next (world.timers w0)), mkConfig options,
              Some (document.next (world.document w0)))] |}.
Proof.
  unfold createConfettiBurst, newConfettiBurst.
  erewrite kept_fire; [| apply list_lookup_middle; reflexivity | reflexivity].
  cbn. f_equal.
  rewrite fmap_app. cbn.
  rewrite insert_app_r_alt by (rewrite length_fmap; lia).
  rewrite length_fmap, Nat.sub_diag. reflexivity.
Qed.

(** X16. A burst started by [createConfettiBurst(options)] tears itself
    down. While frames run and time passes, its teardown timeout stays
    pending, due [duration] after the call, and the [onStop] of the
    options is not called. Once the timeout is due and runs, [onStop]
    is called, exactly once if it is a function of the caller; the burst
    holds no timeout, no container, no particle and no frame id; its
    container is not under the body; and the timeout is gone. *)
Theorem createConfettiBurst_tears_itself_down
    (options : option opts.t) (w0 : world.t) (events : list Event)
    (Hpassive : forallb passive events = true) :
  let this := length (world.bursts w0) in
  let id := timers.next (world.timers w0) in
  let due := host.now (world.host w0) + cfg.duration (mkConfig options) in
  let w := run events (createConfettiBurst options w0) in
  timers.pending (world.timers w) !! id = Some (due, CleanupCb this)
  /\ world.calls w = world.calls w0
  /\ (due <= host.now (world.host w) ->
      world.calls (runTimeout id w)
      = world.calls w0
        ++ match cfg.onStop (mkConfig options) with
           | CbUser tag => [tag]
           | _ => []
           end
      /\ world.bursts (runTimeout id w) !! this
         = Some (burst.mk ∅ None (mkConfig options) None [])
      /\ (document.next (world.document w0)
          ∉ document.body (world.document (runTimeout id w)))
      /\ timers.pending (world.timers (runTimeout id w)) !! id = None).
Proof.
  intros this id due w.
  destruct (kept_passive events (createConfettiBurst options w0) Hpassive)
    as (Ht & _ & Hc & Hb & Hcores).
  fold w in Ht, Hc, Hb, Hcores.
  rewrite kept_createConfettiBurst in Ht, Hc, Hb, Hcores.
  cbn [view.timers view.calls view.body view.cores] in Ht, Hc, Hb, Hcores.
  rewrite kept_timers in Ht. rewrite kept_calls in Hc. rewrite kept_body in Hb.
  assert (Hp : timers.pending (world.timers w) !! id = Some (due, CleanupCb this)).
  { rewrite Ht. cbn. apply lookup_insert_eq. }
  split; [exact Hp|]. split; [exact Hc|].
  intros Hdue. unfold runTimeout. rewrite Hp.
  apply Qleb_le in Hdue. rewrite Hdue. cbn [runCallback].
  assert (Hcore : burstCore <$> world.bursts w !! this
                  = Some (Some id, mkConfig options,
                          Some (document.next (world.document w0)))).
  { rewrite <- cores_lookup, Hcores. apply list_lookup_middle.
    symmetry. apply length_fmap. }
  destruct (world.bursts w !! this) as [b|] eqn:Hburst; [|discriminate].
  injection Hcore as Htid Hcfg Hcont.
  assert (Hburst' : world.bursts (clearTimeout id w) !! this = Some b)
    by exact Hburst.
  rewrite (cleanup_eq _ _ _ Hburst').
  pose proof (kept_teardown _ _ _ Hburst') as Hk.
  split; [|split; [|split]].
  - rewrite invoke_calls, Hcfg. f_equal.
    rewrite <- kept_calls, Hk. cbn [view.calls]. exact Hc.
  - rewrite invoke_bursts, (teardown_burst _ _ _ Hburst'), Hcfg. reflexivity.
  - rewrite invoke_document, <- kept_body, Hk. cbn [view.body].
    rewrite Hcont. apply filter_gone.
  - rewrite invoke_timers, <- kept_timers, Hk. cbn [view.timers timers.pending].
    rewrite Htid. cbn. rewrite lookup_delete_eq. reflexivity.
Qed.

Lemma createConfettiBurst_tears_itself_down_witness :
  world.calls
    (runTimeout 1
       (run oneFrameThenDue
          (createConfettiBurst (Some taggedOptions) (initialWorld (steadyHost 0)))))
  = world.calls (initialWorld (steadyHost 0))
    ++ match cfg.onStop (mkConfig (Some taggedOptions)) with
       | CbUser tag => [tag]
       | _ => []
       end.
Proof.
  assert (Hdue : host.now (world.host (initialWorld (steadyHost 0)))
                 + cfg.duration (mkConfig (Some taggedOptions))
                 <= host.now (world.host
                      (run oneFrameThenDue
                         (createConfettiBurst (Some taggedOptions)
                            (initialWorld (steadyHost 0)))))).
  { vm_compute. discriminate. }
  exact (proj1 (proj2 (proj2
    (createConfettiBurst_tears_itself_down (Some taggedOptions)
       (initialWorld (steadyHost 0)) oneFrameThenDue eq_refl)) Hdue)).
Defined.

(** ** The look of a particle *)

Lemma shape_defined (r : Q) :
  0 <= r -> r < 1 ->
  exists shape,
    shapes !! Math_floor (r * inject_Z (Z.of_nat (length shapes))) = Some shape
    /\ shape ∈ shapes.
Proof.
  intros H0 H1.
  assert (Hlt : (Math_floor (r * inject_Z (Z.of_nat (length shapes)))
                 < length shapes)%nat).
  { unfold Math_floor. change (length shapes) with 12%nat.
    change (inject_Z (Z.of_nat 12)) with 12.
    assert (Hf : (Qfloor (r * 12) < 12)%Z).
    { rewrite Zlt_Qlt. eapply Qle_lt_trans; [apply Qfloor_le|].
      change (inject_Z 12) with 12. lra. }
    assert (Hg : (0 <= Qfloor (r * 12))%Z).
    { change 0%Z with (Qfloor 0). apply Qfloor_resp_le. lra. }
    lia. }
  apply lookup_lt_is_Some_2 in Hlt as [shape Hs].
  exists shape. split; [exact Hs|]. eapply list_elem_of_lookup_2, Hs.
Qed.

(** X17. With [Math.random()] in [[0, 1)] and a size that is not
    negative, the particle that [createParticle] returns is the new
    element, without children, whose [cssText] has a width and a height
    between [-size/2] and [3*size/2] (so a dimension can be negative, for
    a draw below one quarter), a hue in [[0, 360)], an alpha in
    [[0.7, 1)] and one of the twelve shapes as its border radius. *)
Theorem createParticle_ranges (c : cfg.t) (w : world.t)
    (Hrandom : forall n, 0 <= host.random (world.host w) n
                         /\ host.random (world.host w) n < 1)
    (Hsize : 0 <= cfg.size c) :
  (createParticle c w).1 = document.next (world.document w)
  /\ exists width height hue alpha shape,
       document.nodes (world.document (createParticle c w).2)
         !! (createParticle c w).1
       = Some (node.mk
                 (style.set_cssText
                    (CssParticle width height hue alpha (Some shape))
                    style.empty) [])
       /\ (- (cfg.size c / 2) <= width /\ width <= 3 * cfg.size c / 2)
       /\ (- (cfg.size c / 2) <= height /\ height <= 3 * cfg.size c / 2)
       /\ (width < 0 <-> host.random (world.host w) (world.drawn w) < 0.25
                         /\ 0 < cfg.size c)
       /\ (0 <= hue /\ hue < 360)
       /\ (0.7 <= alpha /\ alpha < 1)
       /\ shape ∈ shapes.
Proof.
  split; [reflexivity|].
  destruct (shape_defined _ (proj1 (Hrandom (4 + world.drawn w)%nat))
              (proj2 (Hrandom (4 + world.drawn w)%nat))) as (shape & Hs & Hin).
  pose proof (Hrandom (world.drawn w)) as [Ha0 Ha1].
  pose proof (Hrandom (1 + world.drawn w)%nat) as [Hb0 Hb1].
  pose proof (Hrandom (2 + world.drawn w)%nat) as [Hc0 Hc1].
  pose proof (Hrandom (3 + world.drawn w)%nat) as [Hd0 Hd1].
  exists ((host.random (world.host w) (world.drawn w) - 0.25) * cfg.size c * 2),
         ((host.random (world.host w) (1 + world.drawn w) - 0.25) * cfg.size c * 2),
         (host.random (world.host w) (2 + world.drawn w) * 360),
         (0.7 + host.random (world.host w) (3 + world.drawn w) * 0.3),
         shape.
  split.
  - unfold createParticle, getRandomColor, getRandomShape, Math_random,
      createElement, setStyle.
    cbn [fst snd world.document world.set_document world.set_drawn world.drawn
         world.host document.next document.body document.nodes].
    rewrite lookup_alter_eq, lookup_insert_eq.
    cbn [fmap option_fmap option_map node.style node.childNodes].
    cbn [Nat.add] in Hs. rewrite Hs. reflexivity.
  - assert (Hdim : forall r, 0 <= r -> r < 1 ->
              - (cfg.size c / 2) <= (r - 0.25) * cfg.size c * 2
              /\ (r - 0.25) * cfg.size c * 2 <= 3 * cfg.size c / 2).
    { intros r Hr0 Hr1.
      assert (0 <= r * cfg.size c) by (apply Qmult_le_0_compat; assumption).
      assert (0 <= (1 - r) * cfg.size c) by (apply Qmult_le_0_compat; lra).
      unfold Qdiv. change (/ 2) with (1 # 2). split; lra. }
    split; [exact (Hdim _ Ha0 Ha1)|]. split; [exact (Hdim _ Hb0 Hb1)|].
    split; [|split; [split; lra|]; split; [split; lra | exact Hin]].
    set (r := host.random (world.host w) (world.drawn w)) in *.
    set (s := cfg.size c) in *.
    split.
    + intros Hneg.
      assert (Hs0 : ~ s == 0) by (intros E; rewrite E in Hneg; lra).
      assert (Hpos : 0 < s) by (apply Qle_lteq in Hsize as [|E]; [assumption|]; symmetry in E; contradiction).
      split; [|exact Hpos].
      apply Qnot_le_lt. intros Hge.
      assert (0 <= (r - 0.25) * s) by (apply Qmult_le_0_compat; lra).
      lra.
    + intros [Hr Hpos].
      assert (0 < (0.25 - r) * s) by (apply Qmult_lt_0_compat; lra).
      lra.
Qed.

Lemma createParticle_ranges_witness :
  (createParticle (mkConfig None) (initialWorld (steadyHost 0))).1
  = document.next (world.document (initialWorld (steadyHost 0))).
Proof.
  refine (proj1 (createParticle_ranges (mkConfig None)
                   (initialWorld (steadyHost 0)) _ _)).
  - intros n. split; vm_compute; [discriminate | reflexivity].
  - vm_compute. discriminate.
Defined.

(** The share [r * v] of a quantity [v >= 0], for a draw [r] in [[0, 1)]. *)
Lemma share_bounds (r v : Q) :
  0 <= r -> r < 1 -> 0 <= v -> 0 <= r * v /\ r * v <= v.
Proof.
  intros H0 H1 Hv.
  assert (0 <= r * v) by (apply Qmult_le_0_compat; assumption).
  assert (0 <= (1 - r) * v) by (apply Qmult_le_0_compat; lra).
  split; lra.
Qed.

(** X18. With [Math.random()] in [[0, 1)], a viewport width and a
    [startVelocity] that are not negative: after
    [new ConfettiBurst(options).fire()] every particle starts within 15%
    of the viewport width around the centre of the burst, so between 35%
    and 65% of the width without [randomizeStart], and between -15% and
    115% of it (possibly outside the viewport) with it; its upward speed
    is between 0.8 and 1.2 times [startVelocity]; and its wind is within
    0.05. *)
Theorem fire_launch_ranges (options : option opts.t) (w0 : world.t)
    (Hrandom : forall n, 0 <= host.random (world.host w0) n
                         /\ host.random (world.host w0) n < 1)
    (Hwidth : 0 <= host.innerWidth (world.host w0))
    (Hvelocity : 0 <= cfg.startVelocity (mkConfig options)) :
  exists b,
    world.bursts (fire (length (world.bursts w0)) (newConfettiBurst options w0).2)
      !! length (world.bursts w0) = Some b
    /\ forall p, p ∈ burst.particles b ->
         exists a,
           world.anims
             (fire (length (world.bursts w0)) (newConfettiBurst options w0).2)
             !! p = Some a
           /\ (cfg.randomizeStart (mkConfig options) = false ->
               0.35 * host.innerWidth (world.host w0) <= anim.x a
               /\ anim.x a <= 0.65 * host.innerWidth (world.host w0))
           /\ (- (0.15 * host.innerWidth (world.host w0)) <= anim.x a
               /\ anim.x a <= 1.15 * host.innerWidth (world.host w0))
           /\ (- (1.2 * cfg.startVelocity (mkConfig options)) <= anim.vy a
               /\ anim.vy a <= - (0.8 * cfg.startVelocity (mkConfig options)))
           /\ (- (0.05) <= anim.wind a /\ anim.wind a <= 0.05).
Proof.
  destruct (fire_built _ _ _ (newConfettiBurst_lookup options w0) eq_refl eq_refl)
    as (b & nd & centerX & H1 & Hcx & _ & _ & _ & _ & _ & _ & H8).
  rewrite Forall_forall in H8.
  cbn [burst.config] in Hcx, H8.
  change (world.host (newConfettiBurst options w0).2) with (world.host w0)
    in Hcx, H8.
  set (iw := host.innerWidth (world.host w0)) in *.
  set (sv := cfg.startVelocity (mkConfig options)) in *.
  exists b. split; [exact H1|].
  intros p Hin. destruct (H8 p Hin) as (_ & a & Ha & n & Hl).
  destruct Hl as (_ & _ & _ & _ & _ & _ & _ & _ & _ & Hx & (nv & Hvy) & (nw & Hw)).
  fold iw in Hx.
  exists a. split; [exact Ha|].
  destruct (share_bounds _ iw (proj1 (Hrandom n)) (proj2 (Hrandom n)) Hwidth)
    as [Hs0 Hs1].
  assert (Hcentre : cfg.randomizeStart (mkConfig options) = false ->
                    centerX == 0.5 * iw).
  { intros E. rewrite E in Hcx. rewrite Hcx. unfold Qdiv.
    change (/ 2) with (1 # 2). lra. }
  assert (Hany : 0 <= centerX /\ centerX <= iw).
  { destruct (cfg.randomizeStart (mkConfig options)).
    - destruct Hcx as (m & ->).
      exact (share_bounds _ iw (proj1 (Hrandom m)) (proj2 (Hrandom m)) Hwidth).
    - rewrite Hcx. unfold Qdiv. change (/ 2) with (1 # 2). lra. }
  split; [|split; [|split]].
  - intros E. specialize (Hcentre E). rewrite Hx. split; lra.
  - rewrite Hx. split; lra.
  - rewrite Hvy. unfold Math_abs.
    destruct (share_bounds _ sv (proj1 (Hrandom nv)) (proj2 (Hrandom nv))
                Hvelocity) as [Hv0 Hv1].
    assert (Hq : Qabs (sv * (0.8 + host.random (world.host w0) nv * 0.4))
                 == sv * (0.8 + host.random (world.host w0) nv * 0.4))
      by (apply Qabs_pos; lra).
    set (q := Qabs _) in *. split; lra.
  - rewrite Hw. pose proof (Hrandom nw) as [Hw0 Hw1]. split; lra.
Qed.

Lemma fire_launch_ranges_witness :
  exists b,
    world.bursts
      (fire (length (world.bursts (initialWorld (steadyHost 0))))
         (newConfettiBurst None (initialWorld (steadyHost 0))).2)
      !! length (world.bursts (initialWorld (steadyHost 0))) = Some b.
Proof.
  destruct (fire_launch_ranges None (initialWorld (steadyHost 0))) as (b & Hb & _).
  - intros n. split; vm_compute; [discriminate | reflexivity].
  - vm_compute. discriminate.
  - vm_compute. discriminate.
  - exists b. exact Hb.
Defined.

(** ** Beside the viewport *)

(** X19. On a viewport whose width is not negative, a frame never leaves
    a particle left of the left edge and still moving left, nor right of
    the right edge and still moving right: after the frame the particle
    is within [[0, innerWidth]] or it moves back towards it. *)
Theorem never_escapes_sideways (innerWidth innerHeight : Q) (a : anim.t)
    (Hwidth : 0 <= innerWidth) :
  let b := advance innerWidth innerHeight a in
  (0 <= anim.x b \/ 0 <= anim.vx b)
  /\ (anim.x b <= innerWidth \/ anim.vx b <= 0).
Proof.
  unfold advance, collideSide, handleSideBounce.
  cbn [anim.x anim.vx horiz.x horiz.vx].
  set (p := collideBottom innerHeight (collideTop (applyPhysics a))).
  destruct (Qleb (anim.x p) 0 && Qltb (anim.vx p) 0) eqn:Eleft;
    cbn [horiz.x horiz.vx].
  - split; left; lra.
  - destruct (Qleb innerWidth (anim.x p) && Qltb 0 (anim.vx p)) eqn:Eright;
      cbn [horiz.x horiz.vx].
    + split; left; lra.
    + split.
      * apply andb_false_iff in Eleft as [E|E].
        -- apply Qleb_gt in E. left. lra.
        -- apply Qltb_ge in E. right. exact E.
      * apply andb_false_iff in Eright as [E|E].
        -- apply Qleb_gt in E. left. lra.
        -- apply Qltb_ge in E. right. exact E.
Qed.

Lemma never_escapes_sideways_witness :
  (0 <= anim.x (advance 1200 800 atLeftEdge)
   \/ 0 <= anim.vx (advance 1200 800 atLeftEdge))
  /\ (anim.x (advance 1200 800 atLeftEdge) <= 1200
      \/ anim.vx (advance 1200 800 atLeftEdge) <= 0).
Proof.
  apply (never_escapes_sideways 1200 800 atLeftEdge).
  vm_compute. discriminate.
Defined.

(** ** [fire] a second time *)

Lemma createParticles_next this w :
  (document.next (world.document w)
   <= document.next (world.document (createParticles this w)))%nat.
Proof.
  unfold createParticles.
  destruct (world.bursts w !! this) as [b|] eqn:Hb; [|reflexivity].
  destruct (burst.container b) as [container|]; [|reflexivity].
  destruct (cfg.randomizeStart (burst.config b)); cbn;
    match goal with
    | |- context [createParticlesLoop ?n ?t ?c ?x ?y ?i ?f ?w0] =>
        destruct (createParticlesLoop_built n t c x y i f w0 b Hb)
          as (news & b' & _ & _ & Hbuilt);
        destruct (createParticlesLoop n t c x y i f w0) as [fragment w1]
    end; exact (built_next _ _ _ _ _ _ _ _ _ Hbuilt).
Qed.

Lemma scheduleCleanup_document this w :
  world.document (scheduleCleanup this w) = world.document w.
Proof.
  unfold scheduleCleanup. destruct (world.bursts w !! this) as [b|]; [|reflexivity].
  destruct (burst.cleanupTimeoutId b); reflexivity.
Qed.

Lemma fire_next this w :
  (document.next (world.document w)
   < document.next (world.document (fire this w)))%nat.
Proof.
  unfold fire. rewrite scheduleCleanup_document.
  eapply Nat.lt_le_trans; [|apply createParticles_next].
  cbn. lia.
Qed.

Lemma kept_scheduleCleanup_any this w b :
  world.bursts w !! this = Some b ->
  kept (scheduleCleanup this w)
  = {| view.host := world.host w;
       view.timers :=
         timers.mk (Pos.succ (timers.next (world.timers w)))
           (<[timers.next (world.timers w) :=
                (host.now (world.host w) + cfg.duration (burst.config b),
                 CleanupCb this)]>
              (match burst.cleanupTimeoutId b with
               | Some id => delete id (timers.pending (world.timers w))
               | None => timers.pending (world.timers w)
               end));
       view.hook := world.hook w; view.calls := world.calls w;
       view.body := document.body (world.document w);
       view.cores :=
         <[this := (Some (timers.next (world.timers w)), burst.config b,
                    burst.container b)]> (view.cores (kept w)) |}.
Proof.
  intros Hb. unfold scheduleCleanup. rewrite Hb.
  destruct (burst.cleanupTimeoutId b) as [id|] eqn:Hid;
    unfold kept, with_burst, clearTimeout, setTimeout; cbn;
    rewrite ?(cores_alter2 _ _ _ _ _ Hb), ?(cores_alter _ _ _ _ Hb);
    reflexivity.
Qed.

Lemma kept_fire_any this w b :
  world.bursts w !! this = Some b ->
  kept (fire this w)
  = {| view.host := world.host w;
       view.timers :=
         timers.mk (Pos.succ (timers.next (world.timers w)))
           (<[timers.next (world.timers w) :=
                (host.now (world.host w) + cfg.duration (burst.config b),
                 CleanupCb this)]>
              (match burst.cleanupTimeoutId b with
               | Some id => delete id (timers.pending (world.timers w))
               | None => timers.pending (world.timers w)
               end));
       view.hook := world.hook w; view.calls := world.calls w;
       view.body := document.body (world.document w)
                    ++ [document.next (world.document w)];
       view.cores :=
         <[this := (Some (timers.next (world.timers w)), burst.config b,
                    Some (document.next (world.document w)))]>
           (view.cores (kept w)) |}.
Proof.
  intros Hb. unfold fire.
  set (w1 := createContainer this w).
  set (w2 := createParticles this w1).
  assert (H1 : kept w1 = _) by exact (kept_createContainer this w b Hb).
  assert (H2 : kept w2 = kept w1) by apply kept_createParticles.
  assert (Hlt : (this < length (world.bursts w))%nat).
  { eapply lookup_lt_Some, Hb. }
  assert (Hcore : burstCore <$> world.bursts w2 !! this
                  = Some (burst.cleanupTimeoutId b, burst.config b,
                          Some (document.next (world.document w)))).
  { rewrite <- cores_lookup, H2, H1. cbn.
    apply list_lookup_insert_eq. rewrite length_fmap. exact Hlt. }
  destruct (world.bursts w2 !! this) as [b2|] eqn:Hb2; [|discriminate].
  injection Hcore as Ht Hc Hk.
  rewrite (kept_scheduleCleanup_any this w2 b2 Hb2).
  rewrite Ht, Hc, Hk.
  rewrite <- (kept_host w2), <- (kept_timers w2), <- (kept_hook w2),
    <- (kept_calls w2), <- (kept_body w2).
  rewrite H2, H1. cbn. rewrite list_insert_insert_eq. reflexivity.
Qed.

(** X20. [fire()] called a second time on a burst replaces its container
    and its teardown timeout: the first timeout is cleared and the second
    is pending, and both containers are under the body. [stop()] then
    removes the second container only: the first stays under the body,
    while the burst holds nothing any more. *)
Theorem second_fire_leaks_first_container (options : option opts.t) (w0 : world.t) :
  let this := length (world.bursts w0) in
  let w1 := fire this (newConfettiBurst options w0).2 in
  let w2 := fire this w1 in
  let first := document.next (world.document w0) in
  let second := document.next (world.document w1) in
  let t1 := timers.next (world.timers w0) in
  let t2 := timers.next (world.timers w1) in
  (exists b, world.bursts w2 !! this = Some b
     /\ burst.container b = Some second
     /\ burst.cleanupTimeoutId b = Some t2)
  /\ document.body (world.document w2)
     = document.body (world.document w0) ++ [first; second]
  /\ timers.pending (world.timers w2) !! t1 = None
  /\ timers.pending (world.timers w2) !! t2
     = Some (host.now (world.host w0) + cfg.duration (mkConfig options),
             CleanupCb this)
  /\ (first ∈ document.body (world.document (stop this w2)))
  /\ (second ∉ document.body (world.document (stop this w2)))
  /\ world.bursts (stop this w2) !! this
     = Some (burst.mk ∅ None (mkConfig options) None []).
Proof.
  intros this w1 w2 first second t1 t2.
  pose proof (kept_fire_any this _ _ (newConfettiBurst_lookup options w0)) as Hk1.
  fold w1 in Hk1.
  cbn [burst.cleanupTimeoutId burst.config] in Hk1.
  change (world.host (newConfettiBurst options w0).2) with (world.host w0) in Hk1.
  change (world.timers (newConfettiBurst options w0).2) with (world.timers w0)
    in Hk1.
  change (world.document (newConfettiBurst options w0).2)
    with (world.document w0) in Hk1.
  fold first t1 in Hk1.
  assert (Hlen : (this < length (view.cores (kept (newConfettiBurst options w0).2)))%nat).
  { unfold kept; cbn [view.cores newConfettiBurst snd world.bursts
                      world.set_bursts].
    rewrite length_fmap, length_app. cbn. unfold this. lia. }
  assert (Hcore1 : burstCore <$> world.bursts w1 !! this
                   = Some (Some t1, mkConfig options, Some first)).
  { rewrite <- cores_lookup, Hk1. cbn [view.cores].
    apply list_lookup_insert_eq. exact Hlen. }
  destruct (world.bursts w1 !! this) as [b1|] eqn:Hb1; [|discriminate].
  injection Hcore1 as Ht1 Hc1 Hcont1.
  pose proof (kept_fire_any this w1 b1 Hb1) as Hk2. fold w2 second t2 in Hk2.
  rewrite Ht1, Hc1 in Hk2.
  rewrite <- (kept_host w1), <- (kept_timers w1), <- (kept_body w1) in Hk2.
  rewrite Hk1 in Hk2.
  cbn [view.host view.timers view.body view.cores timers.pending] in Hk2.
  assert (Hnext : t2 = Pos.succ t1).
  { unfold t2. rewrite <- (kept_timers w1), Hk1. reflexivity. }
  assert (Hcore2 : burstCore <$> world.bursts w2 !! this
                   = Some (Some t2, mkConfig options, Some second)).
  { rewrite <- cores_lookup, Hk2. cbn [view.cores].
    apply list_lookup_insert_eq. rewrite length_insert. exact Hlen. }
  destruct (world.bursts w2 !! this) as [b2|] eqn:Hb2; [|discriminate].
  injection Hcore2 as Ht2 Hc2 Hcont2.
  assert (Hbody2 : document.body (world.document w2)
                   = document.body (world.document w0) ++ [first; second]).
  { rewrite <- kept_body, Hk2. cbn [view.body]. rewrite <- app_assoc.
    reflexivity. }
  assert (Hne : first <> second).
  { pose proof (fire_next this (newConfettiBurst options w0).2) as Hlt.
    fold w1 second in Hlt.
    change (document.next (world.document (newConfettiBurst options w0).2))
      with first in Hlt. lia. }
  split; [exists b2; split; [reflexivity | split; assumption]|].
  split; [exact Hbody2|].
  split.
  { rewrite <- kept_timers, Hk2. cbn [view.timers timers.pending].
    rewrite lookup_insert_ne by (rewrite Hnext; lia).
    apply lookup_delete_eq. }
  split.
  { rewrite <- kept_timers, Hk2. cbn [view.timers timers.pending].
    apply lookup_insert_eq. }
  unfold stop. rewrite (cleanup_eq _ _ _ Hb2).
  pose proof (kept_teardown _ _ _ Hb2) as Hk3.
  rewrite invoke_document, invoke_bursts, <- kept_body, Hk3.
  cbn [view.body]. rewrite Hcont2, Hbody2.
  split; [|split].
  - apply list_elem_of_filter. split; [exact Hne|].
    apply elem_of_app. right. apply list_elem_of_here.
  - apply filter_gone.
  - rewrite (teardown_burst _ _ _ Hb2), Hc2. reflexivity.
Qed.

(** ** What frames leave alone *)


(** ** The burst that the debounce starts *)

Lemma debounced_unfold options w :
  debounced options w
  = let wa := stopExisting w in
    let this := length (world.bursts wa) in
    let wb := world.set_hook (hook.set_isActive true (world.hook wa)) wa in
    let wc :=
      world.set_bursts
        (world.bursts wb
         ++ [burst.mk ∅ None (gateConfig options (world.host wa)) None []]) wb in
    fire this
      (world.set_hook
         (hook.set_activeInstancesRef (Some this) (world.hook wc)) wc).
Proof. reflexivity. Qed.

(** The armed timeout, run once it is due, starts the burst it builds. *)
Lemma armed_starts w id due options :
  gated w -> armed w id due options ->
  due <= host.now (world.host w) ->
  started (runTimeout id w) (length (world.bursts w))
    (gateConfig options (world.host w)) (host.now (world.host w)).
Proof.
  intros Hg [Href Hpend] Hdue. unfold runTimeout.
  rewrite Hpend. apply Qleb_le in Hdue. rewrite Hdue. cbn [runCallback].
  set (wc := clearTimeout id w).
  assert (Hgc : gated wc) by apply gated_clearTimeout, Hg.
  destruct (gated_stopExisting wc Hgc) as [Hgs Hnone].
  destruct (stopExisting_facts wc) as (Hlen & Hhost & _).
  change (world.bursts wc) with (world.bursts w) in Hlen.
  change (world.host wc) with (world.host w) in Hhost.
  assert (Hbody : document.body (world.document (stopExisting wc)) = []).
  { rewrite <- kept_body. apply (g_idle _ _ _ _ _ Hgs). rewrite kept_hook.
    exact Hnone. }
  pose proof (kept_debounced options wc) as Hk. cbv zeta in Hk.
  rewrite Hlen, Hhost in Hk.
  pose proof (f_equal view.hook Hk) as Hhook.
  pose proof (f_equal view.timers Hk) as Htimers.
  pose proof (f_equal view.cores Hk) as Hcores.
  rewrite kept_hook in Hhook. rewrite kept_timers in Htimers.
  cbn [view.hook view.timers view.cores] in Hhook, Htimers, Hcores.
  assert (Hcore : burstCore <$> world.bursts (debounced options wc)
                    !! length (world.bursts w)
                  = Some (Some (timers.next (world.timers (stopExisting wc))),
                          gateConfig options (world.host w),
                          Some (document.next (world.document (stopExisting wc))))).
  { rewrite <- list_lookup_fmap, <- kept_cores, Hcores.
    apply list_lookup_middle. rewrite kept_cores, length_fmap.
    exact (eq_sym Hlen). }
  pose proof (debounced_unfold options wc) as Hun. cbv zeta in Hun.
  rewrite Hlen, Hhost in Hun.
  set (c := gateConfig options (world.host w)) in *.
  set (this := length (world.bursts w)) in *.
  match type of Hun with
  | _ = fire _ ?w0 => set (wn := w0) in *
  end.
  assert (Hb0 : world.bursts wn !! this = Some (burst.mk ∅ None c None [])).
  { subst wn. cbn [world.bursts world.set_hook world.set_bursts].
    apply list_lookup_middle. exact (eq_sym Hlen). }
  destruct (fire_built this wn _ Hb0 eq_refl eq_refl)
    as (b2 & nd & centerX & H1 & _ & H2 & H3 & H4 & H5 & _ & _ & H8).
  destruct (fire_particles this wn _ Hb0) as (news & b' & Hb' & Hp & Hn).
  rewrite H1 in Hb'. injection Hb' as <-.
  cbn [burst.particles burst.config app] in Hp, Hn.
  rewrite Forall_forall in H8.
  rewrite <- Hun in H1, H3, H4, H8.
  rewrite H1 in Hcore. cbn in Hcore. injection Hcore as Htid Hcfg Hcont.
  exists b2, (document.next (world.document (stopExisting wc))),
    (timers.next (world.timers (stopExisting wc))), nd.
  split; [exact H1|]. split; [exact Hcfg|].
  split; [rewrite Hhook; reflexivity|]. split; [rewrite Hhook; reflexivity|].
  split; [exact Hcont|].
  split; [rewrite H3; subst wn; cbn [world.document world.set_hook
            world.set_bursts]; rewrite Hbody; reflexivity|].
  split; [exact H4|]. split; [exact H5|].
  split; [rewrite Hp; exact Hn|].
  split; [intros p Hin; exact (proj1 (H8 p Hin))|].
  split; [exact Htid|].
  rewrite Htimers. cbn [timers.pending]. apply lookup_insert_eq.
Qed.

Lemma run_app (events1 events2 : list Event) (w : world.t) :
  run (events1 ++ events2) w = run events2 (run events1 w).
Proof. apply foldl_app. Qed.

(** In a reachable world only the referenced burst holds anything. *)
Lemma others_hold_nothing (w : world.t) (this j : nat) (b : burst.t) :
  gated w -> framed w ->
  hook.activeInstancesRef (world.hook w) = Some this ->
  j <> this -> world.bursts w !! j = Some b ->
  burst.container b = None /\ burst.animationIds b = ∅.
Proof.
  intros Hg Hf Href Hj Hb. split.
  - destruct (burst.container b) as [container|] eqn:Hc; [|reflexivity].
    exfalso. apply Hj.
    assert (Hr : hook.activeInstancesRef (view.hook (kept w)) = Some j).
    { apply (g_container _ _ _ _ _ Hg j (burstCore b)).
      - rewrite cores_lookup, Hb. reflexivity.
      - cbn. rewrite Hc. discriminate. }
    rewrite kept_hook, Href in Hr. congruence.
  - destruct (decide (burst.animationIds b = ∅)) as [|Hne]; [assumption|].
    exfalso. apply Hj.
    assert (Hr : hook.activeInstancesRef (world.hook w) = Some j).
    { apply (f_quiet _ _ _ _ _ Hf j (burst.animationIds b)); [|exact Hne].
      rewrite list_lookup_fmap, Hb. reflexivity. }
    congruence.
Qed.

(** The debounce over a window of events, in a reachable world, down to
    the burst that is started. *)
Lemma debounce_window_started (h0 : host.t) (past : list Event)
    (o1 : option opts.t) (events : list Event) :
  let w0 := run past (initialWorld h0) in
  let t0 := host.now (world.host w0) in
  forall (Hwindow : forall h, h ∈ hostsOf events -> host.now h < t0 + 200),
  let w1 := run (EvFireConfetti o1 :: events) w0 in
  let last := lastCall events t0 (t0, o1) in
  exists id,
    armed w1 id (last.1 + 200) last.2
    /\ forall h, last.1 + 200 <= host.now h ->
         let w2 := run [EvHost h; EvTimeout id] w1 in
         started w2 (length (world.bursts w0)) (gateConfig last.2 h) (host.now h)
         /\ forall j b, j <> length (world.bursts w0) ->
              world.bursts w2 !! j = Some b ->
              burst.container b = None /\ burst.animationIds b = ∅.
Proof.
  intros w0 t0 Hwindow w1 last.
  assert (Hwt0 : wellTimed w0) by apply wellTimed_run, wellTimed_initialWorld.
  assert (Hg0 : gated w0) by apply reachable_gated.
  assert (Hf0 : framed w0) by apply reachable_framed.
  assert (Hg1 : gated w1) by apply gated_run, Hg0.
  assert (Hf1 : framed w1) by (apply framed_run; assumption).
  destruct (fireConfetti_arms o1 w0) as (Ha & Hb & Hh).
  destruct (window_run events (fireConfetti o1 w0) (timers.next (world.timers w0))
              t0 o1 t0) as (H1 & [id H2] & H3 & H4 & H5).
  - apply wellTimed_fireConfetti, Hwt0.
  - exact Ha.
  - apply Qle_refl.
  - rewrite Hh. apply Qle_refl.
  - rewrite Hh. fold t0. lra.
  - exact Hwindow.
  - rewrite Hh in H2, H5. fold t0 in H2, H5. fold last in H2, H5.
    change (run events (fireConfetti o1 w0)) with w1 in H1, H2, H3, H4.
    rewrite Hb in H3.
    exists id. split; [exact H2|].
    intros h Hh2 w2.
    assert (Hg2 : gated w2) by apply gated_run, Hg1.
    assert (Hf2 : framed w2) by (apply framed_run; assumption).
    subst w2. cbn [run foldl exec] in *.
    assert (Hmove : hostMoves h w1 = world.set_host h w1).
    { unfold hostMoves.
      assert (Hle : Qleb (host.now (world.host w1)) (host.now h) = true)
        by (apply Qleb_le; lra).
      rewrite Hle. reflexivity. }
    rewrite Hmove in *.
    assert (Hgh : gated (world.set_host h w1)) by exact Hg1.
    pose proof (armed_starts (world.set_host h w1) id (last.1 + 200) last.2
                  Hgh H2 Hh2) as Hs.
    cbn [world.bursts world.set_host world.host] in Hs. rewrite H3 in Hs.
    split; [exact Hs|].
    intros j b Hj Hbj.
    destruct Hs as (b2 & container & tid & nd & _ & _ & Hr & _).
    exact (others_hold_nothing _ _ j b Hg2 Hf2 Hr Hj Hbj).
Qed.

(** C8. In a world the event loop can reach, let [fireConfetti(o1)] be
    called and let any events follow, among them any number of further
    calls, while the clock stays within 200 ms of that first call. Then
    no burst has been built so far; exactly one debounce timeout is
    pending, the one the ref names, due 200 ms after the last call and
    carrying the options of the last call; and when the clock has reached
    that time and the timeout runs, exactly one burst is built,
    configured from the options of the last call, and it is started: the
    hook references it and is active, its container is the one element
    under the body and holds its particles, each with its frame
    requested, and its teardown timeout is pending; no other burst holds
    a container or records a frame; and no debounce timeout is left. *)
Theorem debounce_collapses (h0 : host.t) (past : list Event)
    (o1 : option opts.t) (events : list Event) :
  let w0 := run past (initialWorld h0) in
  let t0 := host.now (world.host w0) in
  forall (Hwindow : forall h, h ∈ hostsOf events -> host.now h < t0 + 200),
  let w1 := run (EvFireConfetti o1 :: events) w0 in
  let last := lastCall events t0 (t0, o1) in
  length (world.bursts w1) = length (world.bursts w0)
  /\ exists id,
       armed w1 id (last.1 + 200) last.2
       /\ (forall id' due o',
             timers.pending (world.timers w1) !! id' = Some (due, DebounceCb o') ->
             id' = id)
       /\ forall h, last.1 + 200 <= host.now h ->
            let w2 := run [EvHost h; EvTimeout id] w1 in
            length (world.bursts w2) = S (length (world.bursts w0))
            /\ (exists b,
                  world.bursts w2 !! length (world.bursts w0) = Some b
                  /\ burst.config b = gateConfig last.2 h)
            /\ (forall id' due o',
                  timers.pending (world.timers w2) !! id'
                  <> Some (due, DebounceCb o'))
            /\ started w2 (length (world.bursts w0)) (gateConfig last.2 h)
                 (host.now h)
            /\ (forall j b, j <> length (world.bursts w0) ->
                  world.bursts w2 !! j = Some b ->
                  burst.container b = None /\ burst.animationIds b = ∅).
Proof.
  intros w0 t0 Hwindow w1 last.
  destruct (debounce_window h0 past o1 events Hwindow)
    as (Hlen & id & Harmed & Huniq & Hfire).
  destruct (debounce_window_started h0 past o1 events Hwindow)
    as (id' & Harmed' & Hstart).
  assert (id' = id) as ->.
  { destruct Harmed as [Hr _]. destruct Harmed' as [Hr' _].
    fold w0 w1 in Hr, Hr'. congruence. }
  split; [exact Hlen|]. exists id.
  split; [exact Harmed|]. split; [exact Huniq|].
  intros h Hh w2.
  destruct (Hfire h Hh) as (F1 & F2 & F3).
  destruct (Hstart h Hh) as (S1 & S2).
  exact (conj F1 (conj F2 (conj F3 (conj S1 S2)))).
Qed.

(** Scenario 3 of the specification: [fireConfetti()], then, 100 ms
    later, [fireConfetti({particleCount: 10})]. *)
Lemma debounce_collapses_witness :
  let events := [EvHost (steadyHost 100);
                 EvFireConfetti (Some (onlyParticleCount 10))] in
  let w1 := run (EvFireConfetti None :: events) (initialWorld (steadyHost 0)) in
  (forall h, h ∈ hostsOf events -> host.now h < 0 + 200)
  /\ length (world.bursts w1) = 0%nat
  /\ exists id, armed w1 id (100 + 200) (Some (onlyParticleCount 10))
       /\ let w2 := run [EvHost (steadyHost 300); EvTimeout id] w1 in
          exists b, world.bursts w2 !! 0%nat = Some b
            /\ cfg.particleCount (burst.config b) = 10
            /\ length (burst.particles b) = 9%nat
            /\ hook.isActive (world.hook w2) = true.
Proof.
  intros events w1.
  assert (Hwindow : forall h, h ∈ hostsOf events -> host.now h < 0 + 200).
  { intros h Hin. cbn in Hin. apply list_elem_of_singleton in Hin. subst h.
    reflexivity. }
  split; [exact Hwindow|].
  destruct (debounce_collapses (steadyHost 0) [] None events Hwindow)
    as (Hlen & id & Harmed & _ & Hfire).
  split; [exact Hlen|].
  exists id. split; [exact Harmed|].
  destruct (Hfire (steadyHost 300)) as (_ & _ & _ & Hs & _).
  { vm_compute. discriminate. }
  destruct Hs as (b & container & tid & nd & Hb & Hc & _ & Hact & _ & _ & _ & _
                  & Hn & _).
  exists b. split; [exact Hb|].
  assert (Hcount : cfg.particleCount
                     (gateConfig (Some (onlyParticleCount 10)) (steadyHost 300))
                   = 10) by (vm_compute; reflexivity).
  split; [rewrite Hc; exact Hcount|].
  split; [|exact Hact].
  rewrite Hn. cbn [lastCall events fst snd]. rewrite Hcount. reflexivity.
Defined.

(** ** A launch that reaches the top edge in its first frame *)


